(** * go-sat: the CDCL solve loop of [solver.go]

    A shallow embedding of [Solver.Solve] and of the functions it calls
    ([selectLiteral], [unitPropagate], [applyConflict], [addConflictLiteral],
    [removeConflictLiteral], [applyExplain], [applyExplainUIP],
    [applyBackjump]), followed by the properties of the solver that its
    specification states.

    Conventions of the embedding.
    - A [cnf.Literal] is a Go [int]: a nonzero signed variable number,
      modelled as [Z]; a [cnf.Clause] is a list of literals and a
      [cnf.Formula] a list of clauses.
    - Go maps used as sets ([vars], [cH], [cP]) are [gset Z]; [reasonMap]
      is a [gmap Z (list Z)].  Reading a missing key gives the zero value.
    - Go leaves the iteration order of [range] over a map unspecified.  Every
      such loop asks the parameter [rangeMap] for the order in which the keys
      are visited; [rangeMap] is only known to enumerate the key set, and it
      may answer differently every time (the solver state counts the map
      loops executed so far in the ghost field [clock]).
    - The solver is mutated in place in Go; here every function returns the
      new solver state.  [panic] and the unbounded [for] loops are made
      explicit by the result type [Res]: loops take a fuel argument and
      answer [OutOfFuel] when it is exhausted.
    - The [Trace] output is purely observational and is left out. *)

From stdpp Require Import base gmap list sorting.
From Stdlib Require Import ZArith Lia.

Local Open Scope Z_scope.

(** ** Results of fallible and possibly diverging code *)

Inductive Res (A : Type) : Type :=
  | Ret (a : A)
  | Panic
  | OutOfFuel.
Arguments Ret {A} a.
Arguments Panic {A}.
Arguments OutOfFuel {A}.

Definition bindRes {A B : Type} (r : Res A) (k : A -> Res B) : Res B :=
  match r with
  | Ret a => k a
  | Panic => Panic
  | OutOfFuel => OutOfFuel
  end.

#[global] Instance Res_bind : MBind Res := fun _ _ k r => bindRes r k.
#[global] Instance Res_ret : MRet Res := fun _ a => Ret a.

(** ** Literals, clauses, three-valued truth *)

Inductive Tribool : Type := TriTrue | TriFalse | Undef.

#[global] Instance Tribool_eq_dec : EqDecision Tribool.
Proof. solve_decision. Defined.

(** Modelled from the spec: [cnf.Literal.Negate] (package [cnf] is not part
    of the sources at hand).  "Negation flips polarity." *)
Definition Negate (l : Z) : Z := - l.

(** The variable of a literal: its absolute value. *)
Definition litVar (l : Z) : Z := Z.abs l.

(** Modelled from the spec: [cnf.Clause.IsZero], the test the solve loop
    applies to the answer of [IsFormulaFalse]: the zero clause stands for
    "none". *)
Definition IsZero (c : list Z) : bool :=
  match c with
  | [] => true
  | _ :: _ => false
  end.

(** ** The trail *)

(** Modelled from the spec: the type [trail] behind the field [Solver.m]
    (its file is not part of the sources at hand; [solver.go] uses its fields
    [elems] and [set] and the methods below).  A trail entry is a literal
    with the decision level at which it was asserted; the justifying clause
    is kept by the solver in [reasonMap]. *)
Record trailElem : Type := mkElem { Lit : Z; Lvl : nat }.

(** Modelled from the spec: the trail itself, "the chronological assignment
    store with decision-level checkpoints". *)
Record trail : Type := mkTrail {
  elems : list trailElem;   (* chronological: the last entry is the newest *)
  decisionsLen : nat        (* number of open decision levels *)
}.

(** Modelled from the spec: [newTrail]: the trail is "created empty at solver
    construction". *)
Definition newTrail : trail := {| elems := []; decisionsLen := 0 |}.

(** The literals a trail has asserted, oldest first. *)
Definition trailLits (m : trail) : list Z := Lit <$> elems m.

(** Modelled from the spec: the map [trail.set], from an asserted literal to
    its decision level; as a Go map it reads 0 for a literal that is not on
    the trail. *)
Definition set (m : trail) (l : Z) : nat :=
  match find (fun e => bool_decide (Lit e = l)) (elems m) with
  | Some e => Lvl e
  | None => 0%nat
  end.

(** Modelled from the spec: [levelOf(lit)]. *)
Definition Level (m : trail) (l : Z) : nat := set m l.

(** Modelled from the spec: [currentLevel()]: "number of open decision
    levels; 0 means no decisions taken yet". *)
Definition CurrentLevel (m : trail) : nat := decisionsLen m.

(** Modelled from the spec: [openDecisions()]: "number of decision levels
    currently open". *)
Definition DecisionsLen (m : trail) : nat := decisionsLen m.

(** Modelled from the spec: [assignedCount()]. *)
Definition Len (m : trail) : nat := length (elems m).

(** Modelled from the spec: [value(lit)]: "True if lit holds, False if
    falsified, Undefined if variable unassigned". *)
Definition value (m : trail) (l : Z) : Tribool :=
  if bool_decide (l ∈ trailLits m) then TriTrue
  else if bool_decide (Negate l ∈ trailLits m) then TriFalse
  else Undef.

(** Modelled from the spec: [isUnit(clause, lit)]: "true iff every literal in
    clause other than lit is falsified and lit is unassigned". *)
Definition IsUnit (m : trail) (c : list Z) (l : Z) : bool :=
  bool_decide (value m l = Undef)
  && forallb (fun l' => bool_decide (l' = l) || bool_decide (value m l' = TriFalse)) c.

(** Modelled from the spec: a clause "all of whose literals are currently
    falsified" (the test inside [isFormulaFalse]). *)
Definition IsClauseFalse (m : trail) (c : list Z) : bool :=
  forallb (fun l => bool_decide (value m l = TriFalse)) c.

(** Modelled from the spec: [isFormulaFalse(formula)]: "returns some clause
    all of whose literals are currently falsified, or none"; the first one in
    formula order, the zero clause for none. *)
Definition IsFormulaFalse (m : trail) (f : list (list Z)) : list Z :=
  match find (IsClauseFalse m) f with
  | Some c => c
  | None => []
  end.

(** Modelled from the spec: [trimToLevel(level)]: "unassigns every variable
    asserted at levels above level, discards those trail entries and the
    corresponding level boundaries; no-op if already <= level". *)
Definition TrimToLevel (level : nat) (m : trail) : trail :=
  if bool_decide (decisionsLen m ≤ level)%nat then m
  else {| elems := filter (fun e => (Lvl e ≤ level)%nat) (elems m);
          decisionsLen := level |}.

(** Modelled from the spec: [assert(lit, reason)] together with
    [newDecisionLevel()]: "requires lit's variable is currently unassigned;
    sets its truth value consistent with lit's polarity, records the current
    decision level, appends to the trail.  Violating the precondition is a
    fatal contract error."  A decision opens a new level first. *)
Definition Assert (l : Z) (decision : bool) (m : trail) : Res trail :=
  if bool_decide (value m l = Undef) then
    let lv := if decision then S (decisionsLen m) else decisionsLen m in
    Ret {| elems := elems m ++ [mkElem l lv]; decisionsLen := lv |}
  else Panic.

(** ** The solver *)

Inductive satResult : Type := satResultUndef | satResultUnsat | satResultSat.

#[global] Instance satResult_eq_dec : EqDecision satResult.
Proof. solve_decision. Defined.

Record Solver : Type := mkSolver {
  decideLiterals : list Z;
  result : satResult;
  f : list (list Z);
  m : trail;
  reasonMap : gmap Z (list Z);
  vars : gset Z;
  c : list Z;
  cH : gset Z;
  cP : gset Z;
  cL : Z;
  cN : Z;
  clock : nat   (* ghost: number of map [range] loops executed so far *)
}.

(** Field updates ([s.x = v] in Go). *)
Definition setDecideLiterals (v : list Z) (s : Solver) : Solver :=
  mkSolver v (result s) (f s) (m s) (reasonMap s) (vars s) (c s) (cH s) (cP s) (cL s) (cN s) (clock s).
Definition setF (v : list (list Z)) (s : Solver) : Solver :=
  mkSolver (decideLiterals s) (result s) v (m s) (reasonMap s) (vars s) (c s) (cH s) (cP s) (cL s) (cN s) (clock s).
Definition setM (v : trail) (s : Solver) : Solver :=
  mkSolver (decideLiterals s) (result s) (f s) v (reasonMap s) (vars s) (c s) (cH s) (cP s) (cL s) (cN s) (clock s).
Definition setReasonMap (v : gmap Z (list Z)) (s : Solver) : Solver :=
  mkSolver (decideLiterals s) (result s) (f s) (m s) v (vars s) (c s) (cH s) (cP s) (cL s) (cN s) (clock s).
Definition setVars (v : gset Z) (s : Solver) : Solver :=
  mkSolver (decideLiterals s) (result s) (f s) (m s) (reasonMap s) v (c s) (cH s) (cP s) (cL s) (cN s) (clock s).
Definition setC (v : list Z) (s : Solver) : Solver :=
  mkSolver (decideLiterals s) (result s) (f s) (m s) (reasonMap s) (vars s) v (cH s) (cP s) (cL s) (cN s) (clock s).
Definition setCH (v : gset Z) (s : Solver) : Solver :=
  mkSolver (decideLiterals s) (result s) (f s) (m s) (reasonMap s) (vars s) (c s) v (cP s) (cL s) (cN s) (clock s).
Definition setCP (v : gset Z) (s : Solver) : Solver :=
  mkSolver (decideLiterals s) (result s) (f s) (m s) (reasonMap s) (vars s) (c s) (cH s) v (cL s) (cN s) (clock s).
Definition setCL (v : Z) (s : Solver) : Solver :=
  mkSolver (decideLiterals s) (result s) (f s) (m s) (reasonMap s) (vars s) (c s) (cH s) (cP s) v (cN s) (clock s).
Definition setCN (v : Z) (s : Solver) : Solver :=
  mkSolver (decideLiterals s) (result s) (f s) (m s) (reasonMap s) (vars s) (c s) (cH s) (cP s) (cL s) v (clock s).
Definition tick (s : Solver) : Solver :=
  mkSolver (decideLiterals s) (result s) (f s) (m s) (reasonMap s) (vars s) (c s) (cH s) (cP s) (cL s) (cN s) (S (clock s)).

(** [New]: an empty solver. *)
Definition New : Solver :=
  {| decideLiterals := []; result := satResultUndef; f := []; m := newTrail;
     reasonMap := ∅; vars := ∅; c := []; cH := ∅; cP := ∅; cL := 0; cN := 0;
     clock := 0 |}.

(** Modelled from the spec: [Solver.AddFormula] (not part of the sources at
    hand): the formula is stored as given and "the variable universe is the
    set of absolute values appearing". *)
Definition formulaVars (fm : list (list Z)) : gset Z :=
  list_to_set (litVar <$> mjoin fm).

Definition AddFormula (fm : list (list Z)) (s : Solver) : Solver :=
  setVars (vars s ∪ formulaVars fm) (setF (f s ++ fm) s).

(** Modelled from the spec: [Solver.assertLiteral(lit, decision)], the
    two-argument method that [solver.go] calls (not part of the sources at
    hand): it asserts on the trail [m]. *)
Definition assertLiteral (l : Z) (decision : bool) (s : Solver) : Res Solver :=
  m' ← Assert l decision (m s);
  Ret (setM m' s).

Section Solver.

(** The order in which the [n]-th map loop of a run visits the keys. *)
Variable rangeMap : nat -> gset Z -> list Z.

(** [for k := range set]: the keys in the order chosen for this loop, and the
    solver with its loop counter advanced. *)
Definition rangeKeys (X : gset Z) (s : Solver) : list Z * Solver :=
  (rangeMap (clock s) X, tick s).

(** *** Decision heuristic: [selectLiteral] *)

Definition tMapOf (m : trail) : gset Z :=
  list_to_set ((fun e => if bool_decide (Lit e < 0) then - Lit e else Lit e) <$> elems m).

Definition selectLiteral (s : Solver) : Res (Z * Solver) :=
  let tMap := tMapOf (m s) in
  match decideLiterals s with
  | result :: rest =>
      let s := setDecideLiterals rest s in
      if bool_decide (result ∈ tMap) then Panic
      else Ret (result, s)
  | [] =>
      let '(keys, s) := rangeKeys (vars s) s in
      match find (fun k => bool_decide (k ∉ tMap)) keys with
      | Some k => Ret (k, s)
      | None => Ret (0, s)
      end
  end.

(** *** Unit propagation *)

(** The two nested [for] loops of [unitPropagate]: the first clause, in
    formula order, and in it the first literal, for which [IsUnit] holds. *)
Definition findUnitLit (m : trail) (c : list Z) : option Z :=
  find (fun l => IsUnit m c l) c.

Fixpoint findUnit (m : trail) (fm : list (list Z)) : option (list Z * Z) :=
  match fm with
  | [] => None
  | c :: fm =>
      match findUnitLit m c with
      | Some l => Some (c, l)
      | None => findUnit m fm
      end
  end.

Fixpoint unitPropagate (fuel : nat) (s : Solver) : Res Solver :=
  match fuel with
  | O => OutOfFuel
  | S fuel =>
      match findUnit (m s) (f s) with
      | None => Ret s
      | Some (c, l) =>
          s ← assertLiteral l false s;
          let s := setReasonMap (<[l := c]> (reasonMap s)) s in
          if negb (IsZero (IsFormulaFalse (m s) (f s))) then Ret s
          else unitPropagate fuel s
      end
  end.

(** *** Conflict analysis *)

Definition addConflictLiteral (l : Z) (s : Solver) : Solver :=
  if bool_decide (l ∈ cH s) then s
  else
    let level := Level (m s) (Negate l) in
    if bool_decide (0 < level)%nat then
      let s := setCH ({[l]} ∪ cH s) s in
      if bool_decide (level = CurrentLevel (m s)) then setCN (cN s + 1) s
      else setCP ({[l]} ∪ cP s) s
    else s.

(** The backward scan for "the last asserted literal": [es] is the trail,
    newest entry first; [cL0] is the value [cL] holds when the scan starts. *)
Fixpoint scanBack (H : gset Z) (cL0 : Z) (es : list trailElem) : Z :=
  match es with
  | [] => cL0
  | e :: es => if bool_decide (Negate (Lit e) ∈ H) then Lit e else scanBack H (Lit e) es
  end.

Definition findLastAsserted (s : Solver) : Solver :=
  setCL (scanBack (cH s) (cL s) (reverse (elems (m s)))) s.

Definition applyConflict (c : list Z) (s : Solver) : Solver :=
  let s := setCN 0 (setCP ∅ (setCH ∅ s)) in
  let s := foldl (fun s l => addConflictLiteral l s) s c in
  findLastAsserted s.

Definition removeConflictLiteral (l : Z) (s : Solver) : Solver :=
  let s := setCH (cH s ∖ {[l]}) s in
  if bool_decide (Level (m s) (Negate l) = CurrentLevel (m s)) then setCN (cN s - 1) s
  else setCP (cP s ∖ {[l]}) s.

Definition applyExplain (lit : Z) (s : Solver) : Solver :=
  let s := removeConflictLiteral (Negate lit) s in
  let reason := default [] (reasonMap s !! lit) in
  let s := foldl (fun s l => if bool_decide (l ≠ lit) then addConflictLiteral l s else s) s reason in
  findLastAsserted s.

Fixpoint explainLoop (fuel : nat) (s : Solver) : Res Solver :=
  match fuel with
  | O => OutOfFuel
  | S fuel =>
      if bool_decide (cN s ≠ 1) then explainLoop fuel (applyExplain (cL s) s)
      else Ret s
  end.

Definition applyExplainUIP (fuel : nat) (s : Solver) : Res Solver :=
  s ← explainLoop fuel s;
  let '(keys, s) := rangeKeys (cP s) s in
  Ret (setC (keys ++ [Negate (cL s)]) s).

Definition isUIP (s : Solver) : bool := bool_decide (cN s = 1).

(** *** Backjumping *)

Definition applyBackjump (s : Solver) : Res Solver :=
  let '(level, s) :=
    if bool_decide (0 < size (cP s))%nat then
      let '(keys, s) := rangeKeys (cP s) s in
      (foldl (fun level l =>
                let v := set (m s) (Negate l) in
                if bool_decide (level < v)%nat then v else level) 0%nat keys, s)
    else (0%nat, s) in
  let s := setM (TrimToLevel level (m s)) s in
  let lit := Negate (cL s) in
  s ← assertLiteral lit false s;
  Ret (setReasonMap (<[lit := c s]> (reasonMap s)) s).

(** *** The solve loop *)

(** [if len(s.c) > 1 { s.f = append(s.f, s.c) }] *)
Definition learnClause (s : Solver) : Solver :=
  if bool_decide (1 < length (c s))%nat then setF (f s ++ [c s]) s else s.

(** One iteration of the [for] loop of [Solve]: either the loop returns
    ([inl]) or it goes round again ([inr]).  [fuel] bounds the inner loops. *)
Definition solveIter (fuel : nat) (s : Solver) : Res (bool * Solver + Solver) :=
  s ← unitPropagate fuel s;
  let conflictC := IsFormulaFalse (m s) (f s) in
  if negb (IsZero conflictC) then
    let s := applyConflict conflictC s in
    if bool_decide (DecisionsLen (m s) = 0%nat) then Ret (inl (false, s))
    else
      s ← applyExplainUIP fuel s;
      let s := learnClause s in
      s ← applyBackjump s;
      Ret (inr s)
  else
    if bool_decide (Len (m s) = size (vars s)) then Ret (inl (true, s))
    else
      '(lit, s) ← selectLiteral s;
      s ← assertLiteral lit true s;
      Ret (inr s).

Fixpoint solveLoop (fuel : nat) (n : nat) (s : Solver) : Res (bool * Solver) :=
  match n with
  | O => OutOfFuel
  | S n =>
      r ← solveIter fuel s;
      match r with
      | inl out => Ret out
      | inr s => solveLoop fuel n s
      end
  end.

Definition Solve (fuel : nat) (s : Solver) : Res (bool * Solver) :=
  if bool_decide (result s ≠ satResultUndef) then
    Ret (bool_decide (result s = satResultSat), s)
  else solveLoop fuel fuel s.

End Solver.

(** ** Predicates used in the statements *)

(** What is known of the order of a map loop: it visits every key once. *)
Definition enumerates (rangeMap : nat -> gset Z -> list Z) : Prop :=
  forall n X, rangeMap n X ≡ₚ elements X.

(** Two concrete orders: the one of [elements], and descending keys. *)
Definition inOrder (n : nat) (X : gset Z) : list Z := elements X.

Definition descending (n : nat) (X : gset Z) : list Z :=
  reverse (merge_sort Z.le (elements X)).

(** A well-formed input: every clause is non-empty and made of nonzero
    literals (what the ingestion collaborator guarantees). *)
Definition wfClause (cl : list Z) : Prop := cl ≠ [] /\ Forall (fun l => l ≠ 0) cl.
Definition wfFormula (fm : list (list Z)) : Prop := Forall wfClause fm.

#[global] Instance wfClause_dec cl : Decision (wfClause cl).
Proof. unfold wfClause. apply _. Defined.
#[global] Instance wfFormula_dec fm : Decision (wfFormula fm).
Proof. unfold wfFormula. apply _. Defined.

(** The variables assigned by a trail. *)
Definition trailVars (M : trail) : list Z := (fun e => litVar (Lit e)) <$> elems M.

(** A clause is satisfied when one of its literals holds. *)
Definition clauseSat (M : trail) (cl : list Z) : Prop :=
  exists l, l ∈ cl /\ value M l = TriTrue.

(** [v] is the lowest-numbered variable of the solver without assignment. *)
Definition lowestUnassigned (s : Solver) (v : Z) : Prop :=
  v ∈ vars s /\ (v ∉ tMapOf (m s)) /\
  forall w, w ∈ vars s -> (w ∉ tMapOf (m s)) -> v <= w.

(** Well-formed trails: no variable is assigned twice, no literal is zero,
    levels never decrease along the trail and stay below the number of open
    decision levels, and every open level holds an entry. *)
Definition levelsMonotone (es : list trailElem) : Prop :=
  forall i j a b, es !! i = Some a -> es !! j = Some b -> (i <= j)%nat ->
    (Lvl a <= Lvl b)%nat.

Record trail_wf (M : trail) : Prop := {
  wf_nodup : NoDup (trailVars M);
  wf_nonzero : Forall (fun e => Lit e ≠ 0) (elems M);
  wf_mono : levelsMonotone (elems M);
  wf_bound : Forall (fun e => (Lvl e <= decisionsLen M)%nat) (elems M);
  wf_levels : forall j, (1 <= j <= decisionsLen M)%nat ->
                exists e, e ∈ elems M /\ Lvl e = j
}.

(** The conflict working set of [s] replaced. *)
Definition withConflict (H P : gset Z) (N L : Z) (s : Solver) : Solver :=
  setCL L (setCN N (setCP P (setCH H s))).

Definition withTrail (M : trail) (R : gmap Z (list Z)) (s : Solver) : Solver :=
  setReasonMap R (setM M s).

(** The target level computed by [applyBackjump]. *)
Definition backjumpLevel (M : trail) (keys : list Z) : nat :=
  foldl (fun level l =>
           let v := set M (Negate l) in
           if bool_decide (level < v)%nat then v else level) 0%nat keys.

(** Justification of the trail: every literal of the reason clause of the
    entry at position [i], other than the entry's own literal, is falsified
    by an earlier entry.  Every entry that is not the first of its level
    (the decision) is justified. *)
Definition falsifiedBefore (es : list trailElem) (i : nat) (l : Z) : Prop :=
  exists j e, (j < i)%nat /\ es !! j = Some e /\ Lit e = Negate l.

Definition justified (R : gmap Z (list Z)) (es : list trailElem) (i : nat)
    (e : trailElem) : Prop :=
  forall l, l ∈ default [] (R !! Lit e) -> l ≠ Lit e -> falsifiedBefore es i l.

Definition reasonsValid (R : gmap Z (list Z)) (M : trail) : Prop :=
  forall i j a b, (i < j)%nat -> elems M !! i = Some a -> elems M !! j = Some b ->
    Lvl a = Lvl b -> justified R (elems M) j b.

(** No clause of the formula is falsified by the part of the trail below the
    current decision level. *)
Definition noFalseBelow (fm : list (list Z)) (M : trail) : Prop :=
  forall j cl, (j < decisionsLen M)%nat -> cl ∈ fm ->
    IsClauseFalse (TrimToLevel j M) cl = false.

Definition formulaOK (fm : list (list Z)) (V : gset Z) : Prop :=
  Forall (fun cl => cl ≠ [] /\ Forall (fun l => l ≠ 0 /\ litVar l ∈ V) cl) fm.

(** The invariant of the solve loop. *)
Record Inv (s : Solver) : Prop := {
  inv_wf : trail_wf (m s);
  inv_reasons : reasonsValid (reasonMap s) (m s);
  inv_below : noFalseBelow (f s) (m s);
  inv_formula : formulaOK (f s) (vars s);
  inv_trail_vars : forall v, v ∈ trailVars (m s) -> v ∈ vars s;
  inv_vars_pos : forall v, v ∈ vars s -> 0 < v;
  inv_decide : decideLiterals s = []
}.

(** [L] is the most recently asserted literal of the trail whose negation is
    in [H]; it stands at position [i]. *)
Definition lastAssertedAt (es : list trailElem) (H : gset Z) (L : Z) (i : nat) : Prop :=
  exists e, es !! i = Some e /\ Lit e = L /\ Negate L ∈ H /\
    forall j e', (i < j)%nat -> es !! j = Some e' -> Negate (Lit e') ∉ H.

Definition lastAsserted (es : list trailElem) (H : gset Z) (L : Z) : Prop :=
  exists i, lastAssertedAt es H L i.

(** The invariant of conflict analysis: [H] holds literals whose negation
    was asserted at a nonzero level, [P] those of them below the current
    level, [N] counts the others, and [L] is the last asserted one. *)
Record ACore (s : Solver) : Prop := {
  a_levels : forall l, l ∈ cH s -> (0 < Level (m s) (Negate l))%nat;
  a_P : forall l, l ∈ cP s <-> l ∈ cH s /\ Level (m s) (Negate l) ≠ CurrentLevel (m s);
  a_N : cN s = Z.of_nat (size (cH s ∖ cP s))
}.

Record AInv (s : Solver) : Prop := {
  a_core : ACore s;
  a_last : cH s ≠ ∅ -> lastAsserted (elems (m s)) (cH s) (cL s)
}.

(** One round of unit propagation: [s.assertLiteral(l, false)] followed by
    [s.reasonMap[l] = c]. *)
Definition propagateStep (cl : list Z) (l : Z) (s : Solver) : Res Solver :=
  s ← assertLiteral l false s; Ret (setReasonMap (<[l := cl]> (reasonMap s)) s).

(** The level [applyBackjump] trims the trail to. *)
Definition backjumpTarget (rangeMap : nat -> gset Z -> list Z) (s : Solver) : nat :=
  if bool_decide (0 < size (cP s))%nat
  then backjumpLevel (m s) (rangeMap (clock s) (cP s)) else 0%nat.

(** The termination measure: an entry at level [i] weighs [(n+1)^(n-i)],
    where [n] is the number of variables; the trail weighs the sum. *)
Definition weight (n : nat) (e : trailElem) : nat := (S n ^ (n - Lvl e))%nat.

Definition trailMeasure (n : nat) (M : trail) : nat :=
  sum_list_with (weight n) (elems M).

(** The states the solve loop goes through, from [s0]. *)
Inductive reachable (rangeMap : nat -> gset Z -> list Z) (fuel : nat) (s0 : Solver) :
    Solver -> Prop :=
  | reach_init : reachable rangeMap fuel s0 s0
  | reach_step s s' :
      reachable rangeMap fuel s0 s ->
      solveIter rangeMap fuel s = Ret (inr s') ->
      reachable rangeMap fuel s0 s'.

(** What one iteration of the loop does from a state of the invariant. *)
Definition iterOutcome (s : Solver) (r : bool * Solver + Solver) : Prop :=
  match r with
  | inl (b, s') =>
      Inv s' /\ vars s' = vars s /\
      if b then IsZero (IsFormulaFalse (m s') (f s')) = true /\ Len (m s') = size (vars s')
      else IsZero (IsFormulaFalse (m s') (f s')) = false /\ DecisionsLen (m s') = 0%nat
  | inr s' =>
      Inv s' /\ vars s' = vars s /\
      (trailMeasure (size (vars s)) (m s) < trailMeasure (size (vars s)) (m s'))%nat /\
      ((DecisionsLen (m s') < DecisionsLen (m s))%nat \/ (Len (m s) < Len (m s'))%nat)
  end.

(** The states the explain loop of [applyExplainUIP] goes through, from the
    state [applyConflict] leaves. *)
Inductive analysing (s : Solver) : Solver -> Prop :=
  | an_start : analysing s s
  | an_step t : analysing s t -> cN t ≠ 1 -> analysing s (applyExplain (cL t) t).

(** Ascending keys: one more order a map loop may take. *)
Definition ascending (n : nat) (X : gset Z) : list Z := merge_sort Z.le (elements X).

(** The trail [M] with the entries [new] asserted after it, at the same
    number of open decision levels. *)
Definition trailAfter (M : trail) (new : list trailElem) : trail :=
  {| elems := elems M ++ new; decisionsLen := decisionsLen M |}.

(** The value of a computation that returns, [d] otherwise. *)
Definition getRet {A : Type} (d : A) (r : Res A) : A :=
  match r with
  | Ret a => a
  | _ => d
  end.

(** A run used to exercise the conflict branch: on [{[-1, 2], [-1, -2]}],
    with ascending map order, the first iteration decides 1; propagation
    then asserts 2 and falsifies the second clause; analysis learns [-1]. *)
Definition exFormula : list (list Z) := [[-1; 2]; [-1; -2]].

Definition exDecided : Solver :=
  match solveIter ascending 5 (AddFormula exFormula New) with
  | Ret (inr s) => s
  | _ => New
  end.

Definition exPropagated : Solver := getRet New (unitPropagate 5 exDecided).

Definition exConflict : Solver :=
  applyConflict (IsFormulaFalse (m exPropagated) (f exPropagated)) exPropagated.

Definition exAnalysed : Solver := getRet New (applyExplainUIP ascending 5 exConflict).

Definition exBackjumped : Solver :=
  getRet New (applyBackjump ascending (learnClause exAnalysed)).

(** A state of the solver on [{[4], [5, 6]}]: propagation has asserted 4 at
    level 0, and the next override literal is -4. *)
Definition overrideState : Solver :=
  setDecideLiterals [-4]
    (setM {| elems := [mkElem 4 0]; decisionsLen := 0 |}
       (AddFormula [[4]; [5; 6]] New)).

(** ** Propositional semantics *)

(** The truth of a literal under a valuation of the variables, and what it
    means for a valuation to satisfy a formula. *)
Definition litTrue (v : Z -> bool) (l : Z) : bool :=
  if bool_decide (0 < l) then v l else negb (v (- l)).

Definition models (v : Z -> bool) (fm : list (list Z)) : Prop :=
  forall cl, cl ∈ fm -> exists l, l ∈ cl /\ litTrue v l = true.

Definition satisfiable (fm : list (list Z)) : Prop := exists v, models v fm.

(** Every valuation that satisfies [fm] satisfies the clause [cl]. *)
Definition entails (fm : list (list Z)) (cl : list Z) : Prop :=
  forall v, models v fm -> exists l, l ∈ cl /\ litTrue v l = true.

(** The valuation a trail stands for: a variable is true when the trail
    holds its positive literal. *)
Definition trailValuation (M : trail) : Z -> bool :=
  fun x => bool_decide (x ∈ trailLits M).

(** What a state of the loop owes to the formula [fm] the solver was given:
    the clauses of the current formula and the recorded reasons follow from
    [fm], the literals asserted at level 0 hold in every valuation that
    satisfies [fm], and every entry that is not the first of its level has a
    recorded reason. *)
Record Ent (fm : list (list Z)) (s : Solver) : Prop := {
  ent_f : forall cl, cl ∈ f s -> entails fm cl;
  ent_reason : forall l cl, reasonMap s !! l = Some cl -> entails fm cl;
  ent_zero : forall e v, e ∈ elems (m s) -> Lvl e = 0%nat -> models v fm ->
               litTrue v (Lit e) = true;
  ent_has : forall i j a b, (i < j)%nat ->
              elems (m s) !! i = Some a -> elems (m s) !! j = Some b ->
              Lvl a = Lvl b -> is_Some (reasonMap s !! Lit b)
}.

(** During conflict analysis: every valuation that satisfies [fm] makes a
    literal of [H] true. *)
Definition HEnt (fm : list (list Z)) (s : Solver) : Prop :=
  forall v, models v fm -> exists l, l ∈ cH s /\ litTrue v l = true.

(** Two formulas used to exercise the statements about the answer of
    [Solve], and the state a run on a fresh solver ends in. *)
Definition exUnsat : list (list Z) := [[4]; [6]; [-4; -6]].

Definition exSat : list (list Z) := [[1; 2]; [-1; 2]; [-2; 3]].

(** On [exLearn], with ascending map order, the run learns [[-1; -2]]. *)
Definition exLearn : list (list Z) :=
  [[-1; 2; 3]; [-1; 2; -3]; [-1; -2; 3]; [-1; -2; -3]; [1; 4]].

Definition solved (rangeMap : nat -> gset Z -> list Z) (fuel : nat)
    (fm : list (list Z)) : Solver :=
  (getRet (false, New) (Solve rangeMap fuel (AddFormula fm New))).2.

(** Enough fuel for a run on [fm]: with [n] variables, [n * (n+1)^n + n]. *)
Definition solveFuel (fm : list (list Z)) : nat :=
  let n := size (vars (AddFormula fm New)) in (n * S n ^ n + n)%nat.

(** [models], computed. *)
Definition modelsb (v : Z -> bool) (fm : list (list Z)) : bool :=
  forallb (existsb (litTrue v)) fm.

(** The table of [TestSolve_table]: formulas and expected answers. *)
Definition testTable : list (list (list Z) * bool) :=
  [ ([], true);
    ([[4]], true);
    ([[4]; [6]; [-4; -6]], false);
    ([[-4]; [4; -6]], true);
    ([[-3; 4]; [-1; -3; 5]; [-2; -4; -5]; [-2; 3; 5; -6]; [-1; 2];
      [-1; 3; -5; -6]; [1; -6]; [1; 7]], true) ].

(** No clause of the formula is unit on the part of the trail below the
    current decision level: propagation was complete when each decision
    was taken. *)
Definition noUnitBelow (fm : list (list Z)) (M : trail) : Prop :=
  forall j cl l, (j < decisionsLen M)%nat -> cl ∈ fm -> l ∈ cl ->
    IsUnit (TrimToLevel j M) cl l = false.

(** The clause learned by the iteration of the loop of [Solve] that starts
    at [s], when that iteration goes through conflict analysis ([s.c] after
    [applyExplainUIP]). *)
Definition learnedAt (rangeMap : nat -> gset Z -> list Z) (fuel : nat) (s : Solver) :
    option (list Z) :=
  match unitPropagate fuel s with
  | Ret s1 =>
      let conflictC := IsFormulaFalse (m s1) (f s1) in
      if negb (IsZero conflictC) && negb (bool_decide (DecisionsLen (m s1) = 0%nat)) then
        match applyExplainUIP rangeMap fuel (applyConflict conflictC s1) with
        | Ret s3 => Some (c s3)
        | _ => None
        end
      else None
  | _ => None
  end.

(** What that iteration appends to the formula. *)
Definition appendedAt (rangeMap : nat -> gset Z -> list Z) (fuel : nat) (s : Solver) :
    list (list Z) :=
  match learnedAt rangeMap fuel s with
  | Some cl => if bool_decide (1 < length cl)%nat then [cl] else []
  | None => []
  end.

(** What the iterations of a run append, in order. *)
Fixpoint appendedInRun (rangeMap : nat -> gset Z -> list Z) (fuel n : nat) (s : Solver) :
    list (list Z) :=
  match n with
  | O => []
  | S n =>
      match solveIter rangeMap fuel s with
      | Ret (inr s') => appendedAt rangeMap fuel s ++ appendedInRun rangeMap fuel n s'
      | _ => []
      end
  end.

(** The state an iteration of the loop ends in. *)
Definition iterState (r : bool * Solver + Solver) : Solver :=
  match r with
  | inl (_, s) => s
  | inr s => s
  end.

(** The run on [exLearn] with ascending map order: two decisions (1, then
    2), then propagation asserts 3 and falsifies a clause; analysis learns
    [[-1; -2]], which is appended. *)
Definition exLearnStep1 : Solver :=
  match solveIter ascending 6 (AddFormula exLearn New) with
  | Ret (inr s) => s
  | _ => New
  end.

Definition exLearnStep2 : Solver :=
  match solveIter ascending 6 exLearnStep1 with
  | Ret (inr s) => s
  | _ => New
  end.

Definition exLearnPropagated : Solver := getRet New (unitPropagate 6 exLearnStep2).

(** ** The trail functions of [solver_trail.go] *)

(** [solver_trail.go] works on the fields [assigns], [varinfo], [trail],
    [trailIdx] and [qhead] of the solver, with literals of the package
    [packed].  That package, the type [Tribool] with [BoolToTri] and [Undef],
    and the declarations of [varinfo] and [qhead] are not part of the sources
    at hand: the embedding takes the literal and clause types, [Var], [Sign],
    [Undef] and [BoolToTri] as parameters, a [Tribool] being the integer it
    is in Go, and holds [varinfo] in a map like [assigns].  These methods
    are another trail than the one [Solve] runs on; they live in a module
    of their own. *)
Module SolverTrail.

Section Trail.

Context {Lit Clause : Type}.
Variable Var : Lit -> Z.
Variable Sign : Lit -> bool.
Variable Undef : Z.
Variable BoolToTri : bool -> Z.

Record varinfo : Type := mkVarinfo { reason : Clause; varinfo_level : Z }.

Record trailState : Type := mkTrailState {
  assigns : gmap Z Z;            (* map[int]Tribool *)
  varinfoMap : gmap Z varinfo;   (* the field [varinfo] *)
  trail : list Lit;
  trailIdx : list Z;             (* []int: where each decision level starts *)
  qhead : Z
}.

Definition ValueLit (l : Lit) (s : trailState) : Z :=
  match assigns s !! Var l with
  | None => Undef
  | Some result =>
      if bool_decide (result = Undef) then Undef
      else if Sign l then Z.lxor result 1 else result
  end.

Definition decisionLevel (s : trailState) : Z := Z.of_nat (length (trailIdx s)).

Definition assertLiteral (l : Lit) (from : Clause) (s : trailState) : trailState :=
  let v := Var l in
  {| assigns := <[v := BoolToTri (negb (Sign l))]> (assigns s);
     varinfoMap := <[v := mkVarinfo from (decisionLevel s)]> (varinfoMap s);
     trail := trail s ++ [l];
     trailIdx := trailIdx s;
     qhead := qhead s |}.

(** Reading a missing key of a Go map gives the zero value. *)
Definition level (v : Z) (s : trailState) : Z :=
  match varinfoMap s !! v with
  | Some i => varinfo_level i
  | None => 0
  end.

Definition newDecisionLevel (s : trailState) : trailState :=
  {| assigns := assigns s;
     varinfoMap := varinfoMap s;
     trail := trail s;
     trailIdx := trailIdx s ++ [Z.of_nat (length (trail s))];
     qhead := qhead s |}.

(** [trimToDecisionLevel]: the index [s.trailIdx[level]] panics when [level]
    is negative; the loop that unassigns runs from the end of the trail down
    to [lastIdx] and panics on [s.trail[-1]] when [lastIdx] is negative; the
    reslice [s.trail[:lastIdx]] beyond the length of the trail depends in Go
    on the capacity of the slice, which the embedding does not hold: it
    answers [Panic] there (no boundary lies beyond the trail in a state built
    by these functions). *)
Definition trimToDecisionLevel (level : Z) (s : trailState) : Res trailState :=
  if bool_decide (decisionLevel s <= level) then Ret s
  else if bool_decide (level < 0) then Panic
  else
    match trailIdx s !! Z.to_nat level with
    | None => Panic
    | Some lastIdx =>
        if bool_decide (lastIdx < 0) then Panic
        else if bool_decide (Z.of_nat (length (trail s)) < lastIdx) then Panic
        else
          Ret {| assigns :=
                   foldl (fun a l => delete (Var l) a) (assigns s)
                     (reverse (drop (Z.to_nat lastIdx) (trail s)));
                 varinfoMap := varinfoMap s;
                 trail := take (Z.to_nat lastIdx) (trail s);
                 trailIdx := take (Z.to_nat level) (trailIdx s);
                 qhead := lastIdx |}
    end.

(** A new decision level followed by the assertion of the literals [ls],
    each with its reason. *)
Definition decideAndAssert (ls : list (Lit * Clause)) (s : trailState) : trailState :=
  foldl (fun s p => assertLiteral p.1 p.2 s) (newDecisionLevel s) ls.

(** The invariant of the trail fields: the level boundaries lie within the
    trail and never decrease, the assigned variables are those of the trail,
    and no variable is on the trail twice. *)
Record trailInv (s : trailState) : Prop := {
  ti_bounds : Forall (fun i => 0 <= i <= Z.of_nat (length (trail s))) (trailIdx s);
  ti_sorted : forall i j a b, trailIdx s !! i = Some a -> trailIdx s !! j = Some b ->
                (i <= j)%nat -> a <= b;
  ti_dom : forall v, is_Some (assigns s !! v) <-> v ∈ Var <$> trail s;
  ti_nodup : NoDup (Var <$> trail s)
}.

End Trail.

End SolverTrail.

(** An encoding of literals used to exercise the trail functions: the
    variable [v] is the literal [2v], its negation [2v+1]; true, false and
    undefined are 0, 1 and 2. *)
Definition exVar (l : Z) : Z := Z.shiftr l 1.
Definition exSign (l : Z) : bool := Z.odd l.
Definition exUndef : Z := 2.
Definition exBoolToTri (b : bool) : Z := if b then 0 else 1.

Definition exEmpty : SolverTrail.trailState (Lit := Z) (Clause := list Z) :=
  SolverTrail.mkTrailState ∅ ∅ [] [] 0.

(** Variable 3 asserted at level 0; then a decision on variable 4 that
    forces variable 5 to false. *)
Definition exTrail : SolverTrail.trailState (Lit := Z) (Clause := list Z) :=
  SolverTrail.assertLiteral exVar exSign exBoolToTri 6 [6] exEmpty.

Definition exTrail2 : SolverTrail.trailState (Lit := Z) (Clause := list Z) :=
  SolverTrail.decideAndAssert exVar exSign exBoolToTri [(8, [8]); (11, [11; 9])] exTrail.

(** ** Tactics *)

(** [shape] and [fields] compute with the field updates of the solver record
    and nothing else. *)
Ltac shape :=
  cbv beta iota delta
    [withConflict withTrail findLastAsserted setCL setCN setCP setCH setM
     setReasonMap setC setF setVars setDecideLiterals tick
     decideLiterals result f m reasonMap vars c cH cP cL cN clock];
  reflexivity.

Ltac fields :=
  cbn [withConflict withTrail setCL setCN setCP setCH setM setReasonMap setC setF
       setVars setDecideLiterals tick decideLiterals result f m reasonMap vars c cH
       cP cL cN clock elems decisionsLen Lit Lvl] in *.

(** * Properties *)

(** ** The two concrete map orders enumerate the keys *)

Lemma inOrder_enumerates : enumerates inOrder.
Proof. intros n X. reflexivity. Qed.

Lemma descending_enumerates : enumerates descending.
Proof.
  intros n X. unfold descending.
  rewrite reverse_Permutation. apply merge_sort_Permutation.
Qed.

Lemma enumerates_elem rangeMap n X k :
  enumerates rangeMap -> k ∈ rangeMap n X <-> k ∈ X.
Proof. intros H. rewrite (H n X). apply elem_of_elements. Qed.

Lemma enumerates_length rangeMap n X :
  enumerates rangeMap -> length (rangeMap n X) = size X.
Proof. intros H. by rewrite (H n X). Qed.

(** ** Literal selection *)

Lemma elem_of_tMapOf M v : v ∈ tMapOf M <-> v ∈ trailVars M.
Proof.
  unfold tMapOf, trailVars. rewrite elem_of_list_to_set.
  rewrite !list_elem_of_fmap. split; intros (e & -> & He); exists e; split; auto;
    unfold litVar; case_bool_decide; lia.
Qed.

Lemma find_first {A} (P : A -> bool) (l : list A) x :
  find P l = Some x ->
  exists before after, l = before ++ x :: after /\ P x = true /\
    forall y, y ∈ before -> P y = false.
Proof.
  induction l as [|a l IH]; simpl; [done|].
  destruct (P a) eqn:Ha.
  - intros [= ->]. exists [], l. repeat split; auto. intros y Hy. by apply elem_of_nil in Hy.
  - intros H. destruct (IH H) as (b & af & -> & Hx & Hb).
    exists (a :: b), af. repeat split; auto.
    intros y [->|Hy]%elem_of_cons; auto.
Qed.

Lemma find_none {A} (P : A -> bool) (l : list A) :
  find P l = None <-> forall y, y ∈ l -> P y = false.
Proof.
  induction l as [|a l IH]; simpl.
  - split; [|done]. intros _ y Hy. by apply elem_of_nil in Hy.
  - destruct (P a) eqn:Ha.
    + split; [done|]. intros H. specialize (H a (list_elem_of_here _ _)). congruence.
    + rewrite IH. split.
      * intros H y [->|Hy]%elem_of_cons; auto.
      * intros H y Hy. apply H. by right.
Qed.

(** With no override sequence, [selectLiteral] returns the first variable
    without assignment in the order in which this map loop visits [vars]. *)
Lemma selectLiteral_first_unassigned (rangeMap : nat -> gset Z -> list Z) (s : Solver) :
  enumerates rangeMap ->
  decideLiterals s = [] ->
  (exists v, v ∈ vars s /\ (v ∉ tMapOf (m s))) ->
  exists lit before after,
    selectLiteral rangeMap s = Ret (lit, tick s) /\
    rangeMap (clock s) (vars s) = before ++ lit :: after /\
    (forall k, k ∈ before -> k ∈ tMapOf (m s)) /\
    lit ∈ vars s /\ (lit ∉ tMapOf (m s)).
Proof.
  intros Henum Hd (v & Hv & Hvu).
  unfold selectLiteral. rewrite Hd. unfold rangeKeys.
  destruct (find _ _) as [k|] eqn:Hfind.
  - destruct (find_first _ _ _ Hfind) as (b & a & Hsplit & Hk & Hb).
    apply bool_decide_eq_true in Hk.
    assert (Hin : k ∈ vars s).
    { apply (enumerates_elem rangeMap (clock s)); auto. rewrite Hsplit.
      apply elem_of_app. right. by left. }
    exists k, b, a. repeat split; auto.
    intros y Hy. specialize (Hb y Hy). apply bool_decide_eq_false in Hb.
    by apply dec_stable in Hb.
  - exfalso. rewrite find_none in Hfind.
    specialize (Hfind v). rewrite bool_decide_eq_false in Hfind.
    apply Hfind; auto. by apply (enumerates_elem rangeMap (clock s)).
Qed.

(** C9 (as amended): with no override sequence, as long as some variable is
    unassigned, [selectLiteral] returns the first unassigned variable in the
    order in which this map loop visits [vars]: a variable of the formula
    with no assignment on the trail, as the literal of positive polarity
    (the variable number itself).  Which unassigned variable comes first is
    up to the map order. *)
Theorem selectLiteral_default (rangeMap : nat -> gset Z -> list Z) (s : Solver) :
  enumerates rangeMap ->
  decideLiterals s = [] ->
  (exists v, v ∈ vars s /\ (v ∉ tMapOf (m s))) ->
  exists lit before after,
    selectLiteral rangeMap s = Ret (lit, tick s) /\
    rangeMap (clock s) (vars s) = before ++ lit :: after /\
    (forall k, k ∈ before -> k ∈ tMapOf (m s)) /\
    lit ∈ vars s /\ (lit ∉ tMapOf (m s)) /\
    ((forall v, v ∈ vars s -> 0 < v) -> 0 < lit).
Proof.
  intros Henum Hd Hex.
  destruct (selectLiteral_first_unassigned rangeMap s Henum Hd Hex)
    as (lit & b & a & Hsel & Hsplit & Hb & Hin & Hun).
  exists lit, b, a. repeat split; auto.
Qed.

Lemma selectLiteral_default_witness :
  exists lit before after,
    selectLiteral descending (AddFormula [[1; 2]] New) = Ret (lit, tick (AddFormula [[1; 2]] New)) /\
    descending 0 (vars (AddFormula [[1; 2]] New)) = before ++ lit :: after /\
    (forall k, k ∈ before -> k ∈ tMapOf (m (AddFormula [[1; 2]] New))) /\
    lit ∈ vars (AddFormula [[1; 2]] New) /\
    (lit ∉ tMapOf (m (AddFormula [[1; 2]] New))) /\
    ((forall v, v ∈ vars (AddFormula [[1; 2]] New) -> 0 < v) -> 0 < lit).
Proof.
  apply (selectLiteral_default descending (AddFormula [[1; 2]] New)).
  - exact descending_enumerates.
  - reflexivity.
  - exists 1. split; [vm_compute; done | vm_compute; set_solver].
Defined.

(** C9 (as stated) fails: Go does not fix the order of a loop over the map
    [vars]; when the loop visits 2 before 1, the literal selected on an empty
    trail is 2, not the lowest-numbered unassigned variable 1. *)
Lemma selectLiteral_not_lowest :
  ~ (forall rangeMap, enumerates rangeMap ->
     forall s lit s', decideLiterals s = [] ->
       selectLiteral rangeMap s = Ret (lit, s') ->
       (exists v, v ∈ vars s /\ (v ∉ tMapOf (m s))) ->
       lowestUnassigned s lit).
Proof.
  intros H.
  specialize (H descending descending_enumerates (AddFormula [[1; 2]] New) 2).
  destruct (H _ eq_refl eq_refl) as (_ & _ & Hlow).
  - exists 1. split; [vm_compute; done | vm_compute; set_solver].
  - assert (2 <= 1); [|lia]. apply (Hlow 1); [vm_compute; done | vm_compute; set_solver].
Qed.

(** The override check does fire for a positive literal whose variable is
    assigned. *)
Lemma selectLiteral_override_taken (rangeMap : nat -> gset Z -> list Z) s lit rest :
  decideLiterals s = lit :: rest -> 0 < lit -> lit ∈ trailVars (m s) ->
  selectLiteral rangeMap s = Panic.
Proof.
  intros Hd Hpos Hin. unfold selectLiteral. rewrite Hd.
  rewrite bool_decide_eq_true_2; [done|]. by apply elem_of_tMapOf.
Qed.

(** C10: at [overrideState] the next override literal -4 names variable 4,
    which the trail has assigned, and [selectLiteral] returns -4 instead of
    panicking: the lookup table holds the variables as positive numbers and
    is asked for the signed literal. *)
Theorem selectLiteral_negative_override (rangeMap : nat -> gset Z -> list Z) :
  litVar (-4) ∈ trailVars (m overrideState) /\
  selectLiteral rangeMap overrideState = Ret (-4, setDecideLiterals [] overrideState).
Proof.
  split.
  - vm_compute. apply list_elem_of_here.
  - unfold selectLiteral. simpl. rewrite bool_decide_eq_false_2; [done|].
    vm_compute. set_solver.
Qed.

(** The literal returned there is then handed to [assertLiteral], which is
    where the run stops: the trail refuses a literal whose variable it holds. *)
Example override_assert_panics :
  assertLiteral (-4) true (setDecideLiterals [] overrideState) = Panic.
Proof. vm_compute. reflexivity. Qed.

(** ** Which fields each function writes *)

Lemma bindRes_Ret {A B} (r : Res A) (k : A -> Res B) b :
  (r ≫= k) = Ret b -> exists a, r = Ret a /\ k a = Ret b.
Proof. destruct r; simpl; try done. intros H. by exists a. Qed.

Tactic Notation "inv_bind" hyp(H) "as" ident(a) ident(H1) :=
  apply bindRes_Ret in H; destruct H as (a & H1 & H).

Lemma withConflict_id s : s = withConflict (cH s) (cP s) (cN s) (cL s) s.
Proof. by destruct s. Qed.

Lemma withConflict_twice H P N L H' P' N' L' s :
  withConflict H P N L (withConflict H' P' N' L' s) = withConflict H P N L s.
Proof. by destruct s. Qed.

Lemma addConflictLiteral_shape l s :
  exists H P N, addConflictLiteral l s = withConflict H P N (cL s) s.
Proof.
  unfold addConflictLiteral. repeat case_bool_decide.
  all: try (exists (cH s), (cP s), (cN s); by destruct s).
  - exists ({[l]} ∪ cH s), (cP s), (cN s + 1). by destruct s.
  - exists ({[l]} ∪ cH s), ({[l]} ∪ cP s), (cN s). by destruct s.
Qed.

Lemma foldl_addConflict_shape (g : Z -> bool) cl s :
  exists H P N,
    foldl (fun s l => if g l then addConflictLiteral l s else s) s cl
    = withConflict H P N (cL s) s.
Proof.
  revert s. induction cl as [|l cl IH]; intros s; simpl.
  - exists (cH s), (cP s), (cN s). apply withConflict_id.
  - destruct (g l).
    + destruct (addConflictLiteral_shape l s) as (H & P & N & ->).
      destruct (IH (withConflict H P N (cL s) s)) as (H' & P' & N' & ->).
      exists H', P', N'. by destruct s.
    + apply IH.
Qed.

Lemma applyConflict_shape cl s :
  exists H P N L, applyConflict cl s = withConflict H P N L s.
Proof.
  unfold applyConflict.
  destruct (foldl_addConflict_shape (fun _ => true) cl (setCN 0 (setCP ∅ (setCH ∅ s))))
    as (H & P & N & Heq).
  simpl in Heq. rewrite Heq. unfold findLastAsserted.
  destruct s. eexists _, _, _, _. shape.
Qed.

Lemma applyExplain_shape lit s :
  exists H P N L, applyExplain lit s = withConflict H P N L s.
Proof.
  unfold applyExplain.
  assert (exists H P N, removeConflictLiteral (Negate lit) s = withConflict H P N (cL s) s)
    as (H0 & P0 & N0 & ->).
  { unfold removeConflictLiteral. case_bool_decide; destruct s; eexists _, _, _; shape. }
  set (s0 := withConflict H0 P0 N0 (cL s) s).
  destruct (foldl_addConflict_shape (fun l => bool_decide (l ≠ lit))
              (default [] (reasonMap s0 !! lit)) s0) as (H & P & N & ->).
  unfold findLastAsserted. subst s0. destruct s. eexists _, _, _, _. shape.
Qed.

Lemma explainLoop_shape fuel s s' :
  explainLoop fuel s = Ret s' ->
  exists H P N L, s' = withConflict H P N L s.
Proof.
  revert s. induction fuel as [|fuel IH]; intros s; simpl; [done|].
  case_bool_decide.
  - intros Hl. destruct (applyExplain_shape (cL s) s) as (H0 & P0 & N0 & L0 & Heq).
    rewrite Heq in Hl. apply IH in Hl as (H1 & P1 & N1 & L1 & ->).
    eexists _, _, _, _. apply withConflict_twice.
  - intros [= <-]. eexists _, _, _, _. apply withConflict_id.
Qed.

Lemma applyExplainUIP_shape rangeMap fuel s s' :
  applyExplainUIP rangeMap fuel s = Ret s' ->
  exists s1, explainLoop fuel s = Ret s1 /\
    s' = setC (rangeMap (clock s1) (cP s1) ++ [Negate (cL s1)]) (tick s1).
Proof.
  unfold applyExplainUIP. intros H. inv_bind H as s1 H1.
  exists s1. split; [done|]. unfold rangeKeys in H. by injection H as <-.
Qed.

Lemma assertLiteral_shape l d s s' :
  assertLiteral l d s = Ret s' ->
  exists M, Assert l d (m s) = Ret M /\ s' = setM M s.
Proof.
  unfold assertLiteral. intros H. inv_bind H as M HM. exists M. split; [done|].
  by injection H as <-.
Qed.

Lemma unitPropagate_shape fuel s s' :
  unitPropagate fuel s = Ret s' ->
  exists M R, s' = withTrail M R s.
Proof.
  revert s. induction fuel as [|fuel IH]; intros s; simpl; [done|].
  destruct (findUnit (m s) (f s)) as [[cl l]|].
  - intros H. inv_bind H as s1 H1. apply assertLiteral_shape in H1 as (M & _ & ->).
    destruct (negb _).
    + injection H as <-. destruct s. eexists _, _. shape.
    + apply IH in H as (M' & R' & ->). destruct s. eexists _, _. shape.
  - intros [= <-]. exists (m s), (reasonMap s). by destruct s.
Qed.

Lemma applyBackjump_shape rangeMap s s' :
  applyBackjump rangeMap s = Ret s' ->
  exists level M,
    level = (if bool_decide (0 < size (cP s))%nat
             then backjumpLevel (m s) (rangeMap (clock s) (cP s)) else 0%nat) /\
    Assert (Negate (cL s)) false (TrimToLevel level (m s)) = Ret M /\
    s' = withTrail M (<[Negate (cL s) := c s]> (reasonMap s))
           (if bool_decide (0 < size (cP s))%nat then tick s else s).
Proof.
  unfold applyBackjump, rangeKeys. intros H.
  destruct (bool_decide (0 < size (cP s))%nat); inv_bind H as s1 H1;
    apply assertLiteral_shape in H1 as (M & HM & ->);
    injection H as <-; eexists _, M; (split; [reflexivity|]); (split; [exact HM|]);
    destruct s; shape.
Qed.

Lemma selectLiteral_shape rangeMap s lit s' :
  selectLiteral rangeMap s = Ret (lit, s') ->
  s' = setDecideLiterals (tail (decideLiterals s)) (match decideLiterals s with [] => tick s | _ :: _ => s end).
Proof.
  unfold selectLiteral, rangeKeys. destruct (decideLiterals s) as [|r rest] eqn:Hd.
  - destruct (find _ _); intros [= _ <-]; destruct s; cbn in Hd; subst; shape.
  - case_bool_decide; [done|]. intros [= _ <-]. destruct s; shape.
Qed.

(** ** The shape of one iteration of the solve loop *)

Section Iteration.
Variable rangeMap : nat -> gset Z -> list Z.

Lemma solveIter_cases fuel s r :
  solveIter rangeMap fuel s = Ret r ->
  exists s1, unitPropagate fuel s = Ret s1 /\
    let cl := IsFormulaFalse (m s1) (f s1) in
    let s2 := applyConflict cl s1 in
    ((IsZero cl = false /\
      ((DecisionsLen (m s1) = 0%nat /\ r = inl (false, s2)) \/
       (DecisionsLen (m s1) ≠ 0%nat /\
        exists s3 s5, applyExplainUIP rangeMap fuel s2 = Ret s3 /\
          applyBackjump rangeMap (learnClause s3) = Ret s5 /\ r = inr s5))) \/
     (IsZero cl = true /\
      ((Len (m s1) = size (vars s1) /\ r = inl (true, s1)) \/
       (Len (m s1) ≠ size (vars s1) /\
        exists lit s2' s3, selectLiteral rangeMap s1 = Ret (lit, s2') /\
          assertLiteral lit true s2' = Ret s3 /\ r = inr s3)))).
Proof.
  unfold solveIter. intros H. inv_bind H as s1 H1. exists s1. split; [done|].
  destruct (IsZero (IsFormulaFalse (m s1) (f s1))) eqn:Hz; cbn [negb] in H |- *.
  - right. split; [done|]. case_bool_decide.
    + left. by injection H as <-.
    + right. split; [done|]. inv_bind H as ls H2. destruct ls as [lit s2'].
      inv_bind H as s3 H3. injection H as <-. by exists lit, s2', s3.
  - left. split; [done|].
    destruct (applyConflict_shape (IsFormulaFalse (m s1) (f s1)) s1) as (H' & P' & N' & L' & Heq).
    assert (Hm : m (applyConflict (IsFormulaFalse (m s1) (f s1)) s1) = m s1) by (by rewrite Heq).
    rewrite Hm in H. case_bool_decide.
    + left. by injection H as <-.
    + right. split; [done|]. inv_bind H as s3 H3. inv_bind H as s5 H5. injection H as <-.
      by exists s3, s5.
Qed.

Lemma learnClause_f s :
  f (learnClause s) = if bool_decide (1 < length (c s))%nat then f s ++ [c s] else f s.
Proof. unfold learnClause. by case_bool_decide. Qed.

Lemma solveIter_formula fuel s r :
  solveIter rangeMap fuel s = Ret r ->
  exists learned,
    f (match r with inl (_, s') => s' | inr s' => s' end) = f s ++ learned /\
    Forall (fun cl => (1 < length cl)%nat) learned.
Proof.
  intros H. apply solveIter_cases in H as (s1 & H1 & Hc). cbv zeta in Hc.
  apply unitPropagate_shape in H1 as (M1 & R1 & ->).
  destruct (applyConflict_shape (IsFormulaFalse (m (withTrail M1 R1 s)) (f (withTrail M1 R1 s)))
              (withTrail M1 R1 s)) as (H' & P' & N' & L' & Heq).
  rewrite Heq in Hc. clear Heq.
  destruct Hc as [[_ [[_ ->]|(_ & s3 & s5 & H3 & H5 & ->)]]|[_ [[_ ->]|(_ & lit & s2' & s3 & H2 & H3 & ->)]]].
  - exists []. fields. by rewrite app_nil_r.
  - apply applyExplainUIP_shape in H3 as (s4 & H4 & ->).
    apply explainLoop_shape in H4 as (H'' & P'' & N'' & L'' & ->).
    apply applyBackjump_shape in H5 as (lv & M & _ & _ & ->).
    unfold learnClause. fields.
    destruct (bool_decide (1 < length _)%nat) eqn:Hlen;
      destruct (bool_decide (0 < size _)%nat); fields.
    1,2: apply bool_decide_eq_true in Hlen; eexists [_]; split; [reflexivity|];
         by repeat constructor.
    all: exists []; by rewrite app_nil_r.
  - exists []. fields. by rewrite app_nil_r.
  - apply selectLiteral_shape in H2 as ->.
    apply assertLiteral_shape in H3 as (M & _ & ->). fields.
    exists []. rewrite app_nil_r. by destruct (decideLiterals s).
Qed.

Lemma solveLoop_formula fuel n s b s' :
  solveLoop rangeMap fuel n s = Ret (b, s') ->
  exists learned, f s' = f s ++ learned /\ Forall (fun cl => (1 < length cl)%nat) learned.
Proof.
  revert s. induction n as [|n IH]; intros s; simpl; [done|].
  intros H. inv_bind H as r Hr. apply solveIter_formula in Hr as (l1 & Hf1 & Hl1).
  destruct r as [[b0 s0]|s0].
  - injection H as <- <-. eauto.
  - apply IH in H as (l2 & Hf2 & Hl2). exists (l1 ++ l2).
    rewrite Hf2, Hf1, <- app_assoc. split; [done|]. by apply Forall_app.
Qed.

(** [Solve] never writes the field [result]. *)
Lemma solveIter_result fuel s r :
  solveIter rangeMap fuel s = Ret r ->
  result (match r with inl (_, s') => s' | inr s' => s' end) = result s.
Proof.
  intros H. apply solveIter_cases in H as (s1 & H1 & Hc). cbv zeta in Hc.
  apply unitPropagate_shape in H1 as (M1 & R1 & ->).
  destruct (applyConflict_shape (IsFormulaFalse (m (withTrail M1 R1 s)) (f (withTrail M1 R1 s)))
              (withTrail M1 R1 s)) as (H' & P' & N' & L' & Heq).
  rewrite Heq in Hc. clear Heq.
  destruct Hc as [[_ [[_ ->]|(_ & s3 & s5 & H3 & H5 & ->)]]|[_ [[_ ->]|(_ & lit & s2' & s3 & H2 & H3 & ->)]]];
    try reflexivity.
  - apply applyExplainUIP_shape in H3 as (s4 & H4 & ->).
    apply explainLoop_shape in H4 as (H'' & P'' & N'' & L'' & ->).
    apply applyBackjump_shape in H5 as (lv & M & _ & _ & ->).
    unfold learnClause. fields.
    by destruct (bool_decide (1 < length _)%nat); destruct (bool_decide (0 < size _)%nat).
  - apply selectLiteral_shape in H2 as ->.
    apply assertLiteral_shape in H3 as (M & _ & ->). fields.
    by destruct (decideLiterals s).
Qed.

Lemma solveLoop_result fuel n s b s' :
  solveLoop rangeMap fuel n s = Ret (b, s') -> result s' = result s.
Proof.
  revert s. induction n as [|n IH]; intros s; simpl; [done|].
  intros H. inv_bind H as r Hr. apply solveIter_result in Hr.
  destruct r as [[b0 s0]|s0].
  - by injection H as <- <-.
  - apply IH in H. congruence.
Qed.

Lemma Solve_result_unchanged fuel s b s' :
  Solve rangeMap fuel s = Ret (b, s') -> result s' = result s.
Proof.
  unfold Solve. case_bool_decide.
  - by intros [= _ <-].
  - apply solveLoop_result.
Qed.

(** C1: on [{[1], [-1], [2]}] the first call of [Solve] returns false and
    leaves [result] undefined; so the second call does not return a stored
    result: it runs the loop again (and asserts the literal 2 before it
    answers false once more). *)
Theorem Solve_twice_reruns_loop :
  exists s1 s2,
    Solve rangeMap 10 (AddFormula [[1]; [-1]; [2]] New) = Ret (false, s1) /\
    result s1 = satResultUndef /\
    Solve rangeMap 10 s1 = Ret (false, s2) /\
    trailLits (m s1) = [1] /\ trailLits (m s2) = [1; 2].
Proof.
  eexists _, _. split; [vm_compute; reflexivity|].
  split; [reflexivity|]. split; [vm_compute; reflexivity|]. split; reflexivity.
Qed.

End Iteration.

(** ** The trail: values, levels, assertion, trimming *)

Lemma Negate_involutive l : Negate (Negate l) = l.
Proof. unfold Negate. lia. Qed.

Lemma litVar_Negate l : litVar (Negate l) = litVar l.
Proof. unfold litVar, Negate. lia. Qed.

Lemma Negate_inj l l' : Negate l = Negate l' -> l = l'.
Proof. unfold Negate. lia. Qed.

Lemma litVar_eq l l' : litVar l = litVar l' <-> l = l' \/ l = Negate l'.
Proof. unfold litVar, Negate. lia. Qed.

Lemma elem_of_trailLits M l : l ∈ trailLits M <-> exists e, e ∈ elems M /\ Lit e = l.
Proof.
  unfold trailLits. rewrite list_elem_of_fmap. split; intros (e & ? & ?); exists e; auto.
Qed.

Lemma elem_of_trailVars M v : v ∈ trailVars M <-> exists e, e ∈ elems M /\ litVar (Lit e) = v.
Proof.
  unfold trailVars. rewrite list_elem_of_fmap. split; intros (e & ? & ?); exists e; auto.
Qed.

Lemma trailVars_lits M l : litVar l ∈ trailVars M <-> l ∈ trailLits M \/ Negate l ∈ trailLits M.
Proof.
  rewrite elem_of_trailVars, !elem_of_trailLits. split.
  - intros (e & He & Hv). apply litVar_eq in Hv as [Hv|Hv].
    + left. by exists e.
    + right. by exists e.
  - intros [(e & He & <-)|(e & He & Hn)]; exists e; split; auto.
    rewrite Hn. apply litVar_Negate.
Qed.

Lemma value_true M l : value M l = TriTrue <-> l ∈ trailLits M.
Proof. unfold value. repeat case_bool_decide; split; try done. Qed.

Lemma value_false M l :
  value M l = TriFalse <-> (l ∉ trailLits M) /\ Negate l ∈ trailLits M.
Proof. unfold value. repeat case_bool_decide; split; try done; tauto. Qed.

Lemma value_undef M l : value M l = Undef <-> litVar l ∉ trailVars M.
Proof.
  rewrite trailVars_lits. unfold value. repeat case_bool_decide; split; try done; tauto.
Qed.

Lemma NoDup_trailVars_lookup M i j a b :
  NoDup (trailVars M) -> elems M !! i = Some a -> elems M !! j = Some b ->
  litVar (Lit a) = litVar (Lit b) -> i = j.
Proof.
  intros Hnd Ha Hb Heq. eapply NoDup_lookup; [exact Hnd| |].
  - unfold trailVars. rewrite list_lookup_fmap, Ha. reflexivity.
  - unfold trailVars. rewrite list_lookup_fmap, Hb. simpl. by rewrite Heq.
Qed.

Lemma wf_lit_nonzero M e : trail_wf M -> e ∈ elems M -> Lit e ≠ 0.
Proof. intros Hwf He. by apply (proj1 (Forall_forall _ _) (wf_nonzero _ Hwf)). Qed.

Lemma wf_consistent M l : trail_wf M -> l ∈ trailLits M -> Negate l ∉ trailLits M.
Proof.
  intros Hwf (a & Ha & Hla)%elem_of_trailLits (b & Hb & Hlb)%elem_of_trailLits.
  pose proof (wf_lit_nonzero _ _ Hwf Ha) as Hnz.
  apply list_elem_of_lookup in Ha as (i & Hi), Hb as (j & Hj).
  assert (i = j).
  { eapply NoDup_trailVars_lookup; eauto using wf_nodup.
    rewrite Hla, Hlb. by rewrite litVar_Negate. }
  subst j. assert (a = b) by congruence. subst b.
  unfold Negate in Hlb. lia.
Qed.

Lemma value_false_wf M l : trail_wf M -> value M l = TriFalse <-> Negate l ∈ trailLits M.
Proof.
  intros Hwf. rewrite value_false. split; [tauto|]. intros H. split; [|done].
  intros Hl. by apply (wf_consistent M l).
Qed.

(** [set] reads the level of the entry of a literal. *)
Lemma set_spec M l :
  (exists e, e ∈ elems M /\ Lit e = l /\ Lvl e = set M l) \/
  ((l ∉ trailLits M) /\ set M l = 0%nat).
Proof.
  unfold set. destruct (find _ _) as [e|] eqn:Hf.
  - left. apply find_first in Hf as (b & a & Heq & He & _).
    apply bool_decide_eq_true in He. exists e. rewrite Heq. set_solver.
  - right. split; [|done]. rewrite find_none in Hf.
    intros (e & He & Hl)%elem_of_trailLits. specialize (Hf e He).
    by apply bool_decide_eq_false in Hf.
Qed.

Lemma set_pos_in M l : (0 < set M l)%nat ->
  exists e, e ∈ elems M /\ Lit e = l /\ Lvl e = set M l.
Proof. destruct (set_spec M l) as [?|[_ ?]]; [done|lia]. Qed.

Lemma set_elem M e : NoDup (trailVars M) -> e ∈ elems M -> set M (Lit e) = Lvl e.
Proof.
  intros Hnd He. destruct (set_spec M (Lit e)) as [(e' & He' & Hl & <-)|[Hn _]].
  - apply list_elem_of_lookup in He as (i & Hi), He' as (j & Hj).
    assert (j = i) by (eapply NoDup_trailVars_lookup; eauto; by rewrite Hl).
    subst j. congruence.
  - exfalso. apply Hn, elem_of_trailLits. eauto.
Qed.

(** Falsified clauses and the conflict clause. *)
Lemma IsClauseFalse_true M cl :
  IsClauseFalse M cl = true <-> forall l, l ∈ cl -> value M l = TriFalse.
Proof.
  unfold IsClauseFalse. rewrite forallb_forall. setoid_rewrite bool_decide_eq_true.
  by setoid_rewrite list_elem_of_In.
Qed.

Lemma IsClauseFalse_false M cl :
  IsClauseFalse M cl = false <-> exists l, l ∈ cl /\ value M l ≠ TriFalse.
Proof.
  unfold IsClauseFalse. induction cl as [|a cl IH]; simpl.
  - split; [done|]. intros (l & Hl & _). by apply elem_of_nil in Hl.
  - rewrite andb_false_iff, IH, bool_decide_eq_false. split.
    + intros [Ha|(l & Hl & Hv)]; [exists a|exists l]; split; auto; set_solver.
    + intros (l & [->|Hl]%elem_of_cons & Hv); [by left|right; eauto].
Qed.

Lemma IsFormulaFalse_spec M fm :
  Forall (fun cl => cl ≠ []) fm ->
  (IsZero (IsFormulaFalse M fm) = true /\ forall cl, cl ∈ fm -> IsClauseFalse M cl = false) \/
  (IsZero (IsFormulaFalse M fm) = false /\ IsFormulaFalse M fm ∈ fm /\
   IsClauseFalse M (IsFormulaFalse M fm) = true).
Proof.
  intros Hne. unfold IsFormulaFalse. destruct (find _ _) as [cl|] eqn:Hf.
  - right. apply find_first in Hf as (b & a & Heq & Hcl & _).
    assert (Hin : cl ∈ fm) by (rewrite Heq; set_solver).
    split; [|done]. rewrite Forall_forall in Hne. specialize (Hne cl Hin).
    by destruct cl.
  - left. split; [done|]. by apply find_none.
Qed.

(** Unit clauses. *)
Lemma IsUnit_true M cl l :
  IsUnit M cl l = true <->
  value M l = Undef /\ forall l', l' ∈ cl -> l' ≠ l -> value M l' = TriFalse.
Proof.
  unfold IsUnit. rewrite andb_true_iff, bool_decide_eq_true, forallb_forall.
  apply and_iff_compat_l. split.
  - intros H l' Hl' Hne. apply list_elem_of_In, H in Hl'.
    apply orb_true_iff in Hl' as [Heq|Hv]; apply bool_decide_eq_true in Heq || apply bool_decide_eq_true in Hv; done.
  - intros H l' Hl'. apply list_elem_of_In in Hl'. apply orb_true_iff.
    destruct (decide (l' = l)) as [->|Hne].
    + left. by apply bool_decide_eq_true.
    + right. apply bool_decide_eq_true. auto.
Qed.

Lemma findUnit_Some M fm cl l :
  findUnit M fm = Some (cl, l) -> cl ∈ fm /\ l ∈ cl /\ IsUnit M cl l = true.
Proof.
  induction fm as [|c0 fm IH]; simpl; [done|].
  destruct (findUnitLit M c0) as [l0|] eqn:Hf.
  - intros [= -> ->]. unfold findUnitLit in Hf.
    apply find_first in Hf as (b & a & Heq & Hu & _).
    split; [set_solver|]. split; [rewrite Heq; set_solver|done].
  - intros H. apply IH in H as (? & ? & ?). split; [set_solver|done].
Qed.

Lemma findUnit_None M fm :
  findUnit M fm = None <-> forall cl l, cl ∈ fm -> l ∈ cl -> IsUnit M cl l = false.
Proof.
  induction fm as [|c0 fm IH]; simpl.
  - split; [|done]. intros _ cl l Hcl. by apply elem_of_nil in Hcl.
  - destruct (findUnitLit M c0) as [l0|] eqn:Hf.
    + split; [done|]. intros H. unfold findUnitLit in Hf.
      apply find_first in Hf as (b & a & Heq & Hu & _).
      rewrite H in Hu; [done|set_solver|rewrite Heq; set_solver].
    + rewrite IH. unfold findUnitLit in Hf. rewrite find_none in Hf. split.
      * intros H cl l [->|Hcl]%elem_of_cons Hl; auto.
      * intros H cl l Hcl Hl. apply H; [by right|done].
Qed.

(** Assertion. *)
Lemma Assert_Ret l d M M' :
  Assert l d M = Ret M' <->
  value M l = Undef /\
  M' = {| elems := elems M ++ [mkElem l (if d then S (decisionsLen M) else decisionsLen M)];
          decisionsLen := if d then S (decisionsLen M) else decisionsLen M |}.
Proof.
  unfold Assert. case_bool_decide; split.
  - intros [= <-]. done.
  - intros [_ ->]. done.
  - done.
  - intros [? _]. done.
Qed.

Lemma levelsMonotone_snoc es e :
  levelsMonotone es -> Forall (fun a => (Lvl a <= Lvl e)%nat) es ->
  levelsMonotone (es ++ [e]).
Proof.
  intros Hm Hall i j a b Ha Hb Hij.
  destruct (decide (j < length es)%nat) as [Hj|Hj].
  - rewrite lookup_app_l in Ha, Hb by lia. eauto.
  - assert (b = e) as ->.
    { apply lookup_lt_Some in Hb as Hlt. rewrite length_app in Hlt. simpl in Hlt.
      rewrite lookup_app_r in Hb by lia.
      replace (j - length es)%nat with 0%nat in Hb by lia. by injection Hb. }
    destruct (decide (i < length es)%nat) as [Hi|Hi].
    + rewrite lookup_app_l in Ha by lia. rewrite Forall_forall in Hall.
      apply Hall. by eapply list_elem_of_lookup_2.
    + apply lookup_lt_Some in Ha as Hlt. rewrite length_app in Hlt. simpl in Hlt.
      rewrite lookup_app_r in Ha by lia.
      replace (i - length es)%nat with 0%nat in Ha by lia. injection Ha as <-. lia.
Qed.

Lemma trailVars_snoc M e d :
  trailVars {| elems := elems M ++ [e]; decisionsLen := d |} = trailVars M ++ [litVar (Lit e)].
Proof. unfold trailVars. simpl. by rewrite fmap_app. Qed.

Lemma Assert_wf l d M M' :
  trail_wf M -> l ≠ 0 -> Assert l d M = Ret M' -> trail_wf M'.
Proof.
  intros Hwf Hnz [Hu ->]%Assert_Ret. apply value_undef in Hu.
  set (lv := if d then S (decisionsLen M) else decisionsLen M).
  assert (Hlv : (decisionsLen M <= lv)%nat) by (subst lv; destruct d; lia).
  pose proof (wf_bound _ Hwf) as Hb.
  split.
  - rewrite trailVars_snoc. apply NoDup_app. split; [by apply wf_nodup|].
    split; [|apply NoDup_singleton].
    intros v Hv ->%list_elem_of_singleton. done.
  - simpl. apply Forall_app. split; [by apply wf_nonzero|]. by repeat constructor.
  - simpl. apply levelsMonotone_snoc; [by apply wf_mono|].
    simpl. eapply Forall_impl; [exact Hb|]. simpl. intros. lia.
  - simpl. apply Forall_app. split.
    + eapply Forall_impl; [exact Hb|]. simpl. intros. lia.
    + repeat constructor.
  - simpl. intros j Hj. destruct (decide (j <= decisionsLen M)%nat) as [Hle|Hgt].
    + destruct (wf_levels _ Hwf j) as (e & He & Hl); [lia|].
      exists e. split; [|done]. set_solver.
    + exists (mkElem l lv). split; [set_solver|]. simpl. subst lv. destruct d; lia.
Qed.

(** ** Trimming *)

Lemma filter_all {A} (P : A -> Prop) `{!forall x, Decision (P x)} (l : list A) :
  Forall P l -> filter P l = l.
Proof.
  induction 1 as [|x l Hx Hl IH]; [done|]. by rewrite filter_cons_True, IH.
Qed.

Lemma filter_none {A} (P : A -> Prop) `{!forall x, Decision (P x)} (l : list A) :
  Forall (fun x => ~ P x) l -> filter P l = [].
Proof.
  induction 1 as [|x l Hx Hl IH]; [done|]. by rewrite filter_cons_False.
Qed.

Lemma levelsMonotone_cons a es :
  levelsMonotone (a :: es) ->
  levelsMonotone es /\ Forall (fun b => (Lvl a <= Lvl b)%nat) es.
Proof.
  intros Hm. split.
  - intros i j x y Hx Hy Hij. apply (Hm (S i) (S j) x y); auto. lia.
  - apply Forall_forall. intros b (i & Hi)%list_elem_of_lookup.
    apply (Hm 0%nat (S i) a b); auto. lia.
Qed.

Lemma filter_level_prefix es j :
  levelsMonotone es ->
  exists k, filter (fun e => (Lvl e <= j)%nat) es = take k es.
Proof.
  induction es as [|a es IH]; intros Hm.
  - by exists 0%nat.
  - apply levelsMonotone_cons in Hm as [Hm Ha].
    rewrite filter_cons. case_decide as Hle.
    + destruct (IH Hm) as (k & ->). by exists (S k).
    + exists 0%nat. apply filter_none.
      eapply Forall_impl; [exact Ha|]. simpl. intros. lia.
Qed.

Lemma Trim_elems M j :
  Forall (fun e => (Lvl e <= decisionsLen M)%nat) (elems M) ->
  elems (TrimToLevel j M) = filter (fun e => (Lvl e <= j)%nat) (elems M).
Proof.
  intros Hb. unfold TrimToLevel. case_bool_decide as Hle; [|done].
  symmetry. apply filter_all. eapply Forall_impl; [exact Hb|]. simpl. intros. lia.
Qed.

Lemma Trim_decisionsLen M j :
  decisionsLen (TrimToLevel j M) = (decisionsLen M `min` j)%nat.
Proof. unfold TrimToLevel. case_bool_decide; simpl; lia. Qed.

Lemma Trim_lookup M j i e :
  trail_wf M ->
  elems (TrimToLevel j M) !! i = Some e <->
  elems M !! i = Some e /\ (Lvl e <= j)%nat.
Proof.
  intros Hwf. rewrite Trim_elems by (by apply wf_bound).
  destruct (filter_level_prefix (elems M) j (wf_mono _ Hwf)) as (k & Hk).
  split.
  - intros Hi. assert (He : e ∈ filter (fun e => (Lvl e <= j)%nat) (elems M))
      by (by eapply list_elem_of_lookup_2).
    apply list_elem_of_filter in He as [Hle _]. split; [|done].
    rewrite Hk in Hi. apply lookup_take_Some in Hi. tauto.
  - intros [Hi Hle]. rewrite Hk.
    destruct (decide (i < k)%nat) as [Hlt|Hge].
    + by rewrite lookup_take_lt.
    + exfalso.
      assert (He : e ∈ take k (elems M)).
      { rewrite <- Hk. apply list_elem_of_filter. split; [done|].
        by eapply list_elem_of_lookup_2. }
      apply list_elem_of_lookup in He as (i' & Hi').
      apply lookup_take_Some in Hi' as [Hi' Hlt].
      assert (i' = i); [|lia].
      eapply NoDup_trailVars_lookup; eauto using wf_nodup.
Qed.

Lemma Trim_elem_of M j e :
  trail_wf M -> e ∈ elems (TrimToLevel j M) <-> e ∈ elems M /\ (Lvl e <= j)%nat.
Proof.
  intros Hwf. rewrite Trim_elems by (by apply wf_bound).
  rewrite list_elem_of_filter. tauto.
Qed.

Lemma Trim_wf M j : trail_wf M -> trail_wf (TrimToLevel j M).
Proof.
  intros Hwf. split.
  - unfold trailVars. rewrite Trim_elems by (by apply wf_bound).
    destruct (filter_level_prefix (elems M) j (wf_mono _ Hwf)) as (k & ->).
    rewrite fmap_take. eapply sublist_NoDup; [|apply sublist_take].
    by apply wf_nodup.
  - apply Forall_forall. intros e [He _]%Trim_elem_of; [|done].
    by eapply wf_lit_nonzero.
  - intros i i' a b [Ha _]%Trim_lookup [Hb _]%Trim_lookup Hii'; try done.
    eapply (wf_mono _ Hwf); eauto.
  - apply Forall_forall. intros e [He Hle]%Trim_elem_of; [|done].
    rewrite Trim_decisionsLen.
    pose proof (proj1 (Forall_forall _ _) (wf_bound _ Hwf) e He). simpl in *. lia.
  - intros i Hi. rewrite Trim_decisionsLen in Hi.
    destruct (wf_levels _ Hwf i) as (e & He & Hl); [lia|].
    exists e. split; [|done]. apply Trim_elem_of; [done|]. split; [done|lia].
Qed.

Lemma Trim_trailLits M j l :
  trail_wf M ->
  l ∈ trailLits (TrimToLevel j M) <-> l ∈ trailLits M /\ (set M l <= j)%nat.
Proof.
  intros Hwf. rewrite !elem_of_trailLits. split.
  - intros (e & [He Hle]%Trim_elem_of & <-); [|done]. split; [eauto|].
    rewrite set_elem; eauto using wf_nodup.
  - intros [(e & He & <-) Hle]. exists e. split; [|done].
    apply Trim_elem_of; [done|]. split; [done|].
    rewrite set_elem in Hle; eauto using wf_nodup.
Qed.

(** Trimming below an assertion made at a higher level forgets it. *)
Lemma Trim_snoc_above M e j d :
  trail_wf M -> (j < Lvl e)%nat -> (j < d)%nat -> (j < decisionsLen M)%nat ->
  TrimToLevel j {| elems := elems M ++ [e]; decisionsLen := d |} = TrimToLevel j M.
Proof.
  intros Hwf Hj Hd HdM. unfold TrimToLevel. simpl.
  rewrite !bool_decide_eq_false_2 by lia.
  f_equal. rewrite filter_app, filter_cons_False, filter_nil, app_nil_r by lia. done.
Qed.

(** ** Unit propagation *)

Lemma Inv_len_le s : Inv s -> (Len (m s) <= size (vars s))%nat.
Proof.
  intros HI. unfold Len.
  replace (length (elems (m s))) with (length (trailVars (m s)))
    by (unfold trailVars; apply length_fmap).
  rewrite <- (size_list_to_set (C := gset Z)) by (apply wf_nodup, HI).
  apply subseteq_size. intros v Hv%elem_of_list_to_set. by apply inv_trail_vars.
Qed.

Lemma formulaOK_lit fm V cl l : formulaOK fm V -> cl ∈ fm -> l ∈ cl -> l ≠ 0 /\ litVar l ∈ V.
Proof.
  intros Hf Hcl Hl. unfold formulaOK in Hf. rewrite Forall_forall in Hf.
  destruct (Hf cl Hcl) as [_ Hall]. rewrite Forall_forall in Hall. by apply Hall.
Qed.

Lemma formulaOK_nonempty fm V : formulaOK fm V -> Forall (fun cl => cl ≠ []) fm.
Proof. intros Hf. eapply Forall_impl; [exact Hf|]. simpl. tauto. Qed.

Lemma falsifiedBefore_snoc es e i l :
  falsifiedBefore es i l -> falsifiedBefore (es ++ [e]) i l.
Proof.
  intros (j & a & Hj & Ha & Hl). exists j, a. repeat split; auto.
  apply lookup_app_l_Some. done.
Qed.

Lemma lookup_snoc_Some {A} (l : list A) x i y :
  (l ++ [x]) !! i = Some y <-> l !! i = Some y \/ (i = length l /\ y = x).
Proof.
  rewrite lookup_app_Some. split.
  - intros [?|[Hge Hi]]; [by left|right].
    destruct (i - length l)%nat as [|n] eqn:Hn; simpl in Hi; [|by destruct n].
    injection Hi as <-. split; [lia|done].
  - intros [?|[-> ->]]; [by left|right]. split; [lia|].
    by replace (length l - length l)%nat with 0%nat by lia.
Qed.

(** The effect of asserting a propagated literal with its reason. *)
Lemma reasonsValid_snoc R M e cl d :
  trail_wf M -> reasonsValid R M -> value M (Lit e) = Undef ->
  (forall l', l' ∈ cl -> l' ≠ Lit e -> value M l' = TriFalse) ->
  reasonsValid (<[Lit e := cl]> R) {| elems := elems M ++ [e]; decisionsLen := d |}.
Proof.
  intros Hwf HR Hu Hcl i j a b Hij Ha Hb Hlvl. cbn [elems] in *.
  apply lookup_snoc_Some in Hb as [Hb|[-> ->]].
  - assert (Hi : elems M !! i = Some a).
    { apply lookup_snoc_Some in Ha as [?|[-> _]]; [done|].
      apply lookup_lt_Some in Hb. lia. }
    assert (Hne : Lit b ≠ Lit e).
    { intros Heq. apply value_undef in Hu. apply Hu, elem_of_trailVars.
      exists b. split; [by eapply list_elem_of_lookup_2|by rewrite Heq]. }
    intros l' Hl' Hne'. rewrite lookup_insert_ne in Hl' by done.
    apply falsifiedBefore_snoc. by apply (HR i j a b).
  - intros l' Hl' Hne'. rewrite lookup_insert_eq in Hl'. cbn in Hl'.
    specialize (Hcl l' Hl' Hne'). apply value_false in Hcl as [_ Hin].
    apply elem_of_trailLits in Hin as (e' & He & Hle).
    apply list_elem_of_lookup in He as (k & Hk).
    exists k, e'. split; [by apply lookup_lt_Some in Hk|]. split; [|done].
    by apply lookup_app_l_Some.
Qed.

Lemma noFalseBelow_snoc fm M e d :
  trail_wf M -> noFalseBelow fm M -> (decisionsLen M <= Lvl e)%nat -> d = decisionsLen M ->
  noFalseBelow fm {| elems := elems M ++ [e]; decisionsLen := d |}.
Proof.
  intros Hwf Hn Hlv -> j cl Hj Hcl. cbn [decisionsLen] in Hj.
  rewrite Trim_snoc_above by (done || lia). by apply Hn.
Qed.

Lemma unitPropagate_unfold fuel s :
  unitPropagate (S fuel) s =
  match findUnit (m s) (f s) with
  | None => Ret s
  | Some (cl, l) =>
      s1 ← propagateStep cl l s;
      if negb (IsZero (IsFormulaFalse (m s1) (f s1))) then Ret s1
      else unitPropagate fuel s1
  end.
Proof.
  cbn [unitPropagate]. destruct (findUnit (m s) (f s)) as [[cl l]|]; [|done].
  unfold propagateStep. by destruct (assertLiteral l false s).
Qed.

Lemma propagateStep_Ret cl l s :
  IsUnit (m s) cl l = true ->
  propagateStep cl l s =
    Ret (withTrail {| elems := elems (m s) ++ [mkElem l (decisionsLen (m s))];
                      decisionsLen := decisionsLen (m s) |}
                   (<[l := cl]> (reasonMap s)) s).
Proof.
  intros [Hu _]%IsUnit_true. unfold propagateStep, assertLiteral, Assert.
  rewrite bool_decide_eq_true_2 by done. reflexivity.
Qed.

Lemma propagateStep_Inv cl l s :
  Inv s -> cl ∈ f s -> l ∈ cl -> IsUnit (m s) cl l = true ->
  Inv (withTrail {| elems := elems (m s) ++ [mkElem l (decisionsLen (m s))];
                    decisionsLen := decisionsLen (m s) |}
                 (<[l := cl]> (reasonMap s)) s).
Proof.
  intros HI Hcl Hl [Hu Hfalse]%IsUnit_true.
  destruct (formulaOK_lit _ _ _ _ (inv_formula _ HI) Hcl Hl) as [Hnz Hv].
  split; fields.
  - eapply (Assert_wf l false); [apply HI|done|]. apply Assert_Ret. by split.
  - apply (reasonsValid_snoc _ _ (mkElem l (decisionsLen (m s)))); auto; apply HI.
  - apply noFalseBelow_snoc; auto; apply HI.
  - apply HI.
  - intros v. rewrite trailVars_snoc. intros [Hin| ->%list_elem_of_singleton]%elem_of_app.
    + by apply inv_trail_vars.
    + done.
  - apply HI.
  - apply HI.
Qed.

(** Propagation returns, within as many rounds as there are unassigned
    variables, and keeps the invariant. *)
Lemma unitPropagate_total fuel s :
  Inv s -> (size (vars s) - Len (m s) < fuel)%nat ->
  exists s', unitPropagate fuel s = Ret s' /\ Inv s' /\
    (exists M R, s' = withTrail M R s) /\
    decisionsLen (m s') = decisionsLen (m s) /\
    exists new, elems (m s') = elems (m s) ++ new /\
      Forall (fun e => Lvl e = decisionsLen (m s)) new.
Proof.
  revert s. induction fuel as [|fuel IH]; intros s HI Hfuel; [lia|].
  rewrite unitPropagate_unfold.
  destruct (findUnit (m s) (f s)) as [[cl l]|] eqn:Hfind.
  - apply findUnit_Some in Hfind as (Hcl & Hl & Hunit).
    rewrite (propagateStep_Ret _ _ _ Hunit). cbn [mbind Res_bind bindRes].
    pose proof (propagateStep_Inv _ _ _ HI Hcl Hl Hunit) as HI1.
    set (s1 := withTrail _ _ s) in *.
    destruct (negb _).
    + exists s1. split; [done|]. split; [done|]. split; [by eexists _, _|].
      split; [done|]. eexists [_]. split; [reflexivity|]. by repeat constructor.
    + pose proof (Inv_len_le _ HI1) as Hle1.
      destruct (IH s1 HI1) as (s' & Hrun & HI' & (M & R & Hshape) & Hdl & new & Hnew & Hlv).
      { subst s1. unfold Len in *. fields. rewrite length_app in *. simpl in *. lia. }
      exists s'. split; [done|]. split; [done|]. split.
      { rewrite Hshape. subst s1. destruct s. eexists _, _. shape. }
      split; [by rewrite Hdl|].
      exists (mkElem l (decisionsLen (m s)) :: new). split.
      * rewrite Hnew. subst s1. fields. by rewrite <- app_assoc.
      * constructor; [done|]. exact Hlv.
  - exists s. split; [done|]. split; [done|]. split.
    { exists (m s), (reasonMap s). by destruct s. }
    split; [done|]. exists []. by rewrite app_nil_r.
Qed.

(** ** Conflict analysis *)

Lemma addConflictLiteral_frame l s :
  m (addConflictLiteral l s) = m s /\ reasonMap (addConflictLiteral l s) = reasonMap s.
Proof. destruct (addConflictLiteral_shape l s) as (H & P & N & ->). done. Qed.

Lemma addConflictLiteral_cH l s :
  cH (addConflictLiteral l s) =
    if bool_decide (0 < Level (m s) (Negate l))%nat then {[l]} ∪ cH s else cH s.
Proof.
  unfold addConflictLiteral. repeat case_bool_decide; fields; try done; set_solver.
Qed.

Lemma addConflictLiteral_core l s : ACore s -> ACore (addConflictLiteral l s).
Proof.
  intros [Hlv HP HN]. unfold addConflictLiteral.
  case_bool_decide as Hin; [by split|].
  case_bool_decide as Hpos; [|by split].
  assert (HnP : l ∉ cP s) by (intros ?%HP; tauto).
  case_bool_decide as Hcur; split; fields.
  - intros l' [->%elem_of_singleton|?]%elem_of_union; auto.
  - intros l'. rewrite HP, elem_of_union, elem_of_singleton. split; [tauto|].
    intros [[->|?] ?]; [done|tauto].
  - rewrite HN. replace (({[l]} ∪ cH s) ∖ cP s) with ({[l]} ∪ (cH s ∖ cP s)) by set_solver.
    rewrite (size_union {[l]} (cH s ∖ cP s)) by set_solver. rewrite size_singleton. lia.
  - intros l' [->%elem_of_singleton|?]%elem_of_union; auto.
  - intros l'. rewrite !elem_of_union, elem_of_singleton, HP. split.
    + intros [->|[? ?]]; split; auto.
    + intros [[->|?] ?]; auto.
  - rewrite HN. f_equal. f_equal. set_solver.
Qed.

Lemma foldl_add_core (g : Z -> bool) cl s :
  ACore s -> ACore (foldl (fun s l => if g l then addConflictLiteral l s else s) s cl).
Proof.
  revert s. induction cl as [|l cl IH]; intros s Hs; [done|]. cbn [foldl].
  apply IH. destruct (g l); [by apply addConflictLiteral_core|done].
Qed.

Lemma foldl_add_frame (g : Z -> bool) cl s :
  let s' := foldl (fun s l => if g l then addConflictLiteral l s else s) s cl in
  m s' = m s /\ reasonMap s' = reasonMap s.
Proof. cbv zeta. destruct (foldl_addConflict_shape g cl s) as (H & P & N & ->). done. Qed.

Lemma foldl_add_cH (g : Z -> bool) cl s l :
  l ∈ cH (foldl (fun s l => if g l then addConflictLiteral l s else s) s cl) <->
  l ∈ cH s \/ (l ∈ cl /\ g l = true /\ (0 < Level (m s) (Negate l))%nat).
Proof.
  revert s. induction cl as [|a cl IH]; intros s; cbn [foldl].
  - split; [by left|]. intros [?|[?%elem_of_nil _]]; done.
  - rewrite IH. destruct (g a) eqn:Hga.
    + destruct (addConflictLiteral_frame a s) as [-> _].
      rewrite addConflictLiteral_cH. case_bool_decide.
      * rewrite elem_of_union, elem_of_singleton, elem_of_cons. split.
        -- intros [[->|?]|(? & ? & ?)]; auto 6.
        -- intros [?|([->|?] & ? & ?)]; auto 6.
      * rewrite elem_of_cons. split.
        -- intros [?|(? & ? & ?)]; auto 6.
        -- intros [?|([->|?] & ? & ?)]; auto 6. done.
    + rewrite elem_of_cons. split.
      * intros [?|(? & ? & ?)]; auto 6.
      * intros [?|([->|?] & ? & ?)]; auto 6. congruence.
Qed.

Lemma removeConflictLiteral_core l s :
  ACore s -> l ∈ cH s -> ACore (removeConflictLiteral l s).
Proof.
  intros [Hlv HP HN] Hin. unfold removeConflictLiteral. fields.
  case_bool_decide as Hcur; split; fields.
  - intros l' [Hl' _]%elem_of_difference. auto.
  - intros l'. rewrite HP, elem_of_difference, elem_of_singleton. split; [|tauto].
    intros [? ?]. split; [|done]. split; [done|]. intros ->. done.
  - assert (HnP : l ∉ cP s) by (intros ?%HP; tauto).
    replace ((cH s ∖ {[l]}) ∖ cP s) with ((cH s ∖ cP s) ∖ {[l]}) by set_solver.
    rewrite HN, (size_difference (cH s ∖ cP s) {[l]}) by set_solver. rewrite size_singleton.
    assert (size (cH s ∖ cP s) ≠ 0%nat); [|lia].
    apply size_non_empty_iff. set_solver.
  - intros l' [Hl' _]%elem_of_difference. auto.
  - intros l'. rewrite !elem_of_difference, HP. tauto.
  - rewrite HN. f_equal. f_equal.
    assert (l ∈ cP s) by (apply HP; tauto). apply set_eq. intros x.
    rewrite !elem_of_difference, elem_of_singleton. split; [|tauto].
    intros [? ?]. split; [split; [done|]|tauto]. intros ->. done.
Qed.

Lemma removeConflictLiteral_frame l s :
  m (removeConflictLiteral l s) = m s /\
  reasonMap (removeConflictLiteral l s) = reasonMap s /\
  cH (removeConflictLiteral l s) = cH s ∖ {[l]}.
Proof. unfold removeConflictLiteral. by case_bool_decide. Qed.

(** The backward scan finds the last asserted literal whose negation is in
    [H], when there is one. *)
Lemma scanBack_last es H L0 :
  (exists e, e ∈ es /\ Negate (Lit e) ∈ H) ->
  lastAsserted es H (scanBack H L0 (reverse es)).
Proof.
  revert L0. induction es as [|x es IH] using rev_ind; intros L0 (e & He & HeH).
  - by apply elem_of_nil in He.
  - rewrite reverse_snoc. cbn [scanBack]. case_bool_decide as Hx.
    + exists (length es), x. split; [by apply list_lookup_middle|].
      split; [done|]. split; [done|].
      intros j e' Hj He'. apply lookup_lt_Some in He'. rewrite length_app in He'.
      simpl in He'. lia.
    + assert (Hes : exists e, e ∈ es /\ Negate (Lit e) ∈ H).
      { apply elem_of_app in He as [Hin| ->%list_elem_of_singleton]; [eauto|done]. }
      destruct (IH (Lit x) Hes) as (i & a & Hi & Ha & HaH & Hlater).
      exists i, a. split; [by apply lookup_app_l_Some|]. split; [done|]. split; [done|].
      intros j e' Hj [He'|[-> ->]]%lookup_snoc_Some; [eauto|done].
Qed.

Lemma findLastAsserted_AInv s : ACore s -> AInv (findLastAsserted s).
Proof.
  intros Hc. split; [by destruct Hc|]. unfold findLastAsserted. fields.
  intros Hne. apply scanBack_last.
  apply set_choose_L in Hne as (l & Hl).
  destruct (set_pos_in _ _ (a_levels _ Hc l Hl)) as (e & He & Hle & _).
  exists e. split; [done|]. rewrite Hle. by rewrite Negate_involutive.
Qed.

Lemma applyConflict_AInv cl s : AInv (applyConflict cl s).
Proof.
  unfold applyConflict. apply findLastAsserted_AInv.
  apply (foldl_add_core (fun _ => true)). split; fields.
  - intros l Hl. by apply not_elem_of_empty in Hl.
  - intros l. split; [intros Hl; by apply not_elem_of_empty in Hl|].
    intros [Hl _]. by apply not_elem_of_empty in Hl.
  - replace (∅ ∖ ∅ : gset Z) with (∅ : gset Z) by set_solver. by rewrite size_empty.
Qed.

Lemma applyExplain_AInv s :
  AInv s -> cH s ≠ ∅ -> AInv (applyExplain (cL s) s).
Proof.
  intros [Hc Hlast] Hne. destruct (Hlast Hne) as (i & e & _ & _ & HLH & _).
  unfold applyExplain. apply findLastAsserted_AInv.
  apply foldl_add_core. by apply removeConflictLiteral_core.
Qed.

(** ** The explain loop reaches the first UIP *)

Lemma size_difference_singleton_ge (X : gset Z) a :
  (size X <= S (size (X ∖ {[a]})))%nat.
Proof.
  assert (Hsub : X ⊆ {[a]} ∪ (X ∖ {[a]})).
  { intros x Hx. destruct (decide (x = a)) as [->|Hne]; set_solver. }
  apply subseteq_size in Hsub.
  rewrite (size_union {[a]} (X ∖ {[a]})) in Hsub by set_solver.
  rewrite size_singleton in Hsub. lia.
Qed.

Lemma size_ge_2_elems (X : gset Z) :
  (2 <= size X)%nat -> exists a b, a ∈ X /\ b ∈ X /\ a ≠ b.
Proof.
  intros Hs. assert (HX : X ≠ ∅) by (intros ->; rewrite size_empty in Hs; lia).
  apply set_choose_L in HX as (a & Ha).
  assert (HX' : X ∖ {[a]} ≠ ∅).
  { intros Heq. pose proof (size_difference_singleton_ge X a) as Hle.
    rewrite Heq, size_empty in Hle. lia. }
  apply set_choose_L in HX' as (b & Hb). exists a, b. set_solver.
Qed.

Section Analysis.
Variable s : Solver.
Hypothesis Hwf : trail_wf (m s).
Hypothesis HA : AInv s.

(** Every literal of [H] is falsified by an entry at or before [L]. *)
Lemma H_member_entry i h :
  lastAssertedAt (elems (m s)) (cH s) (cL s) i -> h ∈ cH s ->
  exists p e, (p <= i)%nat /\ elems (m s) !! p = Some e /\ Lit e = Negate h /\
    Lvl e = Level (m s) (Negate h) /\ (0 < Lvl e)%nat.
Proof.
  intros (eL & HeL & HL & HLH & Hlater) Hh.
  pose proof (a_levels _ (a_core _ HA) h Hh) as Hpos.
  destruct (set_pos_in _ _ Hpos) as (e & He & Hle & Hlv).
  apply list_elem_of_lookup in He as (p & Hp).
  exists p, e. split; [|unfold Level; rewrite Hlv; auto].
  destruct (decide (p <= i)%nat) as [|Hgt]; [done|]. exfalso.
  apply (Hlater p e); [lia|done|]. rewrite Hle. by rewrite Negate_involutive.
Qed.

Lemma current_member :
  1 <= cN s -> exists h, h ∈ cH s /\ (h ∉ cP s) /\
    Level (m s) (Negate h) = decisionsLen (m s).
Proof.
  intros HN. rewrite (a_N _ (a_core _ HA)) in HN.
  assert (Hne : cH s ∖ cP s ≠ ∅) by (intros Heq; rewrite Heq, size_empty in HN; lia).
  apply set_choose_L in Hne as (h & [Hh HnP]%elem_of_difference).
  exists h. split; [done|]. split; [done|].
  destruct (decide (Level (m s) (Negate h) = decisionsLen (m s))) as [|Hne]; [done|].
  exfalso. apply HnP, (a_P _ (a_core _ HA)). by split.
Qed.

(** [L] was asserted at the current level. *)
Lemma last_level_current i e :
  1 <= cN s -> lastAssertedAt (elems (m s)) (cH s) (cL s) i ->
  elems (m s) !! i = Some e -> Lvl e = decisionsLen (m s).
Proof.
  intros HN Hlast Hi. destruct (current_member HN) as (h & Hh & _ & Hlv).
  destruct (H_member_entry i h Hlast Hh) as (p & a & Hpi & Hp & _ & Hla & _).
  pose proof (wf_mono _ Hwf p i a e Hp Hi Hpi) as Hmono.
  pose proof (proj1 (Forall_forall _ _) (wf_bound _ Hwf) e
                (list_elem_of_lookup_2 _ _ _ Hi)) as Hb. simpl in Hb.
  rewrite Hla, Hlv in Hmono. lia.
Qed.

Lemma last_level_set i :
  1 <= cN s -> lastAssertedAt (elems (m s)) (cH s) (cL s) i ->
  set (m s) (cL s) = decisionsLen (m s).
Proof.
  intros HN Hlast. destruct Hlast as (e & Hi & HL & Hrest).
  rewrite <- HL. rewrite set_elem; [|by apply wf_nodup|by eapply list_elem_of_lookup_2].
  eapply last_level_current; eauto. by exists e.
Qed.

(** With two literals of the current level in [H], [L] is not the decision
    of its level: an earlier entry has the same level. *)
Lemma last_not_decision i e :
  2 <= cN s -> lastAssertedAt (elems (m s)) (cH s) (cL s) i ->
  elems (m s) !! i = Some e ->
  exists p a, (p < i)%nat /\ elems (m s) !! p = Some a /\ Lvl a = Lvl e.
Proof.
  intros HN Hlast Hi.
  assert (Hcur : Lvl e = decisionsLen (m s)) by (eapply last_level_current; eauto; lia).
  rewrite (a_N _ (a_core _ HA)) in HN.
  destruct (size_ge_2_elems (cH s ∖ cP s)) as (h1 & h2 & [Hh1 Hn1]%elem_of_difference
    & [Hh2 Hn2]%elem_of_difference & Hne); [lia|].
  assert (Hlv : forall h, h ∈ cH s -> h ∉ cP s ->
            Level (m s) (Negate h) = decisionsLen (m s)).
  { intros h Hh HnP.
    destruct (decide (Level (m s) (Negate h) = decisionsLen (m s))) as [|Hne']; [done|].
    exfalso. apply HnP, (a_P _ (a_core _ HA)). by split. }
  destruct (H_member_entry i h1 Hlast Hh1) as (p1 & a1 & Hp1i & Hp1 & Hl1 & Hla1 & _).
  destruct (H_member_entry i h2 Hlast Hh2) as (p2 & a2 & Hp2i & Hp2 & Hl2 & Hla2 & _).
  assert (p1 ≠ p2).
  { intros ->. rewrite Hp1 in Hp2. injection Hp2 as ->.
    rewrite Hl1 in Hl2. by apply Negate_inj in Hl2. }
  destruct (decide (p1 < i)%nat).
  - exists p1, a1. split; [done|]. split; [done|]. rewrite Hla1, Hlv, Hcur; auto.
  - exists p2, a2. split; [lia|]. split; [done|]. rewrite Hla2, Hlv, Hcur; auto.
Qed.

End Analysis.

(** One round of the explain loop. *)
Lemma applyExplain_frame lit s :
  m (applyExplain lit s) = m s /\ reasonMap (applyExplain lit s) = reasonMap s.
Proof. destruct (applyExplain_shape lit s) as (H & P & N & L & ->). done. Qed.

Lemma applyExplain_cH s x :
  x ∈ cH (applyExplain (cL s) s) <->
  (x ∈ cH s /\ x ≠ Negate (cL s)) \/
  (x ∈ default [] (reasonMap s !! cL s) /\ x ≠ cL s /\ (0 < Level (m s) (Negate x))%nat).
Proof.
  unfold applyExplain, findLastAsserted. fields.
  destruct (removeConflictLiteral_frame (Negate (cL s)) s) as (Hm & HR & HH).
  rewrite HR, foldl_add_cH, Hm, HH, elem_of_difference, elem_of_singleton.
  rewrite bool_decide_eq_true. tauto.
Qed.

Lemma explain_step s i :
  trail_wf (m s) -> reasonsValid (reasonMap s) (m s) -> AInv s -> 2 <= cN s ->
  lastAssertedAt (elems (m s)) (cH s) (cL s) i ->
  let s' := applyExplain (cL s) s in
  AInv s' /\ 1 <= cN s' /\
  exists i', (i' < i)%nat /\ lastAssertedAt (elems (m s')) (cH s') (cL s') i'.
Proof.
  intros Hwf HR HA HN Hlast s'.
  assert (HneH : cH s ≠ ∅).
  { destruct Hlast as (e & _ & _ & Hin & _). set_solver. }
  pose proof (applyExplain_AInv s HA HneH) as HA'. fold s' in HA'.
  destruct (applyExplain_frame (cL s) s) as [Hm' HR']. fold s' in Hm', HR'.
  assert (HN' : 1 <= cN s').
  { rewrite (a_N _ (a_core _ HA')). rewrite (a_N _ (a_core _ HA)) in HN.
    assert (Hsub : (cH s ∖ cP s) ∖ {[Negate (cL s)]} ⊆ cH s' ∖ cP s').
    { intros x [[Hx HnP]%elem_of_difference Hne%not_elem_of_singleton]%elem_of_difference.
      apply elem_of_difference. split.
      - apply applyExplain_cH. by left.
      - intros [_ Hlv]%(a_P _ (a_core _ HA')). rewrite Hm' in Hlv.
        apply HnP, (a_P _ (a_core _ HA)). by split. }
    apply subseteq_size in Hsub.
    pose proof (size_difference_singleton_ge (cH s ∖ cP s) (Negate (cL s))). lia. }
  split; [done|]. split; [done|].
  assert (HneH' : cH s' ≠ ∅).
  { intros Heq. rewrite (a_N _ (a_core _ HA')), Heq in HN'.
    replace (∅ ∖ cP s' : gset Z) with (∅ : gset Z) in HN' by set_solver.
    rewrite size_empty in HN'. lia. }
  destruct (a_last _ HA' HneH') as (i' & Hlast').
  exists i'. split; [|done].
  destruct Hlast as (e & Hi & HL & HLH & Hlater).
  destruct Hlast' as (e' & Hi' & HL' & HLH' & _). rewrite Hm' in Hi'.
  assert (Hprev : exists p a, (p < i)%nat /\ elems (m s) !! p = Some a /\
                    Lit a = cL s').
  { apply applyExplain_cH in HLH' as [[Hx Hne]|(Hx & Hne & Hpos)].
    - destruct (H_member_entry s HA i _ (ltac:(by exists e)) Hx)
        as (p & a & Hpi & Hp & Hla & _).
      rewrite Negate_involutive in Hla. exists p, a. split; [|done].
      destruct (decide (p = i)) as [->|]; [|lia]. exfalso.
      assert (a = e) by congruence. subst a. apply Hne. f_equal. congruence.
    - destruct (last_not_decision s Hwf HA i e HN (ltac:(by exists e)) Hi)
        as (p & a & Hpi & Hp & Hlv).
      pose proof (HR p i a e Hpi Hp Hi Hlv) as Hj. unfold justified in Hj.
      rewrite HL in Hj. destruct (Hj _ Hx Hne) as (j & b & Hji & Hb & Hlb).
      rewrite Negate_involutive in Hlb. by exists j, b. }
  destruct Hprev as (p & a & Hpi & Hp & Hla).
  assert (p = i'); [|lia].
  eapply NoDup_trailVars_lookup; eauto using wf_nodup. by rewrite Hla, HL'.
Qed.

Lemma explainLoop_total fuel s i :
  trail_wf (m s) -> reasonsValid (reasonMap s) (m s) -> AInv s -> 1 <= cN s ->
  lastAssertedAt (elems (m s)) (cH s) (cL s) i -> (i < fuel)%nat ->
  exists s', explainLoop fuel s = Ret s' /\ AInv s' /\ cN s' = 1 /\
    (exists H P N L, s' = withConflict H P N L s).
Proof.
  revert s i. induction fuel as [|fuel IH]; intros s i Hwf HR HA HN Hlast Hfuel; [lia|].
  cbn [explainLoop]. case_bool_decide as Hne.
  - destruct (explain_step s i Hwf HR HA) as (HA' & HN' & i' & Hi' & Hlast'); [lia|done|].
    destruct (applyExplain_frame (cL s) s) as [Hm' HR'].
    destruct (IH (applyExplain (cL s) s) i') as (s' & Hrun & HAs' & HNs' & H' & P' & N' & L' & Hs');
      try done; [by rewrite Hm'|by rewrite Hm', HR'|lia|].
    exists s'. split; [done|]. split; [done|]. split; [done|].
    destruct (applyExplain_shape (cL s) s) as (H0 & P0 & N0 & L0 & Heq).
    rewrite Hs', Heq. eexists _, _, _, _. apply withConflict_twice.
  - exists s. split; [done|]. split; [done|]. split; [lia|].
    eexists _, _, _, _. apply withConflict_id.
Qed.

(** ** Backjumping *)

Lemma backjumpLevel_foldl M keys acc :
  let j := foldl (fun level l =>
                    let v := set M (Negate l) in
                    if bool_decide (level < v)%nat then v else level) acc keys in
  (acc <= j)%nat /\ (forall l, l ∈ keys -> (set M (Negate l) <= j)%nat) /\
  (j = acc \/ exists l, l ∈ keys /\ set M (Negate l) = j).
Proof.
  revert acc. induction keys as [|k keys IH]; intros acc; cbn [foldl].
  - split; [done|]. split; [|by left]. intros l Hl. by apply elem_of_nil in Hl.
  - cbv zeta in IH |- *.
    set (acc' := if bool_decide (acc < set M (Negate k))%nat then set M (Negate k) else acc).
    destruct (IH acc') as (Hge & Hall & Hex).
    assert (Hacc : (acc <= acc')%nat /\ (set M (Negate k) <= acc')%nat /\
                   (acc' = acc \/ acc' = set M (Negate k))).
    { subst acc'. case_bool_decide; lia. }
    split; [lia|]. split.
    + intros l [->|Hl]%elem_of_cons; [lia|auto].
    + destruct Hex as [Heq|(l & Hl & Heq)].
      * destruct Hacc as (_ & _ & [Ha|Ha]).
        -- left. lia.
        -- right. exists k. split; [by left|]. lia.
      * right. exists l. split; [by right|done].
Qed.

Lemma backjumpTarget_spec rangeMap s :
  enumerates rangeMap ->
  let j := backjumpTarget rangeMap s in
  (forall l, l ∈ cP s -> (set (m s) (Negate l) <= j)%nat) /\
  (cP s = ∅ -> j = 0%nat) /\
  (cP s ≠ ∅ -> exists l, l ∈ cP s /\ set (m s) (Negate l) = j).
Proof.
  intros Henum. cbv zeta. unfold backjumpTarget. case_bool_decide as Hsz.
  - destruct (backjumpLevel_foldl (m s) (rangeMap (clock s) (cP s)) 0) as (_ & Hall & Hex).
    unfold backjumpLevel. cbv zeta in Hall, Hex |- *.
    set (j := foldl _ _ _) in *.
    split; [|split].
    + intros l Hl. apply Hall. by apply enumerates_elem.
    + intros Heq. rewrite Heq, size_empty in Hsz. lia.
    + intros Hne. destruct Hex as [Heq|(l & Hl & Heq)].
      * apply set_choose_L in Hne as (l & Hl). exists l. split; [done|].
        assert (set (m s) (Negate l) <= j)%nat.
        { apply Hall. by apply enumerates_elem. }
        lia.
      * exists l. split; [|done]. by apply (enumerates_elem rangeMap (clock s)).
  - split; [|split].
    + intros l Hl. exfalso. apply Hsz. assert (size (cP s) ≠ 0%nat); [|lia]. intros Hz%size_empty_iff. set_solver.
    + done.
    + intros Hne. exfalso. apply Hsz. apply set_choose_L in Hne as (l & Hl).
      assert (size (cP s) ≠ 0%nat); [|lia]. intros Hz%size_empty_iff. set_solver.
Qed.

(** What analysis has established when it stops at [N = 1]. *)
Lemma uip_facts s :
  trail_wf (m s) -> AInv s -> cN s = 1 ->
  cL s ∈ trailLits (m s) /\
  set (m s) (cL s) = decisionsLen (m s) /\
  (0 < decisionsLen (m s))%nat /\
  Negate (cL s) ∈ cH s /\ (Negate (cL s) ∉ cP s) /\
  forall p, p ∈ cP s ->
    Negate p ∈ trailLits (m s) /\
    (0 < set (m s) (Negate p) < decisionsLen (m s))%nat.
Proof.
  intros Hwf HA HN.
  destruct (current_member s HA) as (h & Hh & HhP & Hhl); [lia|].
  assert (HneH : cH s ≠ ∅) by set_solver.
  destruct (a_last _ HA HneH) as (i & Hlast).
  pose proof (last_level_set s Hwf HA i (ltac:(lia)) Hlast) as HLl.
  pose proof (a_levels _ (a_core _ HA) h Hh) as Hhpos.
  destruct Hlast as (e & Hi & HL & HLH & _).
  split. { apply elem_of_trailLits. exists e. split; [by eapply list_elem_of_lookup_2|done]. }
  split; [done|]. split. { unfold Level in *. lia. }
  split; [done|]. split.
  { intros [_ Hne]%(a_P _ (a_core _ HA)). apply Hne. unfold Level, CurrentLevel.
    by rewrite Negate_involutive. }
  intros p [HpH Hplv]%(a_P _ (a_core _ HA)).
  pose proof (a_levels _ (a_core _ HA) p HpH) as Hppos.
  destruct (set_pos_in _ _ Hppos) as (a & Ha & Hla & Hlva).
  split. { apply elem_of_trailLits. eauto. }
  pose proof (proj1 (Forall_forall _ _) (wf_bound _ Hwf) a Ha) as Hb. simpl in Hb.
  unfold Level, CurrentLevel in *. lia.
Qed.

Lemma Trim_Trim M i j :
  (i <= j)%nat -> TrimToLevel i (TrimToLevel j M) = TrimToLevel i M.
Proof.
  intros Hij. unfold TrimToLevel.
  destruct (decide (decisionsLen M <= j)%nat) as [Hle|Hgt].
  - by rewrite (bool_decide_eq_true_2 (decisionsLen M <= j)%nat).
  - rewrite (bool_decide_eq_false_2 (decisionsLen M <= j)%nat) by done. cbn [decisionsLen elems].
    destruct (decide (j <= i)%nat) as [Hji|Hji].
    + assert (i = j) by lia. subst i.
      rewrite (bool_decide_eq_true_2 (j <= j)%nat) by lia.
      by rewrite (bool_decide_eq_false_2 (decisionsLen M <= j)%nat).
    + rewrite (bool_decide_eq_false_2 (j <= i)%nat) by done.
      rewrite (bool_decide_eq_false_2 (decisionsLen M <= i)%nat) by lia.
      f_equal. apply list_filter_filter_l. intros. lia.
Qed.

Lemma reasonsValid_Trim R M j :
  trail_wf M -> reasonsValid R M -> reasonsValid R (TrimToLevel j M).
Proof.
  intros Hwf HR i i' a b Hii' [Ha Hla]%Trim_lookup [Hb Hlb]%Trim_lookup Hlv; try done.
  intros l Hl Hne. destruct (HR i i' a b Hii' Ha Hb Hlv l Hl Hne) as (p & e & Hp & He & Hle).
  exists p, e. split; [done|]. split; [|done]. apply Trim_lookup; [done|]. split; [done|].
  pose proof (wf_mono _ Hwf p i' e b He Hb). lia.
Qed.

Section Backjump.
Variable rangeMap : nat -> gset Z -> list Z.
Hypothesis Henum : enumerates rangeMap.
Variable s : Solver.
Hypothesis Hwf : trail_wf (m s).
Hypothesis HA : AInv s.
Hypothesis HN : cN s = 1.
Variable keys : list Z.
Hypothesis Hc : c s = keys ++ [Negate (cL s)].
Hypothesis Hkeys : forall l, l ∈ keys <-> l ∈ cP s.

Local Abbreviation j := (backjumpTarget rangeMap s).

Lemma target_lt : (j < decisionsLen (m s))%nat.
Proof.
  destruct (uip_facts s Hwf HA HN) as (_ & _ & Hk & _ & _ & HP).
  destruct (backjumpTarget_spec rangeMap s Henum) as (_ & H0 & Hmax).
  destruct (decide (cP s = ∅)) as [He|Hne].
  - rewrite (H0 He). done.
  - destruct (Hmax Hne) as (l & Hl & <-). apply HP in Hl. lia.
Qed.

Lemma trimmed_unassigned : value (TrimToLevel j (m s)) (Negate (cL s)) = Undef.
Proof.
  destruct (uip_facts s Hwf HA HN) as (HL & HLl & _).
  apply value_undef. rewrite litVar_Negate.
  intros (e & [He Hle]%Trim_elem_of & Hv)%elem_of_trailVars; [|done].
  apply elem_of_trailLits in HL as (eL & HeL & HLit).
  assert (e = eL).
  { apply list_elem_of_lookup in He as (i & Hi), HeL as (i' & Hi').
    assert (i = i'); [|congruence].
    eapply NoDup_trailVars_lookup; eauto using wf_nodup. by rewrite Hv, HLit. }
  subst e. rewrite <- HLit in HLl. rewrite set_elem in HLl by (auto using wf_nodup).
  pose proof target_lt. lia.
Qed.

Lemma learned_falsified l :
  l ∈ keys -> value (TrimToLevel j (m s)) l = TriFalse.
Proof.
  intros Hl%Hkeys.
  destruct (uip_facts s Hwf HA HN) as (_ & _ & _ & _ & _ & HP).
  destruct (backjumpTarget_spec rangeMap s Henum) as (Hall & _).
  apply value_false_wf; [by apply Trim_wf|].
  apply Trim_trailLits; [done|]. split; [by apply HP|by apply Hall].
Qed.

Lemma learned_unit : IsUnit (TrimToLevel j (m s)) (c s) (Negate (cL s)) = true.
Proof.
  apply IsUnit_true. split; [apply trimmed_unassigned|].
  intros l Hl Hne. rewrite Hc in Hl.
  apply elem_of_app in Hl as [Hl| ->%list_elem_of_singleton]; [|done].
  by apply learned_falsified.
Qed.

Lemma applyBackjump_Ret :
  applyBackjump rangeMap s =
    Ret (withTrail {| elems := elems (TrimToLevel j (m s)) ++ [mkElem (Negate (cL s)) j];
                      decisionsLen := j |}
           (<[Negate (cL s) := c s]> (reasonMap s))
           (if bool_decide (0 < size (cP s))%nat then tick s else s)).
Proof.
  assert (Hdl : decisionsLen (TrimToLevel j (m s)) = j).
  { rewrite Trim_decisionsLen. pose proof target_lt. lia. }
  pose proof trimmed_unassigned as Hu.
  unfold applyBackjump, rangeKeys. unfold backjumpTarget, backjumpLevel in *.
  destruct (bool_decide (0 < size (cP s))%nat); unfold assertLiteral, Assert; fields;
    rewrite (bool_decide_eq_true_2 _ Hu); cbn [mbind Res_bind bindRes]; fields;
    rewrite Hdl; destruct s; reflexivity.
Qed.

End Backjump.

(** ** The conflict branch keeps the invariant *)

Lemma AInv_ext s s' :
  AInv s -> m s' = m s -> cH s' = cH s -> cP s' = cP s -> cN s' = cN s -> cL s' = cL s ->
  AInv s'.
Proof.
  intros [[H1 H2 H3] H4] Hm HH HP HN HL. split; [split|]; rewrite ?Hm, ?HH, ?HP, ?HN, ?HL; auto.
Qed.

Section BackjumpInv.
Variable rangeMap : nat -> gset Z -> list Z.
Hypothesis Henum : enumerates rangeMap.
Variables s0 s : Solver.
Hypothesis HI : Inv s0.
Hypothesis Hm : m s = m s0.
Hypothesis HR : reasonMap s = reasonMap s0.
Hypothesis Hvars : vars s = vars s0.
Hypothesis Hdec : decideLiterals s = [].
Hypothesis Hf : f s = if bool_decide (1 < length (c s))%nat then f s0 ++ [c s] else f s0.
Hypothesis HA : AInv s.
Hypothesis HN : cN s = 1.
Variable keys : list Z.
Hypothesis Hc : c s = keys ++ [Negate (cL s)].
Hypothesis Hkeys : forall l, l ∈ keys <-> l ∈ cP s.

Local Abbreviation j := (backjumpTarget rangeMap s).
Local Abbreviation s5 :=
  (withTrail {| elems := elems (TrimToLevel j (m s)) ++ [mkElem (Negate (cL s)) j];
                decisionsLen := j |}
     (<[Negate (cL s) := c s]> (reasonMap s))
     (if bool_decide (0 < size (cP s))%nat then tick s else s)).

Lemma Hwf_s : trail_wf (m s).
Proof. rewrite Hm. apply HI. Qed.

Lemma learned_lit_ok l : l ∈ c s -> l ≠ 0 /\ litVar l ∈ vars s.
Proof.
  pose proof Hwf_s as Hwf.
  destruct (uip_facts s Hwf HA HN) as (HL & _ & _ & _ & _ & HP).
  assert (Hin : forall x, Negate x ∈ trailLits (m s) -> x ≠ 0 /\ litVar x ∈ vars s).
  { intros x Hx. split.
    - apply elem_of_trailLits in Hx as (e & He & Hle).
      pose proof (wf_lit_nonzero _ _ Hwf He). unfold Negate in Hle. lia.
    - rewrite Hvars. apply (inv_trail_vars _ HI). rewrite <- Hm.
      apply trailVars_lits. by right. }
  rewrite Hc. intros [Hl| ->%list_elem_of_singleton]%elem_of_app.
  - apply Hin, HP, Hkeys, Hl.
  - apply Hin. by rewrite Negate_involutive.
Qed.

Lemma backjump_Inv : Inv s5.
Proof.
  pose proof Hwf_s as Hwf.
  pose proof (target_lt rangeMap Henum s Hwf HA HN) as Hlt.
  pose proof (trimmed_unassigned rangeMap Henum s Hwf HA HN) as Hu.
  assert (Hdl : decisionsLen (TrimToLevel j (m s)) = j).
  { rewrite Trim_decisionsLen. lia. }
  assert (Hnz : Negate (cL s) ≠ 0).
  { apply learned_lit_ok. rewrite Hc. set_solver. }
  assert (Hfs : f (if bool_decide (0 < size (cP s))%nat then tick s else s) = f s)
    by (destruct (bool_decide (0 < size (cP s))%nat); reflexivity).
  assert (Hvs : vars (if bool_decide (0 < size (cP s))%nat then tick s else s) = vars s)
    by (destruct (bool_decide (0 < size (cP s))%nat); reflexivity).
  assert (Hds : decideLiterals (if bool_decide (0 < size (cP s))%nat then tick s else s)
                = decideLiterals s) by (destruct (bool_decide (0 < size (cP s))%nat); reflexivity).
  split; fields.
  - eapply (Assert_wf (Negate (cL s)) false (TrimToLevel j (m s))); [by apply Trim_wf|done|].
    apply Assert_Ret. split; [done|]. cbn. by rewrite Hdl.
  - apply (reasonsValid_snoc _ _ (mkElem (Negate (cL s)) j)).
    + by apply Trim_wf.
    + apply reasonsValid_Trim; [done|]. rewrite HR, Hm. apply HI.
    + done.
    + intros l' Hl' Hne. rewrite Hc in Hl'.
      apply elem_of_app in Hl' as [Hl'| ->%list_elem_of_singleton]; [|done].
      by apply (learned_falsified rangeMap Henum s Hwf HA HN keys).
  - rewrite Hfs. intros i cl Hi Hcl. cbn [decisionsLen] in Hi.
    rewrite (Trim_snoc_above (TrimToLevel j (m s))) by (try apply Trim_wf; cbn; lia || done).
    rewrite Trim_Trim by lia.
    assert (Hold : forall cl, cl ∈ f s0 -> IsClauseFalse (TrimToLevel i (m s)) cl = false).
    { intros cl' Hcl'. rewrite Hm. apply (inv_below _ HI); [|done]. rewrite <- Hm. lia. }
    rewrite Hf in Hcl.
    destruct (bool_decide (1 < length (c s))%nat) eqn:Hlen; [|auto].
    apply bool_decide_eq_true in Hlen.
    apply elem_of_app in Hcl as [Hcl| ->%list_elem_of_singleton]; [auto|].
    apply IsClauseFalse_false.
    assert (HneP : cP s ≠ ∅).
    { intros He. destruct keys as [|k0 ks].
      - rewrite Hc in Hlen. simpl in Hlen. lia.
      - assert (k0 ∈ cP s) by (apply Hkeys; by left). set_solver. }
    destruct (backjumpTarget_spec rangeMap s Henum) as (_ & _ & Hmax).
    destruct (Hmax HneP) as (p & Hp & Hpl).
    exists p. split; [rewrite Hc; apply elem_of_app; left; by apply Hkeys|].
    intros [_ Hin]%value_false. apply Trim_trailLits in Hin as [_ Hle]; [|done]. lia.
  - rewrite Hfs, Hvs, Hf. pose proof (inv_formula _ HI) as Hform.
    rewrite Hvars. unfold formulaOK in *.
    destruct (bool_decide (1 < length (c s))%nat); [|exact Hform].
    apply Forall_app. split; [exact Hform|]. constructor; [|constructor]. split.
    + rewrite Hc. by destruct keys.
    + apply Forall_forall. intros l Hl. rewrite <- Hvars. by apply learned_lit_ok.
  - rewrite Hvs. intros v. rewrite trailVars_snoc. cbn [Lit].
    intros [Hv| ->%list_elem_of_singleton]%elem_of_app.
    + rewrite Hvars. apply (inv_trail_vars _ HI). rewrite <- Hm.
      apply elem_of_trailVars in Hv as (e & [He _]%Trim_elem_of & Hev); [|done].
      apply elem_of_trailVars. eauto.
    + apply learned_lit_ok. rewrite Hc. set_solver.
  - rewrite Hvs, Hvars. apply HI.
  - by rewrite Hds.
Qed.

End BackjumpInv.

(** ** The termination measure *)

Lemma weight_pos n e : (1 <= weight n e)%nat.
Proof.
  unfold weight. pose proof (Nat.pow_nonzero (S n) (n - Lvl e)). lia.
Qed.

Lemma weight_le n e j : (j <= Lvl e)%nat -> (weight n e <= S n ^ (n - j))%nat.
Proof. intros Hj. unfold weight. apply Nat.pow_le_mono_r; lia. Qed.

Lemma sum_weight_bound n es j :
  Forall (fun e => (j <= Lvl e)%nat) es ->
  (sum_list_with (weight n) es <= length es * S n ^ (n - j))%nat.
Proof.
  induction 1 as [|e es He Hes IH]; simpl; [lia|].
  pose proof (weight_le n e j He). lia.
Qed.

Lemma sum_weight_split n es j :
  sum_list_with (weight n) es =
  (sum_list_with (weight n) (filter (fun e => (Lvl e <= j)%nat) es) +
   sum_list_with (weight n) (filter (fun e => ~ (Lvl e <= j)%nat) es))%nat.
Proof.
  induction es as [|e es IH]; [done|].
  rewrite !filter_cons. cbn [sum_list_with]. rewrite IH.
  destruct (decide (Lvl e <= j)%nat) as [Hle|Hgt].
  - rewrite decide_False by tauto. cbn [sum_list_with]. lia.
  - rewrite decide_True by done. cbn [sum_list_with]. lia.
Qed.

Lemma trailMeasure_snoc n M e d :
  trailMeasure n {| elems := elems M ++ [e]; decisionsLen := d |}
  = (trailMeasure n M + weight n e)%nat.
Proof.
  unfold trailMeasure. cbn [elems]. rewrite sum_list_with_app. simpl. lia.
Qed.

Lemma trailMeasure_bound n M :
  (length (elems M) <= n)%nat -> (trailMeasure n M <= n * S n ^ n)%nat.
Proof.
  intros Hlen. unfold trailMeasure.
  pose proof (sum_weight_bound n (elems M) 0) as Hb.
  rewrite Nat.sub_0_r in Hb.
  assert (Forall (fun e => (0 <= Lvl e)%nat) (elems M)) as Hall.
  { apply Forall_forall. intros. lia. }
  specialize (Hb Hall).
  assert (length (elems M) * S n ^ n <= n * S n ^ n)%nat by (apply Nat.mul_le_mono_r; lia).
  lia.
Qed.

(** Trimming to a level below [n] and asserting a literal there increases
    the measure. *)
Lemma trailMeasure_backjump n M j l :
  trail_wf M -> (length (elems M) <= n)%nat -> (j < n)%nat ->
  (trailMeasure n M <
   trailMeasure n {| elems := elems (TrimToLevel j M) ++ [mkElem l j];
                     decisionsLen := j |})%nat.
Proof.
  intros Hwf Hlen Hj. rewrite trailMeasure_snoc.
  unfold trailMeasure. rewrite Trim_elems by (by apply wf_bound).
  rewrite (sum_weight_split n (elems M) j).
  set (hi := filter (fun e => ~ (Lvl e <= j)%nat) (elems M)).
  assert (Hhi : (sum_list_with (weight n) hi <= length hi * S n ^ (n - S j))%nat).
  { apply sum_weight_bound. apply Forall_forall.
    intros e [He _]%list_elem_of_filter. lia. }
  assert (Hlhi : (length hi <= n)%nat).
  { subst hi. pose proof (length_filter (fun e => ~ (Lvl e <= j)%nat) (elems M)). lia. }
  assert (Hw : weight n (mkElem l j) = (S n * S n ^ (n - S j))%nat).
  { unfold weight. cbn [Lvl]. replace (n - j)%nat with (S (n - S j)) by lia.
    apply Nat.pow_succ_r'. }
  rewrite Hw.
  assert (length hi * S n ^ (n - S j) <= n * S n ^ (n - S j))%nat
    by (apply Nat.mul_le_mono_r; lia).
  pose proof (Nat.pow_nonzero (S n) (n - S j)). lia.
Qed.

(** The number of open decision levels is at most the length of the trail. *)
Lemma wf_levels_le M : trail_wf M -> (decisionsLen M <= length (elems M))%nat.
Proof.
  intros Hwf.
  assert (Hsub : seq 1 (decisionsLen M) ⊆+ (Lvl <$> elems M)).
  { apply NoDup_submseteq; [apply NoDup_seq|].
    intros x Hx%elem_of_seq. destruct (wf_levels _ Hwf x) as (e & He & Hl); [lia|].
    apply list_elem_of_fmap. eauto. }
  apply submseteq_length in Hsub. by rewrite length_seq, length_fmap in Hsub.
Qed.

(** ** The decision branch *)

Lemma unassigned_exists s :
  Inv s -> Len (m s) ≠ size (vars s) ->
  exists v, v ∈ vars s /\ (v ∉ tMapOf (m s)).
Proof.
  intros HI Hne. pose proof (Inv_len_le s HI) as Hle.
  set (T := list_to_set (trailVars (m s)) : gset Z).
  destruct (decide (vars s ∖ T = ∅)) as [He|Hn].
  - exfalso. assert (Hsub : vars s ⊆ T).
    { intros v Hv. destruct (decide (v ∈ T)) as [|HnT]; [done|]. exfalso.
      assert (Hd : v ∈ vars s ∖ T) by (by apply elem_of_difference).
      rewrite He in Hd. by apply not_elem_of_empty in Hd. }
    apply subseteq_size in Hsub. subst T.
    rewrite size_list_to_set in Hsub by (apply wf_nodup, HI).
    unfold trailVars in Hsub. rewrite length_fmap in Hsub. unfold Len in *. lia.
  - apply set_choose_L in Hn as (v & [Hv HnT]%elem_of_difference).
    exists v. split; [done|]. rewrite elem_of_tMapOf. intros Hin. apply HnT.
    subst T. by apply elem_of_list_to_set.
Qed.

Lemma reasonsValid_snoc_decision R M e d :
  reasonsValid R M -> Forall (fun a => (Lvl a < Lvl e)%nat) (elems M) ->
  reasonsValid R {| elems := elems M ++ [e]; decisionsLen := d |}.
Proof.
  intros HR Hall i j a b Hij Ha Hb Hlvl. cbn [elems] in *.
  rewrite Forall_forall in Hall.
  apply lookup_snoc_Some in Hb as [Hb|[-> ->]].
  - assert (Hi : elems M !! i = Some a).
    { apply lookup_snoc_Some in Ha as [?|[-> _]]; [done|].
      apply lookup_lt_Some in Hb. lia. }
    intros l' Hl' Hne'. apply falsifiedBefore_snoc. by apply (HR i j a b).
  - exfalso. apply lookup_snoc_Some in Ha as [Ha|[-> _]]; [|lia].
    specialize (Hall a (list_elem_of_lookup_2 _ _ _ Ha)). lia.
Qed.

Lemma Trim_snoc_at M e d :
  trail_wf M -> Lvl e = S (decisionsLen M) -> d = S (decisionsLen M) ->
  trailLits (TrimToLevel (decisionsLen M) {| elems := elems M ++ [e]; decisionsLen := d |})
  = trailLits M.
Proof.
  intros Hwf He ->. unfold TrimToLevel, trailLits. cbn [decisionsLen elems].
  rewrite bool_decide_eq_false_2 by lia. cbn [elems].
  rewrite filter_app, filter_cons_False, filter_nil, app_nil_r by lia.
  rewrite filter_all; [done|]. apply wf_bound, Hwf.
Qed.

Lemma IsClauseFalse_ext M M' cl :
  trailLits M = trailLits M' -> IsClauseFalse M cl = IsClauseFalse M' cl.
Proof. intros Heq. unfold IsClauseFalse, value. by rewrite Heq. Qed.

Lemma decide_branch rangeMap s1 :
  enumerates rangeMap -> Inv s1 ->
  IsZero (IsFormulaFalse (m s1) (f s1)) = true ->
  Len (m s1) ≠ size (vars s1) ->
  exists lit s2 s3,
    selectLiteral rangeMap s1 = Ret (lit, s2) /\
    assertLiteral lit true s2 = Ret s3 /\
    Inv s3 /\ vars s3 = vars s1 /\
    m s3 = {| elems := elems (m s1) ++ [mkElem lit (S (decisionsLen (m s1)))];
              decisionsLen := S (decisionsLen (m s1)) |}.
Proof.
  intros Henum HI Hz Hlen.
  destruct (selectLiteral_first_unassigned rangeMap s1 Henum (inv_decide _ HI)
              (unassigned_exists s1 HI Hlen)) as (lit & _ & _ & Hsel & _ & _ & Hin & Hun).
  pose proof (inv_vars_pos _ HI lit Hin) as Hpos.
  assert (Hu : value (m s1) lit = Undef).
  { apply value_undef. rewrite <- elem_of_tMapOf.
    replace (litVar lit) with lit by (unfold litVar; lia). done. }
  exists lit, (tick s1). eexists. split; [done|].
  unfold assertLiteral, Assert. fields. rewrite (bool_decide_eq_true_2 _ Hu).
  cbn [mbind Res_bind bindRes]. split; [reflexivity|]. split; [|done].
  pose proof (inv_wf _ HI) as Hwf.
  split; fields.
  - eapply (Assert_wf lit true); [exact Hwf|lia|]. apply Assert_Ret. by split.
  - apply reasonsValid_snoc_decision; [apply HI|]. cbn [Lvl].
    eapply Forall_impl; [apply (wf_bound _ Hwf)|]. simpl. intros. lia.
  - intros j cl Hj Hcl. cbn [decisionsLen] in Hj.
    destruct (decide (j < decisionsLen (m s1))%nat) as [Hlt|Hge].
    + rewrite Trim_snoc_above by (done || cbn; lia). by apply (inv_below _ HI).
    + assert (j = decisionsLen (m s1)) by lia. subst j.
      rewrite (IsClauseFalse_ext _ (m s1)) by (by apply Trim_snoc_at).
      destruct (IsFormulaFalse_spec (m s1) (f s1)) as [[_ Hall]|[Hzf _]].
      * eapply formulaOK_nonempty, HI.
      * by apply Hall.
      * congruence.
  - apply HI.
  - intros v. rewrite trailVars_snoc. cbn [Lit].
    intros [Hv| ->%list_elem_of_singleton]%elem_of_app.
    + by apply (inv_trail_vars _ HI).
    + replace (litVar lit) with lit by (unfold litVar; lia). done.
  - apply HI.
  - apply HI.
Qed.

(** ** The conflict branch *)

Lemma applyConflict_frame cl s :
  m (applyConflict cl s) = m s /\ reasonMap (applyConflict cl s) = reasonMap s /\
  f (applyConflict cl s) = f s /\ vars (applyConflict cl s) = vars s /\
  decideLiterals (applyConflict cl s) = decideLiterals s.
Proof. destruct (applyConflict_shape cl s) as (H & P & N & L & ->). done. Qed.

Lemma applyConflict_cH cl s x :
  x ∈ cH (applyConflict cl s) <-> x ∈ cl /\ (0 < Level (m s) (Negate x))%nat.
Proof.
  unfold applyConflict, findLastAsserted. fields.
  rewrite (foldl_add_cH (fun _ => true)). fields. split.
  - intros [Hx|(? & _ & ?)]; [by apply not_elem_of_empty in Hx|done].
  - intros [? ?]. right. done.
Qed.

(** A clause falsified by the trail, but not by the part of the trail below
    the current level, has a literal falsified at the current level. *)
Lemma conflict_has_current s cl :
  Inv s -> cl ∈ f s -> IsClauseFalse (m s) cl = true -> (0 < decisionsLen (m s))%nat ->
  exists l, l ∈ cl /\ set (m s) (Negate l) = decisionsLen (m s).
Proof.
  intros HI Hcl Hfalse Hk. pose proof (inv_wf _ HI) as Hwf.
  assert (Hb : IsClauseFalse (TrimToLevel (decisionsLen (m s) - 1) (m s)) cl = false).
  { apply (inv_below _ HI); [lia|done]. }
  apply IsClauseFalse_false in Hb as (l & Hl & Hv).
  rewrite IsClauseFalse_true in Hfalse. specialize (Hfalse l Hl).
  apply value_false_wf in Hfalse; [|done].
  exists l. split; [done|].
  rewrite value_false_wf in Hv by (by apply Trim_wf).
  rewrite Trim_trailLits in Hv by done.
  apply elem_of_trailLits in Hfalse as (e & He & Hle).
  pose proof (proj1 (Forall_forall _ _) (wf_bound _ Hwf) e He) as Hbd. simpl in Hbd.
  rewrite <- Hle in *. rewrite set_elem in * by (auto using wf_nodup).
  destruct (decide (Lvl e <= decisionsLen (m s) - 1)%nat) as [Hle'|?]; [|lia].
  exfalso. apply Hv. split; [|done]. apply elem_of_trailLits. eauto.
Qed.

Lemma conflict_branch rangeMap fuel s1 :
  enumerates rangeMap -> Inv s1 ->
  IsZero (IsFormulaFalse (m s1) (f s1)) = false ->
  DecisionsLen (m s1) ≠ 0%nat ->
  (size (vars s1) < fuel)%nat ->
  exists s3 s5 lit j,
    applyExplainUIP rangeMap fuel (applyConflict (IsFormulaFalse (m s1) (f s1)) s1) = Ret s3 /\
    applyBackjump rangeMap (learnClause s3) = Ret s5 /\
    Inv s5 /\ vars s5 = vars s1 /\ (j < decisionsLen (m s1))%nat /\
    m s5 = {| elems := elems (TrimToLevel j (m s1)) ++ [mkElem lit j];
              decisionsLen := j |}.
Proof.
  intros Henum HI Hz Hdl Hfuel. pose proof (inv_wf _ HI) as Hwf.
  set (cl := IsFormulaFalse (m s1) (f s1)) in *.
  destruct (IsFormulaFalse_spec (m s1) (f s1)) as [[Hz' _]|(_ & Hcl & Hfalse)];
    [eapply formulaOK_nonempty, HI|subst cl; congruence|]. fold cl in Hcl, Hfalse.
  destruct (conflict_has_current s1 cl HI Hcl Hfalse) as (l0 & Hl0 & Hl0lv);
    [unfold DecisionsLen in Hdl; lia|].
  set (s2 := applyConflict cl s1).
  destruct (applyConflict_frame cl s1) as (Hm2 & HR2 & Hf2 & Hv2 & Hd2). fold s2 in Hm2, HR2, Hf2, Hv2, Hd2.
  pose proof (applyConflict_AInv cl s1) as HA2. fold s2 in HA2.
  assert (Hl0H : l0 ∈ cH s2).
  { apply applyConflict_cH. split; [done|]. unfold Level, DecisionsLen in *. lia. }
  assert (HN2 : 1 <= cN s2).
  { rewrite (a_N _ (a_core _ HA2)).
    assert (Hin : l0 ∈ cH s2 ∖ cP s2).
    { apply elem_of_difference. split; [done|].
      intros [_ Hne]%(a_P _ (a_core _ HA2)). apply Hne.
      unfold Level, CurrentLevel. by rewrite Hm2. }
    assert (size (cH s2 ∖ cP s2) ≠ 0%nat); [|lia].
    intros Hsz%size_empty_iff. set_solver. }
  assert (HneH : cH s2 ≠ ∅) by set_solver.
  destruct (a_last _ HA2 HneH) as (i & Hlast).
  assert (Hi : (i < fuel)%nat).
  { destruct Hlast as (e & Hie & _). apply lookup_lt_Some in Hie.
    pose proof (Inv_len_le s1 HI). unfold Len in *. rewrite Hm2 in Hie. lia. }
  destruct (explainLoop_total fuel s2 i) as (s' & Hrun & HA' & HN' & H' & P' & N' & L' & Hs');
    try done; [by rewrite Hm2|by rewrite Hm2, HR2; apply HI|].
  assert (Hfr : m s' = m s1 /\ reasonMap s' = reasonMap s1 /\ f s' = f s1 /\
                vars s' = vars s1 /\ decideLiterals s' = decideLiterals s1).
  { rewrite Hs'. fields. by rewrite Hm2, HR2, Hf2, Hv2, Hd2. }
  destruct Hfr as (Hm' & HR' & Hf' & Hv' & Hd').
  set (keys := rangeMap (clock s') (cP s')).
  set (s3 := setC (keys ++ [Negate (cL s')]) (tick s')).
  assert (H3 : applyExplainUIP rangeMap fuel s2 = Ret s3).
  { unfold applyExplainUIP. rewrite Hrun. reflexivity. }
  set (s4 := learnClause s3).
  assert (Hs4 : m s4 = m s1 /\ reasonMap s4 = reasonMap s1 /\ vars s4 = vars s1 /\
                decideLiterals s4 = [] /\ cH s4 = cH s' /\ cP s4 = cP s' /\
                cN s4 = cN s' /\ cL s4 = cL s' /\ c s4 = keys ++ [Negate (cL s')] /\
                f s4 = if bool_decide (1 < length (c s4))%nat then f s1 ++ [c s4] else f s1).
  { subst s4 s3. unfold learnClause. fields.
    destruct (bool_decide (1 < length (keys ++ [Negate (cL s')]))%nat) eqn:Hb; fields;
      rewrite ?Hb, ?Hm', ?HR', ?Hv', ?Hd', ?Hf', ?(inv_decide _ HI); repeat split; done. }
  destruct Hs4 as (Hm4 & HR4 & Hv4 & Hd4 & HH4 & HP4 & HN4 & HL4 & Hc4 & Hf4).
  assert (HA4 : AInv s4). { apply (AInv_ext s'); auto. congruence. }
  assert (Hkeys : forall l, l ∈ keys <-> l ∈ cP s4).
  { intros l. rewrite HP4. apply enumerates_elem, Henum. }
  rewrite <- HL4 in Hc4. rewrite <- HN4 in HN'.
  assert (Hwf4 : trail_wf (m s4)) by (by rewrite Hm4).
  exists s3. eexists. exists (Negate (cL s4)), (backjumpTarget rangeMap s4).
  split; [done|]. fold s4.
  split; [apply (applyBackjump_Ret rangeMap Henum s4 Hwf4 HA4 HN' keys Hc4 Hkeys)|].
  split; [apply (backjump_Inv rangeMap Henum s1 s4 HI Hm4 HR4 Hv4 Hd4 Hf4 HA4 HN' keys Hc4 Hkeys)|].
  split; [fields; by destruct (bool_decide (0 < size (cP s4))%nat)|].
  split; [rewrite <- Hm4; apply (target_lt rangeMap Henum s4 Hwf4 HA4 HN')|].
  fields. by rewrite Hm4.
Qed.

(** ** The solve loop: progress and termination *)

Lemma Inv_ext s s' :
  Inv s -> m s' = m s -> reasonMap s' = reasonMap s -> f s' = f s -> vars s' = vars s ->
  decideLiterals s' = decideLiterals s -> Inv s'.
Proof.
  intros [H1 H2 H3 H4 H5 H6 H7] Hm HR Hf Hv Hd.
  split; rewrite ?Hm, ?HR, ?Hf, ?Hv, ?Hd; auto.
Qed.

Lemma trailMeasure_app n M M' new :
  elems M' = elems M ++ new -> (trailMeasure n M <= trailMeasure n M')%nat.
Proof. intros Heq. unfold trailMeasure. rewrite Heq, sum_list_with_app. lia. Qed.

Section Progress.
Variable rangeMap : nat -> gset Z -> list Z.
Hypothesis Henum : enumerates rangeMap.

Lemma solveIter_progress fuel s :
  Inv s -> (size (vars s) < fuel)%nat ->
  exists r, solveIter rangeMap fuel s = Ret r /\ iterOutcome s r.
Proof.
  intros HI Hfuel.
  destruct (unitPropagate_total fuel s HI) as (s1 & Hprop & HI1 & (M1 & R1 & Hs1) & Hdl1 & new & Hnew & _);
    [lia|].
  assert (Hv1 : vars s1 = vars s) by (by rewrite Hs1).
  pose proof (trailMeasure_app (size (vars s)) (m s) (m s1) new Hnew) as Hmu1.
  assert (Hlen1 : (Len (m s) <= Len (m s1))%nat).
  { unfold Len. rewrite Hnew, length_app. lia. }
  pose proof (Inv_len_le s1 HI1) as Hle1. rewrite Hv1 in Hle1.
  unfold solveIter. rewrite Hprop. cbn [mbind Res_bind bindRes].
  destruct (IsZero (IsFormulaFalse (m s1) (f s1))) eqn:Hz; cbn [negb].
  - case_bool_decide as Hfull.
    + eexists. split; [reflexivity|]. unfold iterOutcome. rewrite Hz. by rewrite Hv1 in *.
    + destruct (decide_branch rangeMap s1 Henum HI1 Hz Hfull)
        as (lit & s2 & s3 & Hsel & Hass & HI3 & Hv3 & Hm3).
      rewrite Hsel. cbn [mbind Res_bind bindRes]. rewrite Hass. cbn [mbind Res_bind bindRes].
      eexists. split; [reflexivity|]. unfold iterOutcome. split; [done|]. split; [congruence|].
      rewrite Hm3. rewrite trailMeasure_snoc. unfold Len, DecisionsLen in *.
      cbn [elems decisionsLen]. rewrite length_app. simpl.
      pose proof (weight_pos (size (vars s)) (mkElem lit (S (decisionsLen (m s1))))).
      split; lia.
  - destruct (applyConflict_frame (IsFormulaFalse (m s1) (f s1)) s1) as (Hm2 & HR2 & Hf2 & Hv2 & Hd2).
    cbv zeta.
    replace (DecisionsLen (m (applyConflict (IsFormulaFalse (m s1) (f s1)) s1)))
      with (DecisionsLen (m s1)) by (by rewrite Hm2).
    case_bool_decide as Hzero.
    + eexists. split; [reflexivity|]. unfold iterOutcome. rewrite Hm2, Hf2, Hv2, Hz.
      split; [by apply (Inv_ext s1)|]. done.
    + destruct (conflict_branch rangeMap fuel s1 Henum HI1 Hz Hzero)
        as (s3 & s5 & lit & j & H3 & H5 & HI5 & Hv5 & Hj & Hm5); [rewrite Hv1; lia|].
      rewrite H3. cbn [mbind Res_bind bindRes]. rewrite H5. cbn [mbind Res_bind bindRes].
      eexists. split; [reflexivity|]. unfold iterOutcome. split; [done|]. split; [congruence|].
      pose proof (wf_levels_le (m s1) (inv_wf _ HI1)) as Hlv.
      unfold Len, DecisionsLen in *. split.
      * rewrite Hm5. eapply Nat.le_lt_trans; [exact Hmu1|].
        apply trailMeasure_backjump; [apply HI1|lia|lia].
      * left. rewrite Hm5. cbn [decisionsLen]. lia.
Qed.

Lemma solveLoop_total fuel steps s :
  Inv s -> (size (vars s) < fuel)%nat ->
  (size (vars s) * S (size (vars s)) ^ size (vars s)
     - trailMeasure (size (vars s)) (m s) < steps)%nat ->
  exists b s', solveLoop rangeMap fuel steps s = Ret (b, s') /\
    Inv s' /\ vars s' = vars s /\
    if b then IsZero (IsFormulaFalse (m s') (f s')) = true /\ Len (m s') = size (vars s')
    else IsZero (IsFormulaFalse (m s') (f s')) = false /\ DecisionsLen (m s') = 0%nat.
Proof.
  revert s. induction steps as [|steps IH]; intros s HI Hfuel Hsteps; [lia|].
  cbn [solveLoop].
  destruct (solveIter_progress fuel s HI Hfuel) as (r & Hr & Hout).
  rewrite Hr. cbn [mbind Res_bind bindRes].
  destruct r as [[b s']|s']; unfold iterOutcome in Hout.
  - exists b, s'. split; [done|]. tauto.
  - destruct Hout as (HI' & Hv' & Hmu & _).
    pose proof (Inv_len_le s' HI') as Hle'.
    pose proof (trailMeasure_bound (size (vars s)) (m s')) as Hb.
    rewrite Hv' in Hle'. specialize (Hb Hle').
    destruct (IH s' HI') as (b & s'' & Hrun & HI'' & Hv'' & Hres); rewrite ?Hv'; [lia|lia|].
    exists b, s''. split; [done|]. split; [done|]. split; [congruence|done].
Qed.

End Progress.

(** The starting state satisfies the invariant. *)
Lemma elem_of_formulaVars fm v :
  v ∈ formulaVars fm <-> exists cl l, cl ∈ fm /\ l ∈ cl /\ litVar l = v.
Proof.
  unfold formulaVars. rewrite elem_of_list_to_set, list_elem_of_fmap.
  split.
  - intros (l & -> & (cl & Hl & Hcl)%list_elem_of_join). eauto.
  - intros (cl & l & Hcl & Hl & <-). exists l. split; [done|].
    apply list_elem_of_join. eauto.
Qed.

Lemma Inv_init fm : wfFormula fm -> Inv (AddFormula fm New).
Proof.
  intros Hwf. unfold wfFormula, wfClause in Hwf. rewrite Forall_forall in Hwf.
  split; unfold AddFormula; fields.
  - split; cbn; try by constructor.
    + intros i j a b Ha. done.
    + intros j Hj. lia.
  - intros i j a b _ Ha. done.
  - intros j cl Hj. cbn in Hj. lia.
  - apply Forall_forall. intros cl Hcl. destruct (Hwf cl Hcl) as [Hne Hnz].
    split; [done|]. rewrite Forall_forall in Hnz |- *. intros l Hl. split; [auto|].
    apply elem_of_union. right. apply elem_of_formulaVars. eauto.
  - intros v Hv. cbn in Hv. by apply elem_of_nil in Hv.
  - intros v [Hv|Hv]%elem_of_union; [by apply not_elem_of_empty in Hv|].
    apply elem_of_formulaVars in Hv as (cl & l & Hcl & Hl & <-).
    destruct (Hwf cl Hcl) as [_ Hnz]. rewrite Forall_forall in Hnz.
    specialize (Hnz l Hl). unfold litVar. lia.
  - done.
Qed.

(** ** More fuel does not change a result *)

Lemma unitPropagate_mono fuel fuel' s s' :
  (fuel <= fuel')%nat -> unitPropagate fuel s = Ret s' -> unitPropagate fuel' s = Ret s'.
Proof.
  revert fuel' s. induction fuel as [|fuel IH]; intros fuel' s Hle; [done|].
  destruct fuel' as [|fuel']; [lia|]. rewrite !unitPropagate_unfold.
  destruct (findUnit (m s) (f s)) as [[cl l]|]; [|done].
  destruct (propagateStep cl l s) as [s1| |]; try done. cbn [mbind Res_bind bindRes].
  destruct (negb _); [done|]. apply IH. lia.
Qed.

Lemma explainLoop_mono fuel fuel' s s' :
  (fuel <= fuel')%nat -> explainLoop fuel s = Ret s' -> explainLoop fuel' s = Ret s'.
Proof.
  revert fuel' s. induction fuel as [|fuel IH]; intros fuel' s Hle; [done|].
  destruct fuel' as [|fuel']; [lia|]. cbn [explainLoop].
  case_bool_decide; [|done]. apply IH. lia.
Qed.

Lemma bindRes_mono {A B} (r r' : Res A) (k k' : A -> Res B) b :
  (forall a, r = Ret a -> r' = Ret a) ->
  (forall a b, k a = Ret b -> k' a = Ret b) ->
  (r ≫= k) = Ret b -> (r' ≫= k') = Ret b.
Proof.
  intros Hr Hk H. apply bindRes_Ret in H as (a & Ha & Hb).
  rewrite (Hr a Ha). cbn. by apply Hk.
Qed.

Lemma solveIter_mono rangeMap fuel fuel' s r :
  (fuel <= fuel')%nat ->
  solveIter rangeMap fuel s = Ret r -> solveIter rangeMap fuel' s = Ret r.
Proof.
  intros Hle. unfold solveIter. apply bindRes_mono.
  - intros a. by apply unitPropagate_mono.
  - intros s1 r'. destruct (negb _); [|done]. cbv zeta.
    case_bool_decide; [done|]. apply bindRes_mono; [|done].
    intros a. unfold applyExplainUIP. apply bindRes_mono; [|done].
    intros a'. by apply explainLoop_mono.
Qed.

(** ** Reachable states satisfy the invariant *)

Section Run.
Variable rangeMap : nat -> gset Z -> list Z.
Hypothesis Henum : enumerates rangeMap.

Lemma solveIter_outcome fuel s r :
  Inv s -> solveIter rangeMap fuel s = Ret r -> iterOutcome s r.
Proof.
  intros HI Hr.
  destruct (solveIter_progress rangeMap Henum (fuel `max` S (size (vars s))) s HI)
    as (r' & Hr' & Hout); [lia|].
  apply (solveIter_mono _ _ (fuel `max` S (size (vars s)))) in Hr; [|lia].
  congruence.
Qed.

Lemma reachable_Inv fuel s0 s :
  Inv s0 -> reachable rangeMap fuel s0 s -> Inv s /\ vars s = vars s0.
Proof.
  intros HI0. induction 1 as [|s s' Hreach [HI Hv] Hstep]; [done|].
  apply solveIter_outcome in Hstep; [|done]. destruct Hstep as (HI' & Hv' & _).
  split; [done|congruence].
Qed.

Lemma solveLoop_outcome fuel steps s b s' :
  Inv s -> solveLoop rangeMap fuel steps s = Ret (b, s') ->
  Inv s' /\ vars s' = vars s /\
  if b then IsZero (IsFormulaFalse (m s') (f s')) = true /\ Len (m s') = size (vars s')
  else IsZero (IsFormulaFalse (m s') (f s')) = false /\ DecisionsLen (m s') = 0%nat.
Proof.
  revert s. induction steps as [|steps IH]; intros s HI; [done|]. cbn [solveLoop].
  intros H. apply bindRes_Ret in H as (r & Hr & H).
  apply solveIter_outcome in Hr; [|done].
  destruct r as [[b0 s0]|s0]; unfold iterOutcome in Hr.
  - injection H as -> ->. tauto.
  - destruct Hr as (HI0 & Hv0 & _). apply IH in H; [|done].
    destruct H as (? & ? & ?). split; [done|]. split; [congruence|done].
Qed.

End Run.

(** C3: [Solve] terminates on every well-formed formula, whatever the order
    of the map loops: with [n] variables, fuel above [n * (n+1)^n + n] is
    never exhausted and no assertion panics, so the loop returns, and it
    returns either true on a full assignment that falsifies no clause or
    false on a conflict with no decision level open.  Every iteration from
    a state the loop reaches returns in one of these two ways, or ends with
    fewer open decision levels (a backjump) or with more assigned variables
    (a decision); each such iteration strictly increases the weight of the
    trail, which never exceeds [n * (n+1)^n]: the loop runs finitely many
    steps. *)
Theorem Solve_terminates (rangeMap : nat -> gset Z -> list Z) (fm : list (list Z)) :
  enumerates rangeMap -> wfFormula fm ->
  let s0 := AddFormula fm New in
  let n := size (vars s0) in
  (forall fuel, (n * S n ^ n + n < fuel)%nat ->
     exists b s', Solve rangeMap fuel s0 = Ret (b, s') /\
       if b then IsZero (IsFormulaFalse (m s') (f s')) = true /\ Len (m s') = n
       else IsZero (IsFormulaFalse (m s') (f s')) = false /\
            DecisionsLen (m s') = 0%nat) /\
  (forall fuel s, (n < fuel)%nat -> reachable rangeMap fuel s0 s ->
     (trailMeasure n (m s) <= n * S n ^ n)%nat /\
     exists r, solveIter rangeMap fuel s = Ret r /\
       match r with
       | inl (true, s') =>
           IsZero (IsFormulaFalse (m s') (f s')) = true /\ Len (m s') = n
       | inl (false, s') =>
           IsZero (IsFormulaFalse (m s') (f s')) = false /\ DecisionsLen (m s') = 0%nat
       | inr s' =>
           ((DecisionsLen (m s') < DecisionsLen (m s))%nat \/
            (Len (m s) < Len (m s'))%nat) /\
           (trailMeasure n (m s) < trailMeasure n (m s'))%nat
       end).
Proof.
  intros Henum Hwf s0 n. pose proof (Inv_init fm Hwf) as HI0. fold s0 in HI0.
  split.
  - intros fuel Hfuel. unfold Solve.
    rewrite bool_decide_eq_false_2 by (intros Hne; by apply Hne).
    destruct (solveLoop_total rangeMap Henum fuel fuel s0 HI0)
      as (b & s' & Hrun & _ & Hv & Hout).
    + fold n. lia.
    + fold n. lia.
    + exists b, s'. split; [done|]. fold n in Hv.
      destruct b; [|done]. destruct Hout as [Hz Hlen]. split; [done|].
      by rewrite Hlen, Hv.
  - intros fuel s Hfuel Hreach.
    destruct (reachable_Inv rangeMap Henum fuel s0 s HI0 Hreach) as [HI Hv].
    split.
    { apply trailMeasure_bound. pose proof (Inv_len_le s HI) as Hle.
      unfold Len in Hle. rewrite Hv in Hle. exact Hle. }
    destruct (solveIter_progress rangeMap Henum fuel s HI) as (r & Hr & Hout).
    + rewrite Hv. fold n. lia.
    + exists r. split; [done|]. unfold iterOutcome in Hout. rewrite Hv in Hout.
      fold n in Hout.
      destruct r as [[[] s']|s'].
      * destruct Hout as (_ & Hv' & Hz & Hlen). split; [done|]. by rewrite Hlen, Hv'.
      * tauto.
      * tauto.
Qed.

Lemma Solve_terminates_witness :
  let s0 := AddFormula [[1; 2]; [-1; 2]; [-2; 3]] New in
  let n := size (vars s0) in
  (forall fuel, (n * S n ^ n + n < fuel)%nat ->
     exists b s', Solve inOrder fuel s0 = Ret (b, s') /\
       if b then IsZero (IsFormulaFalse (m s') (f s')) = true /\ Len (m s') = n
       else IsZero (IsFormulaFalse (m s') (f s')) = false /\
            DecisionsLen (m s') = 0%nat) /\
  (forall fuel s, (n < fuel)%nat -> reachable inOrder fuel s0 s ->
     (trailMeasure n (m s) <= n * S n ^ n)%nat /\
     exists r, solveIter inOrder fuel s = Ret r /\
       match r with
       | inl (true, s') =>
           IsZero (IsFormulaFalse (m s') (f s')) = true /\ Len (m s') = n
       | inl (false, s') =>
           IsZero (IsFormulaFalse (m s') (f s')) = false /\ DecisionsLen (m s') = 0%nat
       | inr s' =>
           ((DecisionsLen (m s') < DecisionsLen (m s))%nat \/
            (Len (m s) < Len (m s'))%nat) /\
           (trailMeasure n (m s) < trailMeasure n (m s'))%nat
       end).
Proof.
  apply (Solve_terminates inOrder [[1; 2]; [-1; 2]; [-2; 3]]).
  - intros k X. reflexivity.
  - apply (bool_decide_unpack _). vm_compute. exact I.
Defined.

(** ** Soundness *)

Lemma all_assigned s v :
  Inv s -> Len (m s) = size (vars s) -> v ∈ vars s -> v ∈ trailVars (m s).
Proof.
  intros HI Hlen Hv.
  assert (Heq : list_to_set (trailVars (m s)) = vars s).
  { apply set_subseteq_size_eq.
    - intros x Hx%elem_of_list_to_set. by apply (inv_trail_vars _ HI).
    - rewrite size_list_to_set by (apply wf_nodup, HI).
      unfold trailVars. rewrite length_fmap. unfold Len in Hlen. lia. }
  rewrite <- Heq in Hv. by apply elem_of_list_to_set in Hv.
Qed.

(** C2: when [Solve] returns true on a well-formed formula, the trail it
    leaves satisfies a literal in every clause of that formula. *)
Theorem Solve_sound (rangeMap : nat -> gset Z -> list Z) (fuel : nat)
    (fm : list (list Z)) (s' : Solver) :
  enumerates rangeMap -> wfFormula fm ->
  Solve rangeMap fuel (AddFormula fm New) = Ret (true, s') ->
  forall cl, cl ∈ fm -> clauseSat (m s') cl.
Proof.
  intros Henum Hwf Hsolve cl Hcl.
  pose proof (Inv_init fm Hwf) as HI0.
  unfold Solve in Hsolve.
  rewrite bool_decide_eq_false_2 in Hsolve by (intros Hne; by apply Hne).
  destruct (solveLoop_formula rangeMap _ _ _ _ _ Hsolve) as (learned & Hf & _).
  apply (solveLoop_outcome rangeMap Henum) in Hsolve as (HI' & Hv' & Hz & Hlen); [|done].
  assert (Hin : cl ∈ f s').
  { rewrite Hf. apply elem_of_app. left. unfold AddFormula. fields. done. }
  destruct (IsFormulaFalse_spec (m s') (f s')) as [[_ Hall]|[Hzf _]];
    [eapply formulaOK_nonempty, HI'| |congruence].
  specialize (Hall cl Hin). apply IsClauseFalse_false in Hall as (l & Hl & Hnf).
  exists l. split; [done|].
  destruct (formulaOK_lit _ _ _ _ (inv_formula _ HI') Hin Hl) as [_ Hvar].
  apply (all_assigned s' _ HI' Hlen) in Hvar.
  destruct (value (m s') l) eqn:Hval; [done|done|].
  apply value_undef in Hval. done.
Qed.

Lemma Solve_sound_witness :
  Forall
    (clauseSat
       (m (getRet (false, New)
             (Solve inOrder 20 (AddFormula [[1; 2]; [-1; 2]; [-2; 3]] New))).2))
    [[1; 2]; [-1; 2]; [-2; 3]].
Proof.
  apply Forall_forall.
  apply (Solve_sound inOrder 20 [[1; 2]; [-1; 2]; [-2; 3]]).
  - intros k X. reflexivity.
  - apply (bool_decide_unpack _). vm_compute. exact I.
  - vm_compute. reflexivity.
Defined.

(** ** Conflict analysis and backjump in a run of the solver *)

Lemma ascending_enumerates : enumerates ascending.
Proof. intros n X. unfold ascending. apply merge_sort_Permutation. Qed.

Lemma addConflictLiteral_level0 l t :
  Level (m t) (Negate l) = 0%nat -> addConflictLiteral l t = t.
Proof.
  intros H0. unfold addConflictLiteral. case_bool_decide; [done|].
  rewrite H0. by rewrite bool_decide_eq_false_2 by lia.
Qed.

Lemma applyConflict_cN_pos cl s l :
  l ∈ cl -> (0 < Level (m s) (Negate l))%nat ->
  Level (m s) (Negate l) = CurrentLevel (m s) ->
  1 <= cN (applyConflict cl s).
Proof.
  intros Hl Hpos Hcur.
  pose proof (applyConflict_AInv cl s) as HA.
  destruct (applyConflict_frame cl s) as (Hm & _).
  rewrite (a_N _ (a_core _ HA)).
  assert (Hin : l ∈ cH (applyConflict cl s) ∖ cP (applyConflict cl s)).
  { apply elem_of_difference. split; [by apply applyConflict_cH|].
    intros [_ Hne]%(a_P _ (a_core _ HA)). apply Hne. by rewrite Hm. }
  assert (size (cH (applyConflict cl s) ∖ cP (applyConflict cl s)) ≠ 0%nat); [|lia].
  intros Hsz%size_empty_iff. set_solver.
Qed.

Lemma explain_cN_ge s :
  AInv s -> cH s ≠ ∅ -> cN s - 1 <= cN (applyExplain (cL s) s).
Proof.
  intros HA HneH.
  pose proof (applyExplain_AInv s HA HneH) as HA'.
  destruct (applyExplain_frame (cL s) s) as [Hm' _].
  rewrite (a_N _ (a_core _ HA')), (a_N _ (a_core _ HA)).
  set (s' := applyExplain (cL s) s) in *.
  assert (Hsub : (cH s ∖ cP s) ∖ {[Negate (cL s)]} ⊆ cH s' ∖ cP s').
  { intros x [[Hx HnP]%elem_of_difference Hne%not_elem_of_singleton]%elem_of_difference.
    apply elem_of_difference. split.
    - apply applyExplain_cH. by left.
    - intros [_ Hlv]%(a_P _ (a_core _ HA')). rewrite Hm' in Hlv.
      apply HnP, (a_P _ (a_core _ HA)). by split. }
  apply subseteq_size in Hsub.
  pose proof (size_difference_singleton_ge (cH s ∖ cP s) (Negate (cL s))). lia.
Qed.

Lemma cN_pos_nonempty s : AInv s -> 1 <= cN s -> cH s ≠ ∅.
Proof.
  intros HA HN Heq. rewrite (a_N _ (a_core _ HA)), Heq in HN.
  replace (∅ ∖ cP s : gset Z) with (∅ : gset Z) in HN by set_solver.
  rewrite size_empty in HN. lia.
Qed.

Lemma analysing_AInv s t :
  AInv s -> 1 <= cN s -> analysing s t ->
  AInv t /\ 1 <= cN t /\ m t = m s /\ reasonMap t = reasonMap s /\ f t = f s.
Proof.
  intros HA HN. induction 1 as [|t Han (HAt & HNt & Hmt & HRt & Hft) Hne].
  - done.
  - pose proof (cN_pos_nonempty t HAt HNt) as HneH.
    destruct (applyExplain_shape (cL t) t) as (H' & P' & N' & L' & Heq).
    split; [by apply applyExplain_AInv|]. split.
    + pose proof (explain_cN_ge t HAt HneH). lia.
    + rewrite Heq. fields. done.
Qed.

Lemma explainLoop_analysing fuel s s' :
  explainLoop fuel s = Ret s' -> analysing s s' /\ cN s' = 1.
Proof.
  intros Hrun.
  assert (Hgen : forall t, analysing s t -> explainLoop fuel t = Ret s' ->
                   analysing s s' /\ cN s' = 1).
  { clear Hrun. induction fuel as [|fuel IH]; intros t Han; [done|].
    cbn [explainLoop]. case_bool_decide as Hne.
    - apply IH. by constructor.
    - intros [= <-]. split; [done|]. destruct (decide (cN t = 1)); tauto. }
  apply (Hgen s); [constructor|done].
Qed.

(** The state in which [applyExplainUIP] returns. *)
Lemma applyExplainUIP_result rangeMap fuel s2 s3 :
  enumerates rangeMap -> AInv s2 -> 1 <= cN s2 ->
  applyExplainUIP rangeMap fuel s2 = Ret s3 ->
  AInv s3 /\ cN s3 = 1 /\ m s3 = m s2 /\ reasonMap s3 = reasonMap s2 /\ f s3 = f s2 /\
  exists keys, c s3 = keys ++ [Negate (cL s3)] /\ keys ≡ₚ elements (cP s3) /\
    (forall l, l ∈ keys <-> l ∈ cP s3).
Proof.
  intros Henum HA HN H3.
  apply applyExplainUIP_shape in H3 as (s' & Hrun & ->).
  apply explainLoop_analysing in Hrun as [Han HN'].
  destruct (analysing_AInv s2 s' HA HN Han) as (HA' & _ & Hm' & HR' & Hf').
  split; [by apply (AInv_ext s')|]. fields.
  repeat (split; [done|]).
  exists (rangeMap (clock s') (cP s')). split; [done|]. split; [apply Henum|].
  intros l. by apply enumerates_elem.
Qed.

Lemma run_Inv_s1 rangeMap fm fuel s s1 :
  enumerates rangeMap -> wfFormula fm ->
  reachable rangeMap fuel (AddFormula fm New) s ->
  unitPropagate fuel s = Ret s1 -> Inv s1.
Proof.
  intros Henum Hwf Hreach Hprop.
  destruct (reachable_Inv rangeMap Henum fuel _ s (Inv_init fm Hwf) Hreach) as [HI _].
  apply (unitPropagate_mono _ (fuel `max` S (size (vars s)))) in Hprop; [|lia].
  destruct (unitPropagate_total (fuel `max` S (size (vars s))) s HI) as (s1' & Hrun & HI1 & _);
    [lia|].
  congruence.
Qed.

Lemma run_conflict_start s1 :
  Inv s1 -> IsZero (IsFormulaFalse (m s1) (f s1)) = false ->
  DecisionsLen (m s1) ≠ 0%nat ->
  AInv (applyConflict (IsFormulaFalse (m s1) (f s1)) s1) /\
  1 <= cN (applyConflict (IsFormulaFalse (m s1) (f s1)) s1).
Proof.
  intros HI1 Hconf Hopen.
  split; [apply applyConflict_AInv|].
  destruct (IsFormulaFalse_spec (m s1) (f s1)) as [[Hz' _]|(_ & Hcl & Hfalse)];
    [eapply formulaOK_nonempty, HI1|congruence|].
  destruct (conflict_has_current s1 _ HI1 Hcl Hfalse) as (l0 & Hl0 & Hl0lv);
    [unfold DecisionsLen in Hopen; lia|].
  apply (applyConflict_cN_pos _ _ l0); unfold Level, CurrentLevel, DecisionsLen in *;
    [done|lia|done].
Qed.

(** C4: in a run of [Solve] on a well-formed formula, when propagation ends
    in a conflict with a decision level open and conflict analysis returns,
    it has stopped at [N = 1]; the learned clause is the literals of [P]
    followed by the negation of [L], and [L] is the most recently asserted
    literal of the trail whose negation is in [H].  In every state the
    analysis goes through, the literals of [H] have their negation asserted
    at a nonzero level, [P] is part of [H], and [N] counts the literals of
    [H] outside [P], which are those of the current level; a literal whose
    negation is at level 0 (or not on the trail) is left out by
    [addConflictLiteral]. *)
Theorem analysis_learned_clause (rangeMap : nat -> gset Z -> list Z)
    (fm : list (list Z)) (fuel : nat) (s s1 s3 : Solver) :
  enumerates rangeMap -> wfFormula fm ->
  reachable rangeMap fuel (AddFormula fm New) s ->
  unitPropagate fuel s = Ret s1 ->
  IsZero (IsFormulaFalse (m s1) (f s1)) = false ->
  DecisionsLen (m s1) ≠ 0%nat ->
  applyExplainUIP rangeMap fuel (applyConflict (IsFormulaFalse (m s1) (f s1)) s1) = Ret s3 ->
  cN s3 = 1 /\
  (exists keys, c s3 = keys ++ [Negate (cL s3)] /\ keys ≡ₚ elements (cP s3)) /\
  (forall x, x ∈ c s3 <-> x ∈ cP s3 \/ x = Negate (cL s3)) /\
  lastAsserted (elems (m s3)) (cH s3) (cL s3) /\
  (forall t, analysing (applyConflict (IsFormulaFalse (m s1) (f s1)) s1) t ->
     (forall l, l ∈ cH t -> (0 < Level (m s1) (Negate l))%nat) /\
     (forall l, l ∈ cP t <-> l ∈ cH t /\ Level (m s1) (Negate l) ≠ CurrentLevel (m s1)) /\
     cN t = Z.of_nat (size (cH t ∖ cP t))) /\
  (forall t l, Level (m t) (Negate l) = 0%nat -> addConflictLiteral l t = t).
Proof.
  intros Henum Hwf Hreach Hprop Hconf Hopen H3.
  pose proof (run_Inv_s1 rangeMap fm fuel s s1 Henum Hwf Hreach Hprop) as HI1.
  destruct (run_conflict_start s1 HI1 Hconf Hopen) as [HA2 HN2].
  destruct (applyConflict_frame (IsFormulaFalse (m s1) (f s1)) s1) as (Hm2 & _).
  destruct (applyExplainUIP_result rangeMap fuel _ s3 Henum HA2 HN2 H3)
    as (HA3 & HN3 & Hm3 & _ & _ & keys & Hc & Hperm & Hkeys).
  split; [done|]. split; [by exists keys|]. split.
  { intros x. rewrite Hc, elem_of_app, Hkeys, list_elem_of_singleton. done. }
  split.
  { apply (a_last _ HA3). apply cN_pos_nonempty; [done|lia]. }
  split.
  - intros t Han. destruct (analysing_AInv _ t HA2 HN2 Han) as (HAt & _ & Hmt & _).
    rewrite Hm2 in Hmt. destruct HAt as [[Hlv HP HN] _]. rewrite Hmt in Hlv, HP. done.
  - intros t l. apply addConflictLiteral_level0.
Qed.

(** C5: in a run of [Solve] on a well-formed formula, after conflict analysis
    (with a decision level open) [applyBackjump] does not panic: the target
    level is the greatest level of the negation of a literal of [P] (0 when
    [P] is empty) and lies below the current level; on the trail trimmed to
    the target the learned clause is unit in the negation of [L] (that
    literal unassigned, every other one falsified); that literal is asserted
    there, at the target level, which is then the current one, with the
    learned clause as its reason, and holds from then on. *)
Theorem backjump_asserts_learned (rangeMap : nat -> gset Z -> list Z)
    (fm : list (list Z)) (fuel : nat) (s s1 s3 : Solver) :
  enumerates rangeMap -> wfFormula fm ->
  reachable rangeMap fuel (AddFormula fm New) s ->
  unitPropagate fuel s = Ret s1 ->
  IsZero (IsFormulaFalse (m s1) (f s1)) = false ->
  DecisionsLen (m s1) ≠ 0%nat ->
  applyExplainUIP rangeMap fuel (applyConflict (IsFormulaFalse (m s1) (f s1)) s1) = Ret s3 ->
  let j := backjumpTarget rangeMap (learnClause s3) in
  (forall p, p ∈ cP s3 -> (Level (m s3) (Negate p) <= j)%nat) /\
  (cP s3 = ∅ -> j = 0%nat) /\
  (cP s3 ≠ ∅ -> exists p, p ∈ cP s3 /\ Level (m s3) (Negate p) = j) /\
  (j < CurrentLevel (m s3))%nat /\
  IsUnit (TrimToLevel j (m s3)) (c s3) (Negate (cL s3)) = true /\
  exists s5, applyBackjump rangeMap (learnClause s3) = Ret s5 /\
    m s5 = {| elems := elems (TrimToLevel j (m s3)) ++ [mkElem (Negate (cL s3)) j];
              decisionsLen := j |} /\
    CurrentLevel (m s5) = j /\
    reasonMap s5 !! Negate (cL s3) = Some (c s3) /\
    value (m s5) (Negate (cL s3)) = TriTrue.
Proof.
  intros Henum Hwf Hreach Hprop Hconf Hopen H3 j.
  pose proof (run_Inv_s1 rangeMap fm fuel s s1 Henum Hwf Hreach Hprop) as HI1.
  destruct (run_conflict_start s1 HI1 Hconf Hopen) as [HA2 HN2].
  destruct (applyConflict_frame (IsFormulaFalse (m s1) (f s1)) s1) as (Hm2 & _).
  destruct (applyExplainUIP_result rangeMap fuel _ s3 Henum HA2 HN2 H3)
    as (HA3 & HN3 & Hm3 & _ & _ & keys & Hc & Hperm & Hkeys).
  set (s4 := learnClause s3) in *.
  assert (Hs4 : m s4 = m s3 /\ cH s4 = cH s3 /\ cP s4 = cP s3 /\ cN s4 = cN s3 /\
                cL s4 = cL s3 /\ c s4 = c s3 /\ reasonMap s4 = reasonMap s3).
  { subst s4. unfold learnClause.
    destruct (bool_decide (1 < length (c s3))%nat); repeat split; reflexivity. }
  destruct Hs4 as (Hm4 & HH4 & HP4 & HN4 & HL4 & Hc4 & HR4).
  assert (HA4 : AInv s4) by (by apply (AInv_ext s3)).
  assert (Hwf4 : trail_wf (m s4)). { rewrite Hm4, Hm3, Hm2. exact (inv_wf _ HI1). }
  assert (HN4' : cN s4 = 1) by congruence.
  assert (Hc4' : c s4 = keys ++ [Negate (cL s4)]) by congruence.
  assert (Hkeys4 : forall l, l ∈ keys <-> l ∈ cP s4) by (intros l; by rewrite HP4).
  destruct (backjumpTarget_spec rangeMap s4 Henum) as (Hall & H0 & Hmax).
  pose proof (target_lt rangeMap Henum s4 Hwf4 HA4 HN4') as Hlt.
  pose proof (learned_unit rangeMap Henum s4 Hwf4 HA4 HN4' keys Hc4' Hkeys4) as Hunit.
  pose proof (applyBackjump_Ret rangeMap Henum s4 Hwf4 HA4 HN4' keys Hc4' Hkeys4) as Hbj.
  fold j in Hall, H0, Hmax, Hlt, Hunit, Hbj.
  clearbody j. clear Hwf4 HA4 HN4' Hc4' Hkeys4.
  rewrite ?Hm4, ?HP4, ?Hc4, ?HL4, ?HR4 in *.
  split; [exact Hall|]. split; [exact H0|]. split; [exact Hmax|].
  split; [exact Hlt|]. split; [exact Hunit|].
  eexists. split; [exact Hbj|]. fields. split; [done|]. split; [done|].
  split; [apply lookup_insert_eq|].
  apply value_true. unfold trailLits. cbn [elems]. rewrite fmap_app.
  apply elem_of_app. right. cbn. by left.
Qed.

(** ** What unit propagation does, round by round *)

Lemma trailAfter_nil M : trailAfter M [] = M.
Proof. unfold trailAfter. rewrite app_nil_r. by destruct M. Qed.

Lemma trailAfter_cons M e new :
  trailAfter M (e :: new) = trailAfter (trailAfter M [e]) new.
Proof. unfold trailAfter. cbn [elems decisionsLen]. by rewrite <- app_assoc. Qed.

(** [findUnit] answers with the first unit clause in formula order and its
    first unit literal. *)
Lemma findUnit_first M fm cl l :
  findUnit M fm = Some (cl, l) ->
  exists pre post, fm = pre ++ cl :: post /\
    (forall c' l', c' ∈ pre -> l' ∈ c' -> IsUnit M c' l' = false) /\
    exists lpre lpost, cl = lpre ++ l :: lpost /\ IsUnit M cl l = true /\
      forall l', l' ∈ lpre -> IsUnit M cl l' = false.
Proof.
  induction fm as [|c0 fm IH]; cbn [findUnit]; [done|].
  destruct (findUnitLit M c0) as [l0|] eqn:Hf.
  - intros [= -> ->]. exists [], fm. split; [done|]. split.
    + intros c' l' Hc'. by apply elem_of_nil in Hc'.
    + unfold findUnitLit in Hf. apply find_first in Hf as (lpre & lpost & Heq & Hu & Hpre).
      exists lpre, lpost. done.
  - intros H. destruct (IH H) as (pre & post & -> & Hpre & Hlit).
    exists (c0 :: pre), post. split; [done|]. split; [|done].
    intros c' l' [->|Hc']%elem_of_cons Hl'; [|eauto].
    unfold findUnitLit in Hf. rewrite find_none in Hf. by apply Hf.
Qed.

Lemma unitPropagate_rounds_aux fuel s s' :
  unitPropagate fuel s = Ret s' ->
  f s' = f s /\
  (forall x, x ∈ trailLits (m s) -> reasonMap s' !! x = reasonMap s !! x) /\
  exists new, m s' = trailAfter (m s) new /\
    (forall k e, new !! k = Some e ->
       Lvl e = CurrentLevel (m s) /\
       exists cl, findUnit (trailAfter (m s) (take k new)) (f s) = Some (cl, Lit e) /\
         reasonMap s' !! Lit e = Some cl /\
         ((0 < k)%nat ->
          IsZero (IsFormulaFalse (trailAfter (m s) (take k new)) (f s)) = true)) /\
    (findUnit (m s') (f s') = None \/
     (new ≠ [] /\ IsZero (IsFormulaFalse (m s') (f s')) = false)).
Proof.
  revert s. induction fuel as [|fuel IH]; intros s; [done|].
  rewrite unitPropagate_unfold.
  destruct (findUnit (m s) (f s)) as [[cl l]|] eqn:Hfind.
  - pose proof (findUnit_Some _ _ _ _ Hfind) as (Hcl & Hl & Hunit).
    rewrite (propagateStep_Ret _ _ _ Hunit). cbn [mbind Res_bind bindRes].
    set (e0 := mkElem l (decisionsLen (m s))).
    set (s1 := withTrail _ _ s).
    assert (Hm1 : m s1 = trailAfter (m s) [e0]) by reflexivity.
    assert (Hf1 : f s1 = f s) by reflexivity.
    assert (HR1 : reasonMap s1 !! l = Some cl) by (subst s1; fields; apply lookup_insert_eq).
    assert (HRold : forall x, x ∈ trailLits (m s) -> reasonMap s1 !! x = reasonMap s !! x).
    { intros x Hx. subst s1. fields. apply lookup_insert_ne. intros <-.
      apply IsUnit_true in Hunit as [Hu _]. apply value_undef in Hu.
      apply Hu, trailVars_lits. by left. }
    assert (Hfirst : forall s'', f s'' = f s -> reasonMap s'' !! l = Some cl ->
              Lvl e0 = CurrentLevel (m s) /\
              exists cl0, findUnit (trailAfter (m s) (take 0 (e0 :: []))) (f s) = Some (cl0, Lit e0) /\
                reasonMap s'' !! Lit e0 = Some cl0 /\
                ((0 < 0)%nat -> IsZero (IsFormulaFalse (trailAfter (m s) []) (f s)) = true)).
    { intros s'' _ HR''. split; [done|]. exists cl. cbn [take]. rewrite trailAfter_nil.
      split; [done|]. split; [done|]. lia. }
    destruct (negb (IsZero (IsFormulaFalse (m s1) (f s1)))) eqn:Hz.
    + intros [= <-]. split; [done|]. split; [done|].
      exists [e0]. split; [done|]. split.
      * intros k e Hk. destruct k as [|k]; [|by destruct k].
        injection Hk as <-. destruct (Hfirst s1 Hf1 HR1) as (Hlv & cl0 & ? & ? & ?).
        split; [done|]. exists cl0. cbn [take]. rewrite trailAfter_nil in *. done.
      * right. split; [done|]. by apply negb_true_iff in Hz.
    + intros Hrun. destruct (IH s1 Hrun) as (Hf' & HR' & new & Hm' & Hrounds & Hstop).
      split; [congruence|]. split.
      { intros x Hx. rewrite HR'; [by apply HRold|].
        rewrite Hm1. unfold trailLits, trailAfter. cbn [elems]. rewrite fmap_app.
        apply elem_of_app. by left. }
      exists (e0 :: new). split.
      { rewrite Hm', Hm1. symmetry. apply trailAfter_cons. }
      split; [|destruct Hstop as [?|[? ?]]; [by left|by right]].
      intros k e Hk. destruct k as [|k].
      * injection Hk as <-.
        assert (HRl : reasonMap s' !! l = Some cl).
        { rewrite HR'; [done|]. rewrite Hm1. unfold trailLits, trailAfter. cbn [elems].
          rewrite fmap_app. apply elem_of_app. right. cbn. by left. }
        destruct (Hfirst s' (eq_trans Hf' Hf1) HRl) as (Hlv & cl0 & ? & ? & ?).
        split; [done|]. exists cl0. cbn [take] in *. done.
      * cbn [lookup list_lookup] in Hk.
        assert (Hk' : new !! k = Some e) by exact Hk.
        destruct (Hrounds k e Hk') as (Hlv & cl0 & Hfu & HRe & Hzk).
        rewrite Hm1, Hf1 in *. rewrite <- trailAfter_cons in Hfu, Hzk.
        split; [done|]. exists cl0. cbn [take]. split; [done|]. split; [done|].
        intros _. destruct k as [|k].
        -- cbn [take]. apply negb_false_iff in Hz. exact Hz.
        -- apply Hzk. lia.
  - intros [= <-]. split; [done|]. split; [done|]. exists []. split.
    + by rewrite trailAfter_nil.
    + split; [|by left]. intros k e Hk. done.
Qed.

(** Outside a run: after [Solve] has answered false on [{[1], [-1], [2]}]
    the trail [1] falsifies the clause [-1]; entered in that state (by a
    second call of [Solve]), [unitPropagate] still asserts the literal 2,
    because it tests for a falsified clause only after an assertion. *)
Lemma unitPropagate_asserts_after_conflict :
  ~ (forall fuel s s',
       unitPropagate fuel s = Ret s' ->
       IsZero (IsFormulaFalse (m s) (f s)) = false ->
       m s' = m s).
Proof.
  intros H.
  set (s := getRet (false, New) (Solve inOrder 10 (AddFormula [[1]; [-1]; [2]] New))).
  specialize (H 5%nat s.2 (getRet New (unitPropagate 5 s.2))).
  assert (Hneq : trailLits (m (getRet New (unitPropagate 5 s.2))) ≠ trailLits (m s.2))
    by (vm_compute; discriminate).
  apply Hneq. f_equal. apply H; vm_compute; reflexivity.
Qed.

(** ** The formula only grows *)

Lemma Solve_formula rangeMap fuel s b s' :
  Solve rangeMap fuel s = Ret (b, s') ->
  exists learned, f s' = f s ++ learned /\ Forall (fun cl => (1 < length cl)%nat) learned.
Proof.
  unfold Solve. case_bool_decide.
  - intros [= _ <-]. exists []. by rewrite app_nil_r.
  - apply solveLoop_formula.
Qed.

(** ** The run [exFormula]: witnesses of the statements about conflicts *)

Lemma exDecided_reachable : reachable ascending 5 (AddFormula exFormula New) exDecided.
Proof.
  apply (reach_step _ _ _ (AddFormula exFormula New)); [apply reach_init|].
  vm_compute. reflexivity.
Qed.

Example exAnalysed_learns : c exAnalysed = [-1] /\ cL exAnalysed = 1 /\ cP exAnalysed = ∅.
Proof. vm_compute. done. Qed.

Example exBackjumped_trail : elems (m exBackjumped) = [mkElem (-1) 0].
Proof. vm_compute. reflexivity. Qed.

Lemma analysis_learned_clause_witness :
  cN exAnalysed = 1 /\
  (exists keys, c exAnalysed = keys ++ [Negate (cL exAnalysed)] /\
     keys ≡ₚ elements (cP exAnalysed)) /\
  (forall x, x ∈ c exAnalysed <-> x ∈ cP exAnalysed \/ x = Negate (cL exAnalysed)) /\
  lastAsserted (elems (m exAnalysed)) (cH exAnalysed) (cL exAnalysed) /\
  (forall t, analysing (applyConflict (IsFormulaFalse (m exPropagated) (f exPropagated))
                          exPropagated) t ->
     (forall l, l ∈ cH t -> (0 < Level (m exPropagated) (Negate l))%nat) /\
     (forall l, l ∈ cP t <->
        l ∈ cH t /\ Level (m exPropagated) (Negate l) ≠ CurrentLevel (m exPropagated)) /\
     cN t = Z.of_nat (size (cH t ∖ cP t))) /\
  (forall t l, Level (m t) (Negate l) = 0%nat -> addConflictLiteral l t = t).
Proof.
  apply (analysis_learned_clause ascending exFormula 5 exDecided exPropagated exAnalysed).
  - intros n X. unfold ascending. apply merge_sort_Permutation.
  - apply (bool_decide_unpack _). vm_compute. exact I.
  - apply (reach_step _ _ _ (AddFormula exFormula New)); [apply reach_init|].
    vm_compute. reflexivity.
  - vm_compute. reflexivity.
  - vm_compute. reflexivity.
  - vm_compute. discriminate.
  - vm_compute. reflexivity.
Defined.

Lemma backjump_asserts_learned_witness :
  let j := backjumpTarget ascending (learnClause exAnalysed) in
  (forall p, p ∈ cP exAnalysed -> (Level (m exAnalysed) (Negate p) <= j)%nat) /\
  (cP exAnalysed = ∅ -> j = 0%nat) /\
  (cP exAnalysed ≠ ∅ -> exists p, p ∈ cP exAnalysed /\ Level (m exAnalysed) (Negate p) = j) /\
  (j < CurrentLevel (m exAnalysed))%nat /\
  IsUnit (TrimToLevel j (m exAnalysed)) (c exAnalysed) (Negate (cL exAnalysed)) = true /\
  exists s5, applyBackjump ascending (learnClause exAnalysed) = Ret s5 /\
    m s5 = {| elems := elems (TrimToLevel j (m exAnalysed)) ++
                         [mkElem (Negate (cL exAnalysed)) j];
              decisionsLen := j |} /\
    CurrentLevel (m s5) = j /\
    reasonMap s5 !! Negate (cL exAnalysed) = Some (c exAnalysed) /\
    value (m s5) (Negate (cL exAnalysed)) = TriTrue.
Proof.
  apply (backjump_asserts_learned ascending exFormula 5 exDecided exPropagated exAnalysed).
  - intros n X. unfold ascending. apply merge_sort_Permutation.
  - apply (bool_decide_unpack _). vm_compute. exact I.
  - apply (reach_step _ _ _ (AddFormula exFormula New)); [apply reach_init|].
    vm_compute. reflexivity.
  - vm_compute. reflexivity.
  - vm_compute. reflexivity.
  - vm_compute. discriminate.
  - vm_compute. reflexivity.
Defined.

(** ** The scenarios of [TestSolve_table] *)

Example table_empty : (Solve inOrder 50 (AddFormula [] New) ≫= fun r => Ret r.1) = Ret true.
Proof. vm_compute. reflexivity. Qed.

Example table_single :
  (Solve inOrder 50 (AddFormula [[4]] New) ≫= fun r => Ret (r.1, value (m r.2) 4))
  = Ret (true, TriTrue).
Proof. vm_compute. reflexivity. Qed.

Example table_unsat :
  (Solve inOrder 50 (AddFormula [[4]; [6]; [-4; -6]] New) ≫= fun r => Ret r.1) = Ret false.
Proof. vm_compute. reflexivity. Qed.

Example table_sat_backtrack :
  (Solve inOrder 50 (AddFormula [[-4]; [4; -6]] New)
     ≫= fun r => Ret (r.1, value (m r.2) 4, value (m r.2) 6, DecisionsLen (m r.2)))
  = Ret (true, TriFalse, TriFalse, 0%nat).
Proof. vm_compute. reflexivity. Qed.

Example table_complex :
  (Solve inOrder 50
     (AddFormula [[-3; 4]; [-1; -3; 5]; [-2; -4; -5]; [-2; 3; 5; -6]; [-1; 2];
                  [-1; 3; -5; -6]; [1; -6]; [1; 7]] New) ≫= fun r => Ret r.1) = Ret true.
Proof. vm_compute. reflexivity. Qed.

Example table_complex_descending :
  (Solve descending 50
     (AddFormula [[-3; 4]; [-1; -3; 5]; [-2; -4; -5]; [-2; 3; 5; -6]; [-1; 2];
                  [-1; 3; -5; -6]; [1; -6]; [1; 7]] New) ≫= fun r => Ret r.1) = Ret true.
Proof. vm_compute. reflexivity. Qed.

Example table_complex_ascending :
  (Solve ascending 50
     (AddFormula [[-3; 4]; [-1; -3; 5]; [-2; -4; -5]; [-2; 3; 5; -6]; [-1; 2];
                  [-1; 3; -5; -6]; [1; -6]; [1; 7]] New)
     ≫= fun r => Ret (r.1, length (f r.2))) = Ret (true, 9%nat).
Proof. vm_compute. reflexivity. Qed.

(** ** Learned clauses follow from the formula *)

Lemma litTrue_Negate v l : l ≠ 0 -> litTrue v (Negate l) = negb (litTrue v l).
Proof.
  intros Hl. unfold litTrue, Negate.
  destruct (bool_decide (0 < l)) eqn:H1; destruct (bool_decide (0 < - l)) eqn:H2;
    try apply bool_decide_eq_true in H1; try apply bool_decide_eq_true in H2;
    try apply bool_decide_eq_false in H1; try apply bool_decide_eq_false in H2;
    try lia.
  - by rewrite Z.opp_involutive.
  - by rewrite negb_involutive.
Qed.

Lemma Ent_init fm : Ent fm (AddFormula fm New).
Proof.
  split; unfold AddFormula, New, newTrail; fields.
  - intros cl Hcl v Hv. apply Hv. by rewrite app_nil_l in Hcl.
  - intros l cl Hl. by rewrite lookup_empty in Hl.
  - intros e v He. by apply elem_of_nil in He.
  - intros i j a b _ Ha. by rewrite lookup_nil in Ha.
Qed.

(** A literal falsified by a level-0 entry is false in every valuation that
    satisfies the formula. *)
Lemma ent_false_lit fm s v l :
  Ent fm s -> trail_wf (m s) -> models v fm ->
  value (m s) l = TriFalse -> Level (m s) (Negate l) = 0%nat ->
  litTrue v l = false.
Proof.
  intros HE Hwf Hv Hval Hlv.
  apply value_false_wf in Hval; [|done].
  apply elem_of_trailLits in Hval as (e & He & Hle).
  assert (Hl0 : l ≠ 0).
  { intros ->. apply (wf_lit_nonzero _ _ Hwf He). by rewrite Hle. }
  unfold Level in Hlv. rewrite <- Hle, set_elem in Hlv by (auto using wf_nodup).
  pose proof (ent_zero _ _ HE e v He Hlv Hv) as Ht.
  rewrite Hle, litTrue_Negate in Ht by done. by destruct (litTrue v l).
Qed.

Lemma set_le_decisions M l : trail_wf M -> (set M l <= decisionsLen M)%nat.
Proof.
  intros Hwf. destruct (set_spec M l) as [(e & He & _ & <-)|[_ ->]]; [|lia].
  by apply (proj1 (Forall_forall _ _) (wf_bound _ Hwf) e).
Qed.

Lemma is_Some_insert (R : gmap Z (list Z)) k k' cl :
  is_Some (R !! k) -> is_Some (<[k' := cl]> R !! k).
Proof. intros H. apply lookup_insert_is_Some. destruct (decide (k' = k)); auto. Qed.

Lemma ent_has_snoc (R : gmap Z (list Z)) es e cl :
  (forall i j a b, (i < j)%nat -> es !! i = Some a -> es !! j = Some b ->
     Lvl a = Lvl b -> is_Some (R !! Lit b)) ->
  forall i j a b, (i < j)%nat -> (es ++ [e]) !! i = Some a -> (es ++ [e]) !! j = Some b ->
    Lvl a = Lvl b -> is_Some (<[Lit e := cl]> R !! Lit b).
Proof.
  intros Hold i j a b Hij Ha Hb Hlv.
  apply lookup_snoc_Some in Hb as [Hb|[-> ->]].
  - apply is_Some_insert. apply lookup_snoc_Some in Ha as [Ha|[-> ->]].
    + eauto.
    + apply lookup_lt_Some in Hb. lia.
  - rewrite lookup_insert_eq. eauto.
Qed.

Lemma propagateStep_Ent fm cl l s :
  Inv s -> Ent fm s -> cl ∈ f s -> l ∈ cl -> IsUnit (m s) cl l = true ->
  Ent fm (withTrail {| elems := elems (m s) ++ [mkElem l (decisionsLen (m s))];
                       decisionsLen := decisionsLen (m s) |}
                    (<[l := cl]> (reasonMap s)) s).
Proof.
  intros HI HE Hcl Hl Hunit. pose proof (inv_wf _ HI) as Hwf.
  apply IsUnit_true in Hunit as [Hundef Hothers].
  split; fields.
  - apply HE.
  - intros l' cl' [[_ <-]|[_ Hl']]%lookup_insert_Some.
    + by apply (ent_f _ _ HE).
    + by apply (ent_reason _ _ HE l').
  - intros e v [He| ->%list_elem_of_singleton]%elem_of_app Hlv Hv.
    + by apply (ent_zero _ _ HE).
    + fields. destruct (ent_f _ _ HE cl Hcl v Hv) as (x & Hx & Hxt).
      destruct (decide (x = l)) as [->|Hne]; [done|].
      rewrite (ent_false_lit fm s v x) in Hxt; try done; [by apply Hothers|].
      pose proof (set_le_decisions (m s) (Negate x) Hwf). unfold Level. lia.
  - apply (ent_has_snoc (reasonMap s) (elems (m s)) (mkElem l (decisionsLen (m s)))).
    apply HE.
Qed.

Lemma unitPropagate_Ent fm fuel s s' :
  Inv s -> Ent fm s -> unitPropagate fuel s = Ret s' -> Inv s' /\ Ent fm s'.
Proof.
  revert s. induction fuel as [|fuel IH]; intros s HI HE; [done|].
  rewrite unitPropagate_unfold.
  destruct (findUnit (m s) (f s)) as [[cl l]|] eqn:Hfind; [|by intros [= <-]].
  apply findUnit_Some in Hfind as (Hcl & Hl & Hunit).
  rewrite (propagateStep_Ret cl l s Hunit). cbn [mbind Res_bind bindRes].
  pose proof (propagateStep_Inv cl l s HI Hcl Hl Hunit) as HI1.
  pose proof (propagateStep_Ent fm cl l s HI HE Hcl Hl Hunit) as HE1.
  destruct (negb _); [by intros [= <-]|]. by apply IH.
Qed.

Lemma Ent_ext fm s s' :
  Ent fm s -> m s' = m s -> reasonMap s' = reasonMap s -> f s' = f s -> Ent fm s'.
Proof. intros [H1 H2 H3 H4] Hm HR Hf. split; rewrite ?Hm, ?HR, ?Hf; done. Qed.

(** A conflict with no decision level open refutes the formula. *)
Lemma conflict_zero_unsat fm s :
  Inv s -> Ent fm s -> IsZero (IsFormulaFalse (m s) (f s)) = false ->
  DecisionsLen (m s) = 0%nat -> ~ satisfiable fm.
Proof.
  intros HI HE Hz Hdl [v Hv]. pose proof (inv_wf _ HI) as Hwf.
  destruct (IsFormulaFalse_spec (m s) (f s)) as [[Hz' _]|(_ & Hcl & Hfalse)];
    [eapply formulaOK_nonempty, HI|congruence|].
  destruct (ent_f _ _ HE _ Hcl v Hv) as (x & Hx & Hxt).
  rewrite IsClauseFalse_true in Hfalse.
  rewrite (ent_false_lit fm s v x) in Hxt; try done; [by apply Hfalse|].
  pose proof (set_le_decisions (m s) (Negate x) Hwf).
  unfold Level, DecisionsLen in *. lia.
Qed.

Lemma applyConflict_HEnt fm cl s :
  Inv s -> Ent fm s -> cl ∈ f s -> IsClauseFalse (m s) cl = true ->
  HEnt fm (applyConflict cl s).
Proof.
  intros HI HE Hcl Hfalse v Hv. pose proof (inv_wf _ HI) as Hwf.
  destruct (ent_f _ _ HE _ Hcl v Hv) as (x & Hx & Hxt).
  rewrite IsClauseFalse_true in Hfalse.
  exists x. split; [|done]. apply applyConflict_cH. split; [done|].
  destruct (Level (m s) (Negate x)) eqn:Hlv; [|lia].
  rewrite (ent_false_lit fm s v x) in Hxt; try done. by apply Hfalse.
Qed.

(** One resolution step keeps the working set a consequence of the formula. *)
Lemma applyExplain_HEnt fm t :
  trail_wf (m t) -> reasonsValid (reasonMap t) (m t) -> Ent fm t -> AInv t ->
  2 <= cN t -> HEnt fm t -> HEnt fm (applyExplain (cL t) t).
Proof.
  intros Hwf HR HE HA HN HH v Hv.
  destruct (HH v Hv) as (l & Hl & Hlt).
  destruct (decide (l = Negate (cL t))) as [->|Hne].
  2:{ exists l. split; [|done]. apply applyExplain_cH. by left. }
  assert (HneH : cH t ≠ ∅) by set_solver.
  destruct (a_last _ HA HneH) as (i & Hlast).
  pose proof Hlast as (e & Hie & HLe & _ & _).
  destruct (last_not_decision t Hwf HA i e HN Hlast Hie) as (p & a & Hpi & Hpa & Hlv).
  destruct (ent_has _ _ HE p i a e Hpi Hpa Hie Hlv) as [r Hr].
  rewrite HLe in Hr.
  destruct (ent_reason _ _ HE _ _ Hr v Hv) as (x & Hx & Hxt).
  assert (HL0 : cL t ≠ 0).
  { rewrite <- HLe. apply (wf_lit_nonzero _ _ Hwf). by eapply list_elem_of_lookup_2. }
  rewrite litTrue_Negate in Hlt by done.
  assert (Hxne : x ≠ cL t) by (intros ->; rewrite Hxt in Hlt; done).
  assert (Hxf : value (m t) x = TriFalse).
  { apply value_false_wf; [done|].
    destruct (HR p i a e Hpi Hpa Hie Hlv x) as (j & e' & _ & Hje' & Hle').
    - by rewrite HLe, Hr.
    - by rewrite HLe.
    - apply elem_of_trailLits. exists e'. split; [|done]. by eapply list_elem_of_lookup_2. }
  exists x. split; [|done]. apply applyExplain_cH. right.
  rewrite Hr. split; [done|]. split; [done|].
  destruct (Level (m t) (Negate x)) eqn:Hlvx; [|lia].
  rewrite (ent_false_lit fm t v x) in Hxt; done.
Qed.

Lemma analysing_HEnt fm s t :
  trail_wf (m s) -> reasonsValid (reasonMap s) (m s) -> Ent fm s -> AInv s ->
  1 <= cN s -> HEnt fm s -> analysing s t -> HEnt fm t.
Proof.
  intros Hwf HR HE HA HN HH. induction 1 as [|t Ht IH Hne]; [done|].
  destruct (analysing_AInv s t HA HN Ht) as (HAt & HNt & Hmt & HRt & Hft).
  apply applyExplain_HEnt; try done.
  - by rewrite Hmt.
  - by rewrite Hmt, HRt.
  - by apply (Ent_ext fm s).
  - lia.
Qed.

(** At the first unique implication point the learned clause follows from
    the formula. *)
Lemma learned_entails fm s keys :
  trail_wf (m s) -> AInv s -> cN s = 1 -> HEnt fm s ->
  (forall l, l ∈ keys <-> l ∈ cP s) ->
  entails fm (keys ++ [Negate (cL s)]).
Proof.
  intros Hwf HA HN HH Hkeys v Hv.
  destruct (HH v Hv) as (l & Hl & Hlt). exists l. split; [|done].
  apply elem_of_app. destruct (decide (l ∈ cP s)) as [HP|HP]; [left; by apply Hkeys|right].
  apply list_elem_of_singleton.
  destruct (uip_facts s Hwf HA HN) as (_ & _ & _ & HLH & HLP & _).
  pose proof (a_N _ (a_core _ HA)) as HNs. rewrite HN in HNs.
  assert (Hsz : size (cH s ∖ cP s) = 1%nat) by lia.
  apply size_1_elem_of in Hsz as [x Hx].
  assert (H1 : l ∈ cH s ∖ cP s) by (by apply elem_of_difference).
  assert (H2 : Negate (cL s) ∈ cH s ∖ cP s) by (by apply elem_of_difference).
  rewrite Hx in H1, H2. apply elem_of_singleton in H1, H2. congruence.
Qed.

Lemma conflict_branch_Ent rangeMap fm fuel s1 s3 s5 :
  enumerates rangeMap -> Inv s1 -> Ent fm s1 ->
  IsZero (IsFormulaFalse (m s1) (f s1)) = false ->
  DecisionsLen (m s1) ≠ 0%nat ->
  applyExplainUIP rangeMap fuel (applyConflict (IsFormulaFalse (m s1) (f s1)) s1) = Ret s3 ->
  applyBackjump rangeMap (learnClause s3) = Ret s5 ->
  entails fm (c s3) /\ Ent fm s5.
Proof.
  intros Henum HI HE Hz Hdl H3 H5. pose proof (inv_wf _ HI) as Hwf.
  set (cl := IsFormulaFalse (m s1) (f s1)) in *.
  destruct (IsFormulaFalse_spec (m s1) (f s1)) as [[Hz' _]|(_ & Hcl & Hfalse)];
    [eapply formulaOK_nonempty, HI|subst cl; congruence|]. fold cl in Hcl, Hfalse.
  destruct (run_conflict_start s1 HI Hz Hdl) as [HA2 HN2]. fold cl in HA2, HN2.
  set (s2 := applyConflict cl s1) in *.
  destruct (applyConflict_frame cl s1) as (Hm2 & HR2 & Hf2 & Hv2 & Hd2).
  fold s2 in Hm2, HR2, Hf2, Hv2, Hd2.
  pose proof (applyConflict_HEnt fm cl s1 HI HE Hcl Hfalse) as HH2. fold s2 in HH2.
  assert (HE2 : Ent fm s2) by (by apply (Ent_ext fm s1)).
  apply applyExplainUIP_shape in H3 as (s' & Hrun & Hs3).
  apply explainLoop_analysing in Hrun as [Han HN'].
  destruct (analysing_AInv s2 s' HA2 HN2 Han) as (HA' & _ & Hm' & HR' & Hf').
  assert (HH' : HEnt fm s').
  { apply (analysing_HEnt fm s2); try done; [by rewrite Hm2|by rewrite Hm2, HR2; apply HI]. }
  set (keys := rangeMap (clock s') (cP s')) in *.
  assert (Hkeys' : forall l, l ∈ keys <-> l ∈ cP s') by (intros l; apply enumerates_elem, Henum).
  assert (Hwf' : trail_wf (m s')) by (by rewrite Hm', Hm2).
  pose proof (learned_entails fm s' keys Hwf' HA' HN' HH' Hkeys') as Hlearn.
  assert (Hc3 : c s3 = keys ++ [Negate (cL s')]) by (by rewrite Hs3).
  split; [by rewrite Hc3|].
  set (s4 := learnClause s3) in *.
  assert (Hs4 : m s4 = m s1 /\ reasonMap s4 = reasonMap s1 /\
                cH s4 = cH s' /\ cP s4 = cP s' /\
                cN s4 = cN s' /\ cL s4 = cL s' /\ c s4 = keys ++ [Negate (cL s')] /\
                f s4 = if bool_decide (1 < length (c s4))%nat then f s1 ++ [c s4] else f s1).
  { subst s4. rewrite Hs3. unfold learnClause. fields.
    destruct (bool_decide (1 < length (keys ++ [Negate (cL s')]))%nat) eqn:Hb; fields;
      rewrite ?Hb, ?Hm', ?HR', ?Hf', ?Hm2, ?HR2, ?Hf2; repeat split; done. }
  destruct Hs4 as (Hm4 & HR4 & HH4 & HP4 & HN4 & HL4 & Hc4 & Hf4).
  assert (HA4 : AInv s4). { apply (AInv_ext s'); auto. congruence. }
  assert (Hkeys : forall l, l ∈ keys <-> l ∈ cP s4) by (intros l; by rewrite HP4).
  rewrite <- HL4 in Hc4. rewrite <- HN4 in HN'.
  assert (Hwf4 : trail_wf (m s4)) by (by rewrite Hm4).
  rewrite (applyBackjump_Ret rangeMap Henum s4 Hwf4 HA4 HN' keys Hc4 Hkeys) in H5.
  injection H5 as <-.
  assert (Hlearn4 : entails fm (c s4)) by (by rewrite Hc4, HL4).
  split; fields.
  - intros cl0 Hcl0.
    assert (Hin : cl0 ∈ f s4) by (by destruct (bool_decide (0 < size (cP s4))%nat)).
    rewrite Hf4 in Hin. case_bool_decide.
    + apply elem_of_app in Hin as [Hin| ->%list_elem_of_singleton]; [|done].
      by apply (ent_f _ _ HE).
    + by apply (ent_f _ _ HE).
  - intros l cl0 Hl.
    assert (Hl' : <[Negate (cL s4) := c s4]> (reasonMap s4) !! l = Some cl0)
      by (by destruct (bool_decide (0 < size (cP s4))%nat)).
    apply lookup_insert_Some in Hl' as [[_ <-]|[_ Hl']]; [done|].
    rewrite HR4 in Hl'. by apply (ent_reason _ _ HE l).
  - intros e v [He| ->%list_elem_of_singleton]%elem_of_app Hlv Hv.
    + apply Trim_elem_of in He as [He _]; [|done]. rewrite Hm4 in He.
      by apply (ent_zero _ _ HE).
    + fields.
      destruct (backjumpTarget_spec rangeMap s4 Henum) as (_ & _ & Hmax).
      assert (HP0 : cP s4 = ∅).
      { destruct (decide (cP s4 = ∅)) as [|Hne]; [done|].
        destruct (Hmax Hne) as (p & Hp & Hset).
        destruct (uip_facts s4 Hwf4 HA4 HN') as (_ & _ & _ & _ & _ & Hlow).
        destruct (Hlow p Hp) as [_ Hrange]. lia. }
      destruct (Hlearn4 v Hv) as (x & Hx & Hxt).
      rewrite Hc4 in Hx. apply elem_of_app in Hx as [Hx| ->%list_elem_of_singleton]; [|done].
      apply Hkeys in Hx. rewrite HP0 in Hx. by apply not_elem_of_empty in Hx.
  - assert (Hold : forall i j a b, (i < j)%nat ->
              elems (TrimToLevel (backjumpTarget rangeMap s4) (m s4)) !! i = Some a ->
              elems (TrimToLevel (backjumpTarget rangeMap s4) (m s4)) !! j = Some b ->
              Lvl a = Lvl b -> is_Some (reasonMap s4 !! Lit b)).
    { intros i j a b Hij Ha Hb Hlv.
      apply Trim_lookup in Ha as [Ha _]; [|done]. apply Trim_lookup in Hb as [Hb _]; [|done].
      rewrite Hm4 in Ha, Hb. rewrite HR4. by apply (ent_has _ _ HE i j a b). }
    intros i j a b Hij Ha Hb Hlv.
    assert (HR5 : reasonMap (if bool_decide (0 < size (cP s4))%nat then tick s4 else s4)
                  = reasonMap s4) by (by destruct (bool_decide (0 < size (cP s4))%nat)).
    pose proof (ent_has_snoc (reasonMap s4) _
                  (mkElem (Negate (cL s4)) (backjumpTarget rangeMap s4)) (c s4) Hold
                  i j a b Hij Ha Hb Hlv) as Hres.
    exact Hres.
Qed.

Lemma decide_Ent fm lit s1 s2 s3 :
  trail_wf (m s1) -> Ent fm s1 ->
  m s2 = m s1 -> reasonMap s2 = reasonMap s1 -> f s2 = f s1 ->
  assertLiteral lit true s2 = Ret s3 -> Ent fm s3.
Proof.
  intros Hwf HE Hm HR Hf H3.
  apply assertLiteral_shape in H3 as (M & HM & ->).
  apply Assert_Ret in HM as [_ ->]. rewrite Hm.
  split; fields; rewrite ?Hf, ?HR.
  - apply HE.
  - apply HE.
  - intros e v [He| ->%list_elem_of_singleton]%elem_of_app Hlv Hv.
    + by apply (ent_zero _ _ HE).
    + fields. lia.
  - intros i j a b Hij Ha Hb Hlv.
    apply lookup_snoc_Some in Hb as [Hb|[-> ->]].
    + apply lookup_snoc_Some in Ha as [Ha|[-> ->]].
      * by apply (ent_has _ _ HE i j a b).
      * apply lookup_lt_Some in Hb. lia.
    + apply lookup_snoc_Some in Ha as [Ha|[-> _]]; [|lia].
      apply list_elem_of_lookup_2 in Ha.
      pose proof (proj1 (Forall_forall _ _) (wf_bound _ Hwf) a Ha) as Hbd.
      simpl in Hbd. fields. lia.
Qed.

Section Entailment.
Variable rangeMap : nat -> gset Z -> list Z.
Hypothesis Henum : enumerates rangeMap.
Variable fm : list (list Z).

Lemma solveIter_Ent fuel s r :
  Inv s -> Ent fm s -> solveIter rangeMap fuel s = Ret r ->
  match r with
  | inl (b, s') => Ent fm s' /\ (b = false -> ~ satisfiable fm)
  | inr s' => Ent fm s'
  end.
Proof.
  intros HI HE Hr.
  apply solveIter_cases in Hr as (s1 & H1 & Hcases). cbv zeta in Hcases.
  apply (unitPropagate_Ent fm) in H1 as [HI1 HE1]; try done.
  destruct Hcases as [(Hz & [[Hdl ->]|(Hdl & s3 & s5 & H3 & H5 & ->)])
                     |(Hz & [[Hlen ->]|(Hlen & lit & s2 & s3 & Hsel & H3 & ->)])].
  - split.
    + destruct (applyConflict_frame (IsFormulaFalse (m s1) (f s1)) s1) as (? & ? & ? & _).
      by apply (Ent_ext fm s1).
    + intros _. by apply (conflict_zero_unsat fm s1).
  - by destruct (conflict_branch_Ent rangeMap fm fuel s1 s3 s5).
  - split; [done|]. done.
  - apply selectLiteral_shape in Hsel.
    apply (decide_Ent fm lit s1 s2 s3); try done; [apply HI1|..];
      rewrite Hsel; by destruct (decideLiterals s1).
Qed.

Lemma solveLoop_Ent fuel steps s b s' :
  Inv s -> Ent fm s -> solveLoop rangeMap fuel steps s = Ret (b, s') ->
  Ent fm s' /\ (b = false -> ~ satisfiable fm).
Proof.
  revert s. induction steps as [|steps IH]; intros s HI HE; [done|]. cbn [solveLoop].
  intros H. apply bindRes_Ret in H as (r & Hr & H).
  pose proof (solveIter_outcome rangeMap Henum fuel s r HI Hr) as Hout.
  pose proof (solveIter_Ent fuel s r HI HE Hr) as HEr.
  destruct r as [[b0 s0]|s0]; unfold iterOutcome in Hout.
  - by injection H as -> ->.
  - destruct Hout as (HI0 & _). by apply (IH s0).
Qed.

End Entailment.

(** ** The answer of [Solve] *)

Lemma Solve_fresh rangeMap fuel fm :
  Solve rangeMap fuel (AddFormula fm New) = solveLoop rangeMap fuel fuel (AddFormula fm New).
Proof.
  unfold Solve. rewrite bool_decide_eq_false_2; [done|]. intros Hne. by apply Hne.
Qed.

Lemma f_AddFormula_New fm : f (AddFormula fm New) = fm.
Proof. done. Qed.

Lemma vars_AddFormula_New fm x : x ∈ vars (AddFormula fm New) <-> x ∈ formulaVars fm.
Proof. unfold AddFormula, New. fields. set_solver. Qed.

Lemma trailValuation_lit M l :
  trail_wf M -> l ∈ trailLits M -> litTrue (trailValuation M) l = true.
Proof.
  intros Hwf Hl. unfold litTrue, trailValuation. case_bool_decide as Hpos.
  - by apply bool_decide_eq_true.
  - apply negb_true_iff, bool_decide_eq_false. by apply (wf_consistent M l).
Qed.

(** When the loop answers true, every clause of the current formula holds a
    literal of the trail. *)
Lemma true_outcome_lit s cl :
  Inv s -> IsZero (IsFormulaFalse (m s) (f s)) = true -> Len (m s) = size (vars s) ->
  cl ∈ f s -> exists l, l ∈ cl /\ l ∈ trailLits (m s).
Proof.
  intros HI Hz Hlen Hin.
  destruct (IsFormulaFalse_spec (m s) (f s)) as [[_ Hall]|[Hzf _]];
    [eapply formulaOK_nonempty, HI| |congruence].
  specialize (Hall cl Hin). apply IsClauseFalse_false in Hall as (l & Hl & Hnf).
  exists l. split; [done|]. apply value_true.
  destruct (formulaOK_lit _ _ _ _ (inv_formula _ HI) Hin Hl) as [_ Hvar].
  apply (all_assigned s _ HI Hlen) in Hvar.
  destruct (value (m s) l) eqn:Hval; [done|done|].
  apply value_undef in Hval. done.
Qed.

Lemma true_outcome_models s :
  Inv s -> IsZero (IsFormulaFalse (m s) (f s)) = true -> Len (m s) = size (vars s) ->
  models (trailValuation (m s)) (f s).
Proof.
  intros HI Hz Hlen cl Hcl.
  destruct (true_outcome_lit s cl HI Hz Hlen Hcl) as (l & Hl & Hlt).
  exists l. split; [done|]. apply trailValuation_lit; [apply HI|done].
Qed.

Lemma models_app v fm fm' : models v (fm ++ fm') -> models v fm.
Proof. intros H cl Hcl. apply H, elem_of_app. by left. Qed.

(** The facts about a run of [Solve] on a fresh solver that the statements
    below share. *)
Lemma Solve_run rangeMap fuel fm b s' :
  enumerates rangeMap -> wfFormula fm ->
  Solve rangeMap fuel (AddFormula fm New) = Ret (b, s') ->
  Inv s' /\ Ent fm s' /\ vars s' = vars (AddFormula fm New) /\
  (exists learned, f s' = fm ++ learned) /\
  (b = true -> models (trailValuation (m s')) fm /\ Len (m s') = size (vars s')) /\
  (b = false -> ~ satisfiable fm /\
     IsZero (IsFormulaFalse (m s') (f s')) = false /\ DecisionsLen (m s') = 0%nat).
Proof.
  intros Henum Hwf Hsolve. rewrite Solve_fresh in Hsolve.
  pose proof (Inv_init fm Hwf) as HI0. pose proof (Ent_init fm) as HE0.
  destruct (solveLoop_formula rangeMap _ _ _ _ _ Hsolve) as (learned & Hf & _).
  rewrite f_AddFormula_New in Hf.
  destruct (solveLoop_Ent rangeMap Henum fm _ _ _ _ _ HI0 HE0 Hsolve) as [HE' Hunsat].
  apply (solveLoop_outcome rangeMap Henum) in Hsolve as (HI' & Hv' & Hout); [|done].
  split; [done|]. split; [done|]. split; [done|]. split; [by exists learned|].
  split.
  - intros ->. destruct Hout as [Hz Hlen]. split; [|done].
    apply (models_app _ fm learned). rewrite <- Hf. by apply true_outcome_models.
  - intros ->. split; [by apply Hunsat|done].
Qed.

(** X1: When [Solve] answers false on a fresh solver, no valuation of the
    variables satisfies the formula it was given: a conflict with no
    decision level open refutes the formula, because every literal asserted
    at level 0 and every learned clause follows from it. *)
Theorem Solve_false_unsatisfiable (rangeMap : nat -> gset Z -> list Z) (fuel : nat)
    (fm : list (list Z)) (s' : Solver) :
  enumerates rangeMap -> wfFormula fm ->
  Solve rangeMap fuel (AddFormula fm New) = Ret (false, s') ->
  ~ satisfiable fm.
Proof.
  intros Henum Hwf Hsolve.
  destruct (Solve_run rangeMap fuel fm false s' Henum Hwf Hsolve) as (_ & _ & _ & _ & _ & Hf).
  by apply Hf.
Qed.

Lemma Solve_false_unsatisfiable_witness : ~ satisfiable exUnsat.
Proof.
  apply (Solve_false_unsatisfiable inOrder 20 exUnsat (solved inOrder 20 exUnsat)).
  - intros k X. reflexivity.
  - apply (bool_decide_unpack _). vm_compute. exact I.
  - vm_compute. reflexivity.
Defined.

(** X2: [Solve] decides satisfiability: with [n] variables and fuel above
    [n * (n+1)^n + n] it returns, and it answers true exactly when some
    valuation satisfies the formula, whatever the order of the map loops. *)
Theorem Solve_decides (rangeMap : nat -> gset Z -> list Z) (fm : list (list Z))
    (fuel : nat) :
  enumerates rangeMap -> wfFormula fm ->
  (size (vars (AddFormula fm New)) * S (size (vars (AddFormula fm New)))
     ^ size (vars (AddFormula fm New)) + size (vars (AddFormula fm New)) < fuel)%nat ->
  exists b s', Solve rangeMap fuel (AddFormula fm New) = Ret (b, s') /\
    (b = true <-> satisfiable fm).
Proof.
  intros Henum Hwf Hfuel. pose proof (Inv_init fm Hwf) as HI0.
  destruct (solveLoop_total rangeMap Henum fuel fuel (AddFormula fm New) HI0)
    as (b & s' & Hrun & _); [lia|lia|].
  rewrite <- Solve_fresh in Hrun. exists b, s'. split; [done|].
  destruct (Solve_run rangeMap fuel fm b s' Henum Hwf Hrun) as (_ & _ & _ & _ & Ht & Hf).
  destruct b.
  - split; [|done]. intros _. exists (trailValuation (m s')). by apply Ht.
  - split; [done|]. intros Hsat. by destruct Hf.
Qed.

Lemma Solve_decides_witness :
  exists b s', Solve descending 200 (AddFormula exSat New) = Ret (b, s') /\
    (b = true <-> satisfiable exSat).
Proof.
  apply (Solve_decides descending exSat 200).
  - intros k X. unfold descending. rewrite reverse_Permutation. apply merge_sort_Permutation.
  - apply (bool_decide_unpack _). vm_compute. exact I.
  - vm_compute. lia.
Defined.

(** X3: The answer does not depend on the order in which Go visits the keys of
    its maps: two runs on the same formula, under any two orders, return the
    same boolean (the trails they end with may differ). *)
Theorem Solve_answer_order_independent (rangeMap1 rangeMap2 : nat -> gset Z -> list Z)
    (fuel1 fuel2 : nat) (fm : list (list Z)) (b1 b2 : bool) (s1 s2 : Solver) :
  enumerates rangeMap1 -> enumerates rangeMap2 -> wfFormula fm ->
  Solve rangeMap1 fuel1 (AddFormula fm New) = Ret (b1, s1) ->
  Solve rangeMap2 fuel2 (AddFormula fm New) = Ret (b2, s2) ->
  b1 = b2.
Proof.
  intros Henum1 Henum2 Hwf H1 H2.
  destruct (Solve_run rangeMap1 fuel1 fm b1 s1 Henum1 Hwf H1) as (_ & _ & _ & _ & Ht1 & Hf1).
  destruct (Solve_run rangeMap2 fuel2 fm b2 s2 Henum2 Hwf H2) as (_ & _ & _ & _ & Ht2 & Hf2).
  destruct b1, b2; try done.
  - destruct (Hf2 eq_refl) as [Hunsat _]. exfalso. apply Hunsat.
    exists (trailValuation (m s1)). by apply Ht1.
  - destruct (Hf1 eq_refl) as [Hunsat _]. exfalso. apply Hunsat.
    exists (trailValuation (m s2)). by apply Ht2.
Qed.

Lemma Solve_answer_order_independent_witness :
  (getRet (false, New) (Solve ascending 30 (AddFormula exSat New))).1 =
  (getRet (true, New) (Solve descending 20 (AddFormula exSat New))).1.
Proof.
  apply (Solve_answer_order_independent ascending descending 30 20 exSat _ _
           (solved ascending 30 exSat) (solved descending 20 exSat)).
  - intros k X. unfold ascending. apply merge_sort_Permutation.
  - intros k X. unfold descending. rewrite reverse_Permutation. apply merge_sort_Permutation.
  - apply (bool_decide_unpack _). vm_compute. exact I.
  - vm_compute. reflexivity.
  - vm_compute. reflexivity.
Defined.

(** X4: When [Solve] answers true, the trail is a total and consistent
    assignment that satisfies the formula: it holds exactly the variables of
    the formula, each once, never a literal together with its negation, and
    the valuation it stands for satisfies every clause. *)
Theorem Solve_true_assignment (rangeMap : nat -> gset Z -> list Z) (fuel : nat)
    (fm : list (list Z)) (s' : Solver) :
  enumerates rangeMap -> wfFormula fm ->
  Solve rangeMap fuel (AddFormula fm New) = Ret (true, s') ->
  models (trailValuation (m s')) fm /\
  NoDup (trailVars (m s')) /\
  (forall x, x ∈ trailVars (m s') <-> x ∈ formulaVars fm) /\
  (forall l, l ∈ trailLits (m s') -> Negate l ∉ trailLits (m s')).
Proof.
  intros Henum Hwf Hsolve.
  destruct (Solve_run rangeMap fuel fm true s' Henum Hwf Hsolve)
    as (HI & _ & Hv & _ & Ht & _).
  destruct (Ht eq_refl) as [Hmod Hlen].
  split; [done|]. split; [apply HI|]. split.
  - intros x. rewrite <- vars_AddFormula_New, <- Hv. split.
    + apply HI.
    + by apply all_assigned.
  - intros l. apply wf_consistent, HI.
Qed.

Lemma Solve_true_assignment_witness :
  models (trailValuation (m (solved inOrder 20 exSat))) exSat /\
  NoDup (trailVars (m (solved inOrder 20 exSat))) /\
  (forall x, x ∈ trailVars (m (solved inOrder 20 exSat)) <-> x ∈ formulaVars exSat) /\
  (forall l, l ∈ trailLits (m (solved inOrder 20 exSat)) ->
     Negate l ∉ trailLits (m (solved inOrder 20 exSat))).
Proof.
  apply (Solve_true_assignment inOrder 20 exSat (solved inOrder 20 exSat)).
  - intros k X. reflexivity.
  - apply (bool_decide_unpack _). vm_compute. exact I.
  - vm_compute. reflexivity.
Defined.

(** X5: The formula [Solve] ends with is equivalent to the one it was given: the
    clauses it learned are consequences of the original ones, which it
    keeps. *)
Theorem Solve_formula_equivalent (rangeMap : nat -> gset Z -> list Z) (fuel : nat)
    (fm : list (list Z)) (b : bool) (s' : Solver) :
  enumerates rangeMap -> wfFormula fm ->
  Solve rangeMap fuel (AddFormula fm New) = Ret (b, s') ->
  forall v, models v (f s') <-> models v fm.
Proof.
  intros Henum Hwf Hsolve v.
  destruct (Solve_run rangeMap fuel fm b s' Henum Hwf Hsolve)
    as (_ & HE & _ & [learned Hf] & _).
  split.
  - rewrite Hf. apply models_app.
  - intros Hv cl Hcl. by apply (ent_f _ _ HE cl Hcl v).
Qed.

Lemma Solve_formula_equivalent_witness :
  models (trailValuation (m (solved ascending 30 exLearn))) (f (solved ascending 30 exLearn))
  <-> models (trailValuation (m (solved ascending 30 exLearn))) exLearn.
Proof.
  apply (Solve_formula_equivalent ascending 30 exLearn true (solved ascending 30 exLearn)).
  - intros k X. unfold ascending. apply merge_sort_Permutation.
  - apply (bool_decide_unpack _). vm_compute. exact I.
  - vm_compute. reflexivity.
Defined.

(** ** Calling [Solve] again *)

Lemma full_trail_no_unit s :
  Inv s -> Len (m s) = size (vars s) -> findUnit (m s) (f s) = None.
Proof.
  intros HI Hlen. apply findUnit_None. intros cl l Hcl Hl.
  destruct (IsUnit (m s) cl l) eqn:Hu; [|done].
  apply IsUnit_true in Hu as [Hundef _]. apply value_undef in Hundef.
  destruct (formulaOK_lit _ _ _ _ (inv_formula _ HI) Hcl Hl) as [_ Hvar].
  by apply (all_assigned s _ HI Hlen) in Hvar.
Qed.

Lemma IsFormulaFalse_nonzero M fm cl :
  Forall (fun cl => cl ≠ []) fm -> cl ∈ fm -> IsClauseFalse M cl = true ->
  IsZero (IsFormulaFalse M fm) = false.
Proof.
  intros Hne Hcl Hfalse.
  destruct (IsFormulaFalse_spec M fm Hne) as [[_ Hall]|[Hz _]]; [|done].
  rewrite (Hall cl Hcl) in Hfalse. done.
Qed.

(** A falsified clause stays falsified when an unassigned literal is
    asserted. *)
Lemma IsClauseFalse_snoc M cl l lv d :
  value M l = Undef -> IsClauseFalse M cl = true ->
  IsClauseFalse {| elems := elems M ++ [mkElem l lv]; decisionsLen := d |} cl = true.
Proof.
  intros Hundef Hfalse. rewrite IsClauseFalse_true in *. intros x Hx.
  specialize (Hfalse x Hx). apply value_false in Hfalse as [Hnot Hneg].
  apply value_undef in Hundef.
  apply value_false. unfold trailLits in *. cbn [elems]. rewrite fmap_app. cbn.
  split.
  - intros [Hin| ->%list_elem_of_singleton]%elem_of_app; [done|].
    apply Hundef, trailVars_lits. by right.
  - apply elem_of_app. by left.
Qed.

Lemma unitPropagate_conflict_stays fuel s :
  Inv s -> IsZero (IsFormulaFalse (m s) (f s)) = false ->
  exists s', unitPropagate (S fuel) s = Ret s' /\ Inv s' /\
    IsZero (IsFormulaFalse (m s') (f s')) = false /\
    decisionsLen (m s') = decisionsLen (m s).
Proof.
  intros HI Hz. rewrite unitPropagate_unfold.
  destruct (findUnit (m s) (f s)) as [[cl l]|] eqn:Hfind; [|by exists s].
  apply findUnit_Some in Hfind as (Hcl & Hl & Hunit).
  rewrite (propagateStep_Ret cl l s Hunit). cbn [mbind Res_bind bindRes].
  pose proof (propagateStep_Inv cl l s HI Hcl Hl Hunit) as HI1.
  set (s1 := withTrail _ _ s) in *.
  assert (Hz1 : IsZero (IsFormulaFalse (m s1) (f s1)) = false).
  { destruct (IsFormulaFalse_spec (m s) (f s)) as [[Hz' _]|(_ & Hcl0 & Hfalse)];
      [eapply formulaOK_nonempty, HI|congruence|].
    apply (IsFormulaFalse_nonzero _ _ (IsFormulaFalse (m s) (f s))).
    - eapply formulaOK_nonempty, HI1.
    - done.
    - subst s1. fields. apply IsClauseFalse_snoc; [|done].
      apply IsUnit_true in Hunit. apply Hunit. }
  rewrite Hz1. cbn [negb]. exists s1. done.
Qed.

Lemma solveIter_again_true rangeMap fuel s :
  Inv s -> IsZero (IsFormulaFalse (m s) (f s)) = true -> Len (m s) = size (vars s) ->
  solveIter rangeMap (S fuel) s = Ret (inl (true, s)).
Proof.
  intros HI Hz Hlen. unfold solveIter.
  rewrite unitPropagate_unfold, (full_trail_no_unit s HI Hlen).
  cbn [mbind Res_bind bindRes]. rewrite Hz. cbn [negb].
  by rewrite bool_decide_eq_true_2.
Qed.

Lemma solveIter_again_false rangeMap fuel s :
  Inv s -> IsZero (IsFormulaFalse (m s) (f s)) = false -> DecisionsLen (m s) = 0%nat ->
  exists s', solveIter rangeMap (S fuel) s = Ret (inl (false, s')).
Proof.
  intros HI Hz Hdl. unfold solveIter.
  destruct (unitPropagate_conflict_stays fuel s HI Hz) as (s1 & -> & HI1 & Hz1 & Hdl1).
  cbn [mbind Res_bind bindRes]. rewrite Hz1. cbn [negb].
  destruct (applyConflict_frame (IsFormulaFalse (m s1) (f s1)) s1) as (Hm2 & _).
  rewrite bool_decide_eq_true_2; [by eexists|].
  rewrite Hm2. unfold DecisionsLen in *. congruence.
Qed.

(** X6: A second call of [Solve] on the same solver returns the same answer as
    the first, under any order of the map loops, although the first answer
    was not stored and the loop is entered again.  After the answer true the
    solver is left as it was; after the answer false the second call may
    assert further literals before it meets the conflict again. *)
Theorem Solve_again_same_answer (rangeMap rangeMap' : nat -> gset Z -> list Z)
    (fuel fuel' : nat) (fm : list (list Z)) (b : bool) (s1 : Solver) :
  enumerates rangeMap -> wfFormula fm ->
  Solve rangeMap fuel (AddFormula fm New) = Ret (b, s1) ->
  (0 < fuel')%nat ->
  exists s2, Solve rangeMap' fuel' s1 = Ret (b, s2) /\ (b = true -> s2 = s1).
Proof.
  intros Henum Hwf Hsolve Hfuel.
  pose proof (Solve_result_unchanged rangeMap fuel _ b s1 Hsolve) as Hres.
  destruct (Solve_run rangeMap fuel fm b s1 Henum Hwf Hsolve) as (HI & _ & _ & _ & _ & Hf).
  rewrite Solve_fresh in Hsolve.
  apply (solveLoop_outcome rangeMap Henum) in Hsolve as (_ & _ & Hout);
    [|by apply Inv_init].
  destruct fuel' as [|k]; [lia|].
  unfold Solve. rewrite Hres. rewrite bool_decide_eq_false_2 by (intros Hne; by apply Hne).
  cbn [solveLoop]. destruct b.
  - destruct Hout as [Hz Hlen]. rewrite (solveIter_again_true rangeMap' k s1 HI Hz Hlen).
    by exists s1.
  - destruct Hout as [Hz Hdl].
    destruct (solveIter_again_false rangeMap' k s1 HI Hz Hdl) as (s2 & ->).
    by exists s2.
Qed.

Lemma Solve_again_same_answer_witness :
  exists s2, Solve descending 1 (solved inOrder 20 exUnsat) = Ret (false, s2) /\
    (false = true -> s2 = solved inOrder 20 exUnsat).
Proof.
  apply (Solve_again_same_answer inOrder descending 20 1 exUnsat false).
  - intros k X. reflexivity.
  - apply (bool_decide_unpack _). vm_compute. exact I.
  - vm_compute. reflexivity.
  - lia.
Defined.

(** ** The decision heuristic at its edges *)

(** X9: With an override sequence, [selectLiteral] takes its head and leaves the
    tail, without looking at the variables; it panics exactly when that head
    is itself the number of an assigned variable.  On a trail whose literals
    are nonzero and within the range Go's [int] negates without wrapping
    (above the least 64-bit integer) that is: when the head is a positive
    literal whose variable is assigned; a negative head is always
    returned. *)
Theorem selectLiteral_override (rangeMap : nat -> gset Z -> list Z) (s : Solver)
    (r : Z) (rest : list Z) :
  decideLiterals s = r :: rest ->
  Forall (fun e => Lit e ≠ 0 /\ - 2 ^ 63 < Lit e < 2 ^ 63) (elems (m s)) ->
  (selectLiteral rangeMap s = Panic <-> 0 < r /\ litVar r ∈ trailVars (m s)) /\
  (~ (0 < r /\ litVar r ∈ trailVars (m s)) ->
     selectLiteral rangeMap s = Ret (r, setDecideLiterals rest s)).
Proof.
  intros Hd Hnz. unfold selectLiteral. rewrite Hd.
  assert (Hiff : r ∈ tMapOf (m s) <-> 0 < r /\ litVar r ∈ trailVars (m s)).
  { rewrite elem_of_tMapOf. split.
    - intros Hr. pose proof Hr as Hr'.
      apply elem_of_trailVars in Hr as (e & He & Hle).
      pose proof (proj1 (Forall_forall _ _) Hnz e He) as [Hne _]. simpl in Hne.
      assert (0 < r) by (unfold litVar in Hle; lia).
      split; [done|]. unfold litVar. by rewrite Z.abs_eq by lia.
    - intros [Hpos Hin]. unfold litVar in Hin. by rewrite Z.abs_eq in Hin by lia. }
  case_bool_decide as Hin.
  - split; [by rewrite <- Hiff|]. intros Hn. by rewrite <- Hiff in Hn.
  - split; [|done]. split; [done|]. by rewrite <- Hiff.
Qed.

Lemma selectLiteral_override_witness :
  (selectLiteral inOrder overrideState = Panic <->
     0 < -4 /\ litVar (-4) ∈ trailVars (m overrideState)) /\
  (~ (0 < -4 /\ litVar (-4) ∈ trailVars (m overrideState)) ->
     selectLiteral inOrder overrideState = Ret (-4, setDecideLiterals [] overrideState)).
Proof.
  apply (selectLiteral_override inOrder overrideState (-4) []).
  - reflexivity.
  - apply (bool_decide_unpack _). vm_compute. exact I.
Defined.

(** X10: Without an override, [selectLiteral] never panics, and it returns the
    literal 0 exactly when every variable of the solver is assigned (the
    loop over the variables finds nothing and falls through to the final
    [return]). *)
Theorem selectLiteral_exhausted (rangeMap : nat -> gset Z -> list Z) (s : Solver) :
  enumerates rangeMap -> decideLiterals s = [] -> 0 ∉ vars s ->
  exists lit, selectLiteral rangeMap s = Ret (lit, tick s) /\
    (lit = 0 <-> forall v, v ∈ vars s -> v ∈ trailVars (m s)).
Proof.
  intros Henum Hd H0. unfold selectLiteral, rangeKeys. rewrite Hd.
  destruct (find _ _) as [k|] eqn:Hfind.
  - exists k. split; [done|].
    apply find_first in Hfind as (before & after & Hkeys & Hk & _).
    apply bool_decide_eq_true in Hk.
    assert (Hkin : k ∈ vars s).
    { apply (enumerates_elem rangeMap (clock s)); [done|]. rewrite Hkeys.
      apply elem_of_app. right. by left. }
    split.
    + intros ->. done.
    + intros Hall. exfalso. apply Hk, elem_of_tMapOf. by apply Hall.
  - exists 0. split; [done|]. split; [|done]. intros _ v Hv.
    rewrite find_none in Hfind.
    assert (Hvk : v ∈ rangeMap (clock s) (vars s)) by (by apply enumerates_elem).
    specialize (Hfind v Hvk). apply bool_decide_eq_false in Hfind.
    apply elem_of_tMapOf. by apply dec_stable.
Qed.

Lemma selectLiteral_exhausted_witness :
  exists lit, selectLiteral inOrder (solved inOrder 20 exSat)
              = Ret (lit, tick (solved inOrder 20 exSat)) /\
    (lit = 0 <-> forall v, v ∈ vars (solved inOrder 20 exSat) ->
                   v ∈ trailVars (m (solved inOrder 20 exSat))).
Proof.
  apply (selectLiteral_exhausted inOrder (solved inOrder 20 exSat)).
  - intros k X. reflexivity.
  - vm_compute. reflexivity.
  - apply (bool_decide_unpack _). vm_compute. exact I.
Defined.

(** ** The conflict working set *)

(** X11: [applyConflict] on a clause that the trail falsifies (the clause
    [IsFormulaFalse] hands to it) rebuilds the working set from the clause
    alone, whatever it held before: [H] is the set of the literals of the
    clause whose negation reads a level above 0, [P] those of them off the
    current level, [N] the number of the others, a literal that occurs twice
    in the clause being counted once; [L] is the last asserted literal whose
    negation is in [H]; the trail, the formula and the reasons are left
    alone.  (On a falsified clause every level read is that of a literal
    standing on the trail.) *)
Theorem applyConflict_working_set (cl : list Z) (s : Solver) :
  IsClauseFalse (m s) cl = true ->
  (forall x, x ∈ cH (applyConflict cl s) <->
     x ∈ cl /\ (0 < Level (m s) (Negate x))%nat) /\
  (forall x, x ∈ cP (applyConflict cl s) <->
     x ∈ cl /\ (0 < Level (m s) (Negate x))%nat /\
     Level (m s) (Negate x) ≠ CurrentLevel (m s)) /\
  cN (applyConflict cl s) =
    Z.of_nat (size (cH (applyConflict cl s) ∖ cP (applyConflict cl s))) /\
  (cH (applyConflict cl s) ≠ ∅ ->
     lastAsserted (elems (m s)) (cH (applyConflict cl s)) (cL (applyConflict cl s))) /\
  m (applyConflict cl s) = m s /\ f (applyConflict cl s) = f s /\
  reasonMap (applyConflict cl s) = reasonMap s.
Proof.
  intros _.
  destruct (applyConflict_frame cl s) as (Hm & HR & Hf & _).
  pose proof (applyConflict_AInv cl s) as [[Hlv HP HN] Hlast].
  split; [apply applyConflict_cH|].
  split.
  { intros x. rewrite HP, applyConflict_cH, Hm. tauto. }
  split; [done|]. split; [by rewrite <- Hm|]. done.
Qed.

Lemma applyConflict_working_set_witness :
  (forall x, x ∈ cH (applyConflict [-1; -2; -3] exLearnPropagated) <->
     x ∈ [-1; -2; -3] /\ (0 < Level (m exLearnPropagated) (Negate x))%nat) /\
  (forall x, x ∈ cP (applyConflict [-1; -2; -3] exLearnPropagated) <->
     x ∈ [-1; -2; -3] /\ (0 < Level (m exLearnPropagated) (Negate x))%nat /\
     Level (m exLearnPropagated) (Negate x) ≠ CurrentLevel (m exLearnPropagated)) /\
  cN (applyConflict [-1; -2; -3] exLearnPropagated) =
    Z.of_nat (size (cH (applyConflict [-1; -2; -3] exLearnPropagated)
                    ∖ cP (applyConflict [-1; -2; -3] exLearnPropagated))) /\
  (cH (applyConflict [-1; -2; -3] exLearnPropagated) ≠ ∅ ->
     lastAsserted (elems (m exLearnPropagated))
       (cH (applyConflict [-1; -2; -3] exLearnPropagated))
       (cL (applyConflict [-1; -2; -3] exLearnPropagated))) /\
  m (applyConflict [-1; -2; -3] exLearnPropagated) = m exLearnPropagated /\
  f (applyConflict [-1; -2; -3] exLearnPropagated) = f exLearnPropagated /\
  reasonMap (applyConflict [-1; -2; -3] exLearnPropagated) = reasonMap exLearnPropagated.
Proof.
  apply (applyConflict_working_set [-1; -2; -3] exLearnPropagated).
  vm_compute. reflexivity.
Defined.

(** X12: Adding a literal to the working set twice is adding it once. *)
Theorem addConflictLiteral_idempotent (l : Z) (s : Solver) :
  addConflictLiteral l (addConflictLiteral l s) = addConflictLiteral l s.
Proof.
  destruct (decide (l ∈ cH s)) as [Hin|Hin].
  { assert (Heq : addConflictLiteral l s = s).
    { unfold addConflictLiteral. by rewrite bool_decide_eq_true_2. }
    by rewrite !Heq. }
  destruct (decide (0 < Level (m s) (Negate l))%nat) as [Hpos|Hpos].
  - assert (Hin' : l ∈ cH (addConflictLiteral l s)).
    { rewrite addConflictLiteral_cH, bool_decide_eq_true_2 by done. set_solver. }
    unfold addConflictLiteral at 1. by rewrite bool_decide_eq_true_2.
  - assert (Heq : addConflictLiteral l s = s).
    { unfold addConflictLiteral.
      by rewrite bool_decide_eq_false_2, (bool_decide_eq_false_2 _ Hpos). }
    by rewrite !Heq.
Qed.



(** ** Unit propagation reaches a fixpoint *)

(** X14: When [unitPropagate] has returned and the trail falsifies no clause, no
    clause is unit any more: calling it again changes nothing. *)
Theorem unitPropagate_fixpoint (fuel fuel' : nat) (s s' : Solver) :
  unitPropagate fuel s = Ret s' ->
  IsZero (IsFormulaFalse (m s') (f s')) = true ->
  unitPropagate (S fuel') s' = Ret s'.
Proof.
  intros Hrun Hz.
  destruct (unitPropagate_rounds_aux fuel s s' Hrun) as (_ & _ & new & _ & _ & Hend).
  destruct Hend as [Hnone|(_ & Hz')]; [|congruence].
  by rewrite unitPropagate_unfold, Hnone.
Qed.

Lemma unitPropagate_fixpoint_witness :
  unitPropagate 1 (getRet New (unitPropagate 5 (AddFormula [[-4]; [4; -6]] New)))
  = Ret (getRet New (unitPropagate 5 (AddFormula [[-4]; [4; -6]] New))).
Proof.
  apply (unitPropagate_fixpoint 5 0 (AddFormula [[-4]; [4; -6]] New)).
  - vm_compute. reflexivity.
  - vm_compute. reflexivity.
Defined.

(** ** One explain step is a resolution step *)

(** X21: [applyExplain] on the last asserted literal [L] resolves the working
    set with the reason recorded for [L]: the negation of [L] leaves [H], and
    the literals of the reason other than [L] whose negation reads a level
    above 0 enter it; nothing else changes in [H].  When no reason is
    recorded for [L] (the map read gives the nil clause) the step only
    removes the negation of [L].  The trail and the reasons are left
    alone. *)
Theorem applyExplain_resolution (s : Solver) :
  (forall x, x ∈ cH (applyExplain (cL s) s) <->
     (x ∈ cH s /\ x ≠ Negate (cL s)) \/
     (x ∈ default [] (reasonMap s !! cL s) /\ x ≠ cL s /\
      (0 < Level (m s) (Negate x))%nat)) /\
  (reasonMap s !! cL s = None ->
     cH (applyExplain (cL s) s) = cH s ∖ {[Negate (cL s)]}) /\
  m (applyExplain (cL s) s) = m s /\
  reasonMap (applyExplain (cL s) s) = reasonMap s.
Proof.
  split; [apply applyExplain_cH|]. split; [|apply applyExplain_frame].
  intros Hnone. apply set_eq. intros x.
  rewrite applyExplain_cH, Hnone, elem_of_difference, elem_of_singleton. cbn.
  split.
  - intros [?|[[]%elem_of_nil _]]. done.
  - intros ?. by left.
Qed.

(** ** What every iteration of the loop starts from *)

Lemma reachable_Ent rangeMap fuel fm s :
  enumerates rangeMap -> wfFormula fm ->
  reachable rangeMap fuel (AddFormula fm New) s -> Inv s /\ Ent fm s.
Proof.
  intros Henum Hwf. induction 1 as [|s s' Hreach [HI HE] Hstep].
  - split; [by apply Inv_init|apply Ent_init].
  - split.
    + pose proof (solveIter_outcome rangeMap Henum fuel s _ HI Hstep) as Hout.
      apply Hout.
    + apply (solveIter_Ent rangeMap Henum fm fuel s _ HI HE Hstep).
Qed.

(** X7: The loop of [Solve] keeps these invariants: at the start of every
    iteration the trail assigns no variable twice, holds only nonzero
    literals over the variables of the formula, and never a literal with its
    negation; levels never decrease along the trail and stay within
    the open decision levels; the trail is no longer than the number of
    variables; every entry that is not the first of its level is justified
    by the reason recorded for it (every other literal of that clause is
    falsified by an earlier entry); and every clause of the current formula,
    like every literal asserted at level 0, follows from the formula the
    solver was given. *)
Theorem Solve_loop_invariants (rangeMap : nat -> gset Z -> list Z) (fuel : nat)
    (fm : list (list Z)) (s : Solver) :
  enumerates rangeMap -> wfFormula fm ->
  reachable rangeMap fuel (AddFormula fm New) s ->
  NoDup (trailVars (m s)) /\
  (forall l, l ∈ trailLits (m s) -> l ≠ 0 /\ litVar l ∈ formulaVars fm) /\
  (forall l, l ∈ trailLits (m s) -> Negate l ∉ trailLits (m s)) /\
  levelsMonotone (elems (m s)) /\
  (forall e, e ∈ elems (m s) -> (Lvl e <= CurrentLevel (m s))%nat) /\
  (Len (m s) <= size (vars s))%nat /\
  reasonsValid (reasonMap s) (m s) /\
  (forall cl, cl ∈ f s -> entails fm cl) /\
  (forall e v, e ∈ elems (m s) -> Lvl e = 0%nat -> models v fm ->
     litTrue v (Lit e) = true).
Proof.
  intros Henum Hwf Hreach.
  destruct (reachable_Ent rangeMap fuel fm s Henum Hwf Hreach) as [HI HE].
  pose proof (inv_wf _ HI) as Hwft.
  split; [apply Hwft|].
  split.
  { intros l Hl. pose proof Hl as (e & He & <-)%elem_of_trailLits.
    split; [by apply (wf_lit_nonzero _ _ Hwft)|].
    apply vars_AddFormula_New.
    destruct (reachable_Inv rangeMap Henum fuel _ s (Inv_init fm Hwf) Hreach) as [_ <-].
    apply (inv_trail_vars _ HI), elem_of_trailVars. by exists e. }
  split; [intros l; by apply wf_consistent|].
  split; [apply Hwft|].
  split; [intros e He; by apply (proj1 (Forall_forall _ _) (wf_bound _ Hwft) e)|].
  split; [by apply Inv_len_le|]. split; [apply HI|].
  split; [apply HE|]. apply HE.
Qed.

Lemma Solve_loop_invariants_witness :
  NoDup (trailVars (m exDecided)) /\
  (forall l, l ∈ trailLits (m exDecided) -> l ≠ 0 /\ litVar l ∈ formulaVars exFormula) /\
  (forall l, l ∈ trailLits (m exDecided) -> Negate l ∉ trailLits (m exDecided)) /\
  levelsMonotone (elems (m exDecided)) /\
  (forall e, e ∈ elems (m exDecided) -> (Lvl e <= CurrentLevel (m exDecided))%nat) /\
  (Len (m exDecided) <= size (vars exDecided))%nat /\
  reasonsValid (reasonMap exDecided) (m exDecided) /\
  (forall cl, cl ∈ f exDecided -> entails exFormula cl) /\
  (forall e v, e ∈ elems (m exDecided) -> Lvl e = 0%nat -> models v exFormula ->
     litTrue v (Lit e) = true).
Proof.
  apply (Solve_loop_invariants ascending 5 exFormula exDecided).
  - intros n X. unfold ascending. apply merge_sort_Permutation.
  - apply (bool_decide_unpack _). vm_compute. exact I.
  - apply (reach_step _ _ _ (AddFormula exFormula New)); [apply reach_init|].
    vm_compute. reflexivity.
Defined.

(** ** The test table *)

Lemma modelsb_models v fm : modelsb v fm = true -> models v fm.
Proof.
  unfold modelsb. rewrite forallb_forall. intros H cl Hcl.
  apply list_elem_of_In in Hcl. apply H in Hcl.
  apply existsb_exists in Hcl as (l & Hl & Hlt). exists l. split; [|done].
  by apply list_elem_of_In.
Qed.

Lemma Solve_answer rangeMap fm fuel :
  enumerates rangeMap -> wfFormula fm -> (solveFuel fm < fuel)%nat ->
  (satisfiable fm -> exists s', Solve rangeMap fuel (AddFormula fm New) = Ret (true, s')) /\
  (~ satisfiable fm -> exists s', Solve rangeMap fuel (AddFormula fm New) = Ret (false, s')).
Proof.
  intros Henum Hwf Hfuel. unfold solveFuel in Hfuel. cbv zeta in Hfuel.
  pose proof (Inv_init fm Hwf) as HI0.
  destruct (solveLoop_total rangeMap Henum fuel fuel (AddFormula fm New) HI0)
    as (b & s' & Hrun & _); [lia|lia|].
  rewrite <- Solve_fresh in Hrun.
  destruct (Solve_run rangeMap fuel fm b s' Henum Hwf Hrun) as (_ & _ & _ & _ & Ht & Hf).
  destruct b.
  - split; [by exists s'|]. intros Hn. exfalso. apply Hn.
    exists (trailValuation (m s')). by apply Ht.
  - split; [|by exists s']. intros Hsat. by destruct Hf.
Qed.

Lemma litTrue_pos v l : 0 < l -> litTrue v l = v l.
Proof. intros H. unfold litTrue. by rewrite bool_decide_eq_true_2. Qed.

Lemma litTrue_neg v l : l < 0 -> litTrue v l = negb (v (- l)).
Proof. intros H. unfold litTrue. rewrite bool_decide_eq_false_2; [done|lia]. Qed.

Lemma exUnsat_unsatisfiable : ~ satisfiable [[4]; [6]; [-4; -6]].
Proof.
  intros [v Hv].
  destruct (Hv [4]) as (l1 & Hl1 & H1); [set_solver|].
  destruct (Hv [6]) as (l2 & Hl2 & H2); [set_solver|].
  destruct (Hv [-4; -6]) as (l3 & Hl3 & H3); [set_solver|].
  apply list_elem_of_singleton in Hl1, Hl2. subst.
  rewrite litTrue_pos in H1, H2 by lia.
  apply elem_of_cons in Hl3 as [->|Hl3].
  - rewrite litTrue_neg in H3 by lia. change (- -4) with 4 in H3. rewrite H1 in H3. done.
  - apply list_elem_of_singleton in Hl3. subst.
    rewrite litTrue_neg in H3 by lia. change (- -6) with 6 in H3. rewrite H2 in H3. done.
Qed.

(** X8: [TestSolve_table] passes whatever order Go picks for its map loops: on
    each formula of the table [Solve] returns, and returns the expected
    answer. *)
Theorem TestSolve_table_any_order (rangeMap : nat -> gset Z -> list Z) :
  enumerates rangeMap ->
  Forall (fun tc => forall fuel, (solveFuel tc.1 < fuel)%nat ->
            exists s', Solve rangeMap fuel (AddFormula tc.1 New) = Ret (tc.2, s'))
         testTable.
Proof.
  intros Henum. unfold testTable.
  repeat apply Forall_cons_2; try apply Forall_nil_2; cbn [fst snd]; intros fuel Hfuel.
  - destruct (Solve_answer rangeMap [] fuel Henum) as [Hs _]; [apply Forall_nil_2|done|].
    apply Hs. exists (fun _ => true). by apply modelsb_models.
  - destruct (Solve_answer rangeMap [[4]] fuel Henum) as [Hs _];
      [apply (bool_decide_unpack _); vm_compute; exact I|done|].
    apply Hs. exists (fun _ => true). by apply modelsb_models.
  - destruct (Solve_answer rangeMap [[4]; [6]; [-4; -6]] fuel Henum) as [_ Hu];
      [apply (bool_decide_unpack _); vm_compute; exact I|done|].
    apply Hu, exUnsat_unsatisfiable.
  - destruct (Solve_answer rangeMap [[-4]; [4; -6]] fuel Henum) as [Hs _];
      [apply (bool_decide_unpack _); vm_compute; exact I|done|].
    apply Hs. exists (fun _ => false). by apply modelsb_models.
  - match goal with |- context [AddFormula ?fm New] =>
      destruct (Solve_answer rangeMap fm fuel Henum) as [Hs _];
        [apply (bool_decide_unpack _); vm_compute; exact I|done|]
    end.
    apply Hs. exists (fun x => bool_decide (x = 7)). by apply modelsb_models.
Qed.

Lemma TestSolve_table_any_order_witness :
  Forall (fun tc => forall fuel, (solveFuel tc.1 < fuel)%nat ->
            exists s', Solve descending fuel (AddFormula tc.1 New) = Ret (tc.2, s'))
         testTable.
Proof.
  apply (TestSolve_table_any_order descending).
  intros k X. unfold descending. rewrite reverse_Permutation. apply merge_sort_Permutation.
Defined.

(** ** The trail functions of [solver_trail.go] *)

Section TrailFacts.

Import SolverTrail.

Context {Lit Clause : Type}.
Variable Var : Lit -> Z.
Variable Sign : Lit -> bool.
Variable Undef : Z.
Variable BoolToTri : bool -> Z.

Local Abbreviation state := (trailState (Lit := Lit) (Clause := Clause)).

Lemma foldl_delete_lookup (ls : list Lit) (a : gmap Z Z) v :
  foldl (fun a l => delete (Var l) a) a ls !! v =
    if bool_decide (v ∈ Var <$> ls) then None else a !! v.
Proof.
  revert a. induction ls as [|l ls IH]; intros a; cbn [foldl fmap list_fmap].
  - rewrite bool_decide_eq_false_2; [done|]. apply not_elem_of_nil.
  - rewrite IH. destruct (decide (v = Var l)) as [->|Hne].
    + rewrite lookup_delete_eq. rewrite (bool_decide_eq_true_2 (Var l ∈ Var l :: _));
        [by case_bool_decide|]. by left.
    + rewrite lookup_delete_ne by done.
      destruct (decide (v ∈ Var <$> ls)) as [Hin|Hin].
      * rewrite !bool_decide_eq_true_2; [done| |done]. by right.
      * rewrite !bool_decide_eq_false_2; [done| |done].
        intros [?|?]%elem_of_cons; done.
Qed.

Lemma decideAndAssert_fields (ls : list (Lit * Clause)) (s : state) :
  trail (decideAndAssert Var Sign BoolToTri ls s) = trail s ++ ls.*1 /\
  trailIdx (decideAndAssert Var Sign BoolToTri ls s)
    = trailIdx s ++ [Z.of_nat (length (trail s))] /\
  qhead (decideAndAssert Var Sign BoolToTri ls s) = qhead s /\
  forall v, (v ∉ Var <$> ls.*1) ->
    assigns (decideAndAssert Var Sign BoolToTri ls s) !! v = assigns s !! v.
Proof.
  unfold decideAndAssert.
  induction ls as [|p ls IH] using rev_ind.
  - cbn. rewrite app_nil_r. done.
  - rewrite foldl_app. cbn [foldl]. destruct IH as (Ht & Hi & Hq & Ha).
    set (s1 := foldl _ _ ls) in *.
    unfold assertLiteral. cbn [trail trailIdx qhead assigns].
    rewrite Ht, Hi, Hq, fmap_app, app_assoc. split; [done|]. split; [done|].
    split; [done|]. intros v Hv. rewrite fmap_app in Hv.
    rewrite lookup_insert_ne.
    + apply Ha. intros Hin. apply Hv, elem_of_app. by left.
    + intros <-. apply Hv, elem_of_app. right. cbn. by left.
Qed.

(** X15: Asserting a literal makes it read true and its negation false, leaves
    the other variables alone, and records the current decision level for
    its variable.  No check is made: this holds whether or not the variable
    was assigned before.  ([BoolToTri] is only known to answer a defined
    value that [XOR 1] flips, as the comment in [ValueLit] says.) *)
Theorem ValueLit_assertLiteral (l l' : Lit) (from : Clause) (s : state) :
  (forall b, BoolToTri b ≠ Undef) ->
  (forall b, Z.lxor (BoolToTri b) 1 = BoolToTri (negb b)) ->
  ValueLit Var Sign Undef l' (assertLiteral Var Sign BoolToTri l from s) =
    (if bool_decide (Var l' = Var l) then BoolToTri (bool_decide (Sign l' = Sign l))
     else ValueLit Var Sign Undef l' s) /\
  level (Var l) (assertLiteral Var Sign BoolToTri l from s) = decisionLevel s /\
  decisionLevel (assertLiteral Var Sign BoolToTri l from s) = decisionLevel s.
Proof.
  intros Hdef Hflip. split; [|split].
  - unfold ValueLit, assertLiteral. cbn [assigns]. case_bool_decide as Hv.
    + rewrite Hv, lookup_insert_eq. rewrite bool_decide_eq_false_2 by apply Hdef.
      destruct (Sign l') eqn:Hs', (Sign l) eqn:Hs; cbn [negb]; rewrite ?Hflip; cbn [negb];
        f_equal; symmetry;
        first [by apply bool_decide_eq_true_2 | by apply bool_decide_eq_false_2].
    + by rewrite lookup_insert_ne by done.
  - unfold level, assertLiteral. cbn [varinfoMap]. by rewrite lookup_insert_eq.
  - done.
Qed.

(** X16: Trimming to the level a decision was taken from undoes the decision:
    after [newDecisionLevel] and any number of assertions on variables that
    were unassigned, [trimToDecisionLevel] gives back the trail, the level
    boundaries and the assignments, and sets the queue head to the end of
    the trail. *)
Theorem trimToDecisionLevel_decideAndAssert (ls : list (Lit * Clause)) (s : state) :
  (forall p, p ∈ ls -> assigns s !! Var p.1 = None) ->
  exists s', trimToDecisionLevel Var (decisionLevel s)
               (decideAndAssert Var Sign BoolToTri ls s) = Ret s' /\
    trail s' = trail s /\ trailIdx s' = trailIdx s /\ assigns s' = assigns s /\
    qhead s' = Z.of_nat (length (trail s)).
Proof.
  intros Hfresh.
  destruct (decideAndAssert_fields ls s) as (Ht & Hi & Hq & Ha).
  set (s2 := decideAndAssert Var Sign BoolToTri ls s) in *.
  unfold trimToDecisionLevel, decisionLevel. rewrite Hi, Ht.
  rewrite bool_decide_eq_false_2 by (rewrite length_app; cbn; lia).
  rewrite bool_decide_eq_false_2 by lia.
  rewrite Nat2Z.id, list_lookup_middle by done.
  rewrite bool_decide_eq_false_2 by lia.
  rewrite bool_decide_eq_false_2 by (rewrite length_app; lia).
  rewrite Nat2Z.id, drop_app_length, take_app_length, take_app_length.
  eexists. split; [done|]. cbn [trail trailIdx assigns qhead].
  split; [done|]. split; [done|]. split; [|done].
  apply map_eq. intros v. rewrite foldl_delete_lookup, fmap_reverse.
  case_bool_decide as Hin.
  - rewrite elem_of_reverse in Hin. apply list_elem_of_fmap in Hin as (l & -> & Hl).
    apply list_elem_of_fmap in Hl as (p & -> & Hp). symmetry. by apply Hfresh.
  - apply Ha. by rewrite elem_of_reverse in Hin.
Qed.

Lemma trailInv_take_notin (s : state) k v :
  NoDup (Var <$> trail s) ->
  v ∈ Var <$> trail s -> (v ∉ Var <$> drop k (trail s)) -> v ∈ Var <$> take k (trail s).
Proof.
  intros _ Hin Hnot. rewrite <- (take_drop k (trail s)), fmap_app in Hin.
  apply elem_of_app in Hin as [?|?]; done.
Qed.

Lemma NoDup_take_drop_disjoint (s : state) k v :
  NoDup (Var <$> trail s) ->
  v ∈ Var <$> take k (trail s) -> v ∉ Var <$> drop k (trail s).
Proof.
  intros Hnd Hin Hin'. rewrite <- (take_drop k (trail s)), fmap_app in Hnd.
  apply NoDup_app in Hnd as (_ & Hdis & _). by apply (Hdis v).
Qed.

(** X17: What [trimToDecisionLevel] does on a trail that satisfies the invariant,
    for a level below the current one: it cuts the trail at the boundary of
    that level, keeps the boundaries below it, leaves every literal of the
    part it keeps with its value and every other literal undefined, and the
    invariant holds again. *)
Theorem trimToDecisionLevel_spec (lv : Z) (s : state) :
  trailInv Var s -> 0 <= lv < decisionLevel s ->
  exists s' k, trimToDecisionLevel Var lv s = Ret s' /\
    trailIdx s !! Z.to_nat lv = Some (Z.of_nat k) /\ (k <= length (trail s))%nat /\
    trail s' = take k (trail s) /\
    trailIdx s' = take (Z.to_nat lv) (trailIdx s) /\
    decisionLevel s' = lv /\ qhead s' = Z.of_nat k /\
    (forall l, ValueLit Var Sign Undef l s' =
       if bool_decide (Var l ∈ Var <$> take k (trail s))
       then ValueLit Var Sign Undef l s else Undef) /\
    trailInv Var s'.
Proof.
  intros [Hb Hs Hd Hn] Hlv. unfold decisionLevel in Hlv.
  destruct (lookup_lt_is_Some_2 (trailIdx s) (Z.to_nat lv)) as [a Ha]; [lia|].
  pose proof (proj1 (Forall_forall _ _) Hb a (list_elem_of_lookup_2 _ _ _ Ha)) as Hab.
  simpl in Hab.
  set (k := Z.to_nat a). assert (Hak : a = Z.of_nat k) by (subst k; lia).
  unfold trimToDecisionLevel, decisionLevel.
  rewrite bool_decide_eq_false_2 by lia. rewrite bool_decide_eq_false_2 by lia.
  rewrite Ha. rewrite bool_decide_eq_false_2 by lia. rewrite bool_decide_eq_false_2 by lia.
  fold k. eexists _, k. split; [done|]. cbn [trail trailIdx assigns qhead].
  split; [by rewrite <- Hak|]. split; [lia|]. split; [done|]. split; [done|].
  split; [rewrite length_take; lia|]. split; [done|].
  assert (Hlook : forall v,
    foldl (fun a l => delete (Var l) a) (assigns s) (reverse (drop k (trail s))) !! v =
      if bool_decide (v ∈ Var <$> take k (trail s)) then assigns s !! v else None).
  { intros v. rewrite foldl_delete_lookup, fmap_reverse.
    destruct (decide (v ∈ Var <$> take k (trail s))) as [Hin|Hin].
    - rewrite (bool_decide_eq_true_2 _ Hin). rewrite bool_decide_eq_false_2; [done|].
      rewrite elem_of_reverse. by apply NoDup_take_drop_disjoint.
    - rewrite (bool_decide_eq_false_2 _ Hin). case_bool_decide as Hdrop; [done|].
      rewrite elem_of_reverse in Hdrop.
      destruct (assigns s !! v) eqn:Hv; [|done].
      exfalso. apply Hin, trailInv_take_notin; [done| |done]. apply Hd. by eexists. }
  split.
  - intros l. unfold ValueLit. cbn [assigns]. rewrite Hlook.
    case_bool_decide; done.
  - split; cbn [trail trailIdx assigns].
    + apply Forall_forall. intros b Hbin. apply list_elem_of_lookup in Hbin as [i Hi].
      apply lookup_take_Some in Hi as [Hi Hlt].
      pose proof (proj1 (Forall_forall _ _) Hb b (list_elem_of_lookup_2 _ _ _ Hi)) as Hbb.
      simpl in Hbb. pose proof (Hs i (Z.to_nat lv) b a Hi Ha ltac:(lia)).
      rewrite length_take. lia.
    + intros i j x y Hi Hj Hij.
      apply lookup_take_Some in Hi as [Hi _]. apply lookup_take_Some in Hj as [Hj _].
      by apply (Hs i j).
    + intros v. rewrite Hlook. case_bool_decide as Hin.
      * split; [done|]. intros _. apply Hd.
        rewrite <- (take_drop k (trail s)), fmap_app. apply elem_of_app. by left.
      * split; [by intros [? ?]|done].
    + rewrite <- (take_drop k (trail s)), fmap_app in Hn. by apply NoDup_app in Hn as [? _].
Qed.

(** X18: On a trail whose level boundaries lie within it, [trimToDecisionLevel]
    panics exactly when it is given a negative level (the index
    [s.trailIdx[level]] is out of range); for every other level it
    returns. *)
Theorem trimToDecisionLevel_panics (lv : Z) (s : state) :
  Forall (fun i => 0 <= i <= Z.of_nat (length (trail s))) (trailIdx s) ->
  (trimToDecisionLevel Var lv s = Panic <-> lv < 0) /\
  (0 <= lv -> exists s', trimToDecisionLevel Var lv s = Ret s').
Proof.
  intros Hb. unfold trimToDecisionLevel, decisionLevel.
  case_bool_decide as Hle.
  { split; [|by eexists]. split; [done|lia]. }
  case_bool_decide as Hneg; [split; [done|lia]|].
  destruct (lookup_lt_is_Some_2 (trailIdx s) (Z.to_nat lv)) as [a Ha]; [lia|].
  pose proof (proj1 (Forall_forall _ _) Hb a (list_elem_of_lookup_2 _ _ _ Ha)) as Hab.
  simpl in Hab. rewrite Ha.
  rewrite bool_decide_eq_false_2 by lia. rewrite bool_decide_eq_false_2 by lia.
  split; [|by eexists]. split; [done|lia].
Qed.

Lemma trailInv_newDecisionLevel (s : state) :
  trailInv Var s -> trailInv Var (newDecisionLevel s).
Proof.
  intros [Hb Hs Hd Hn].
  split; cbn [newDecisionLevel trail trailIdx assigns]; try done.
  - apply Forall_app. split; [done|]. apply Forall_singleton. lia.
  - intros i j a b Hi Hj Hij.
    apply lookup_snoc_Some in Hj as [Hj|[-> ->]].
    + apply lookup_snoc_Some in Hi as [Hi|[-> ->]]; [by apply (Hs i j)|].
      apply lookup_lt_Some in Hj. lia.
    + apply lookup_snoc_Some in Hi as [Hi|[_ ->]]; [|lia].
      apply (proj1 (Forall_forall _ _) Hb a (list_elem_of_lookup_2 _ _ _ Hi)).
Qed.

Lemma trailInv_assertLiteral (l : Lit) (from : Clause) (s : state) :
  trailInv Var s -> assigns s !! Var l = None ->
  trailInv Var (assertLiteral Var Sign BoolToTri l from s).
Proof.
  intros [Hb Hs Hd Hn] Hnone. split; cbn [assertLiteral trail trailIdx assigns].
  - eapply Forall_impl; [exact Hb|]. intros i Hi. cbv beta in *.
    rewrite length_app, Nat2Z.inj_add. lia.
  - done.
  - intros v. rewrite fmap_app, elem_of_app. cbn.
    rewrite list_elem_of_singleton, <- Hd.
    destruct (decide (v = Var l)) as [->|Hne].
    + rewrite lookup_insert_eq. split; [by right|by eexists].
    + rewrite lookup_insert_ne by done. split; [by left|]. by intros [?|?].
  - rewrite fmap_app. apply NoDup_app. split; [done|]. split.
    + intros v Hv [->|[]%elem_of_nil]%elem_of_cons.
      apply Hd in Hv as [? Hv]. congruence.
    + apply NoDup_singleton.
Qed.

Lemma trailInv_empty : trailInv Var (mkTrailState (Lit := Lit) (Clause := Clause) ∅ ∅ [] [] 0).
Proof.
  split; cbn.
  - apply Forall_nil_2.
  - intros i j a b Hi. by rewrite lookup_nil in Hi.
  - intros v. rewrite lookup_empty. split; [by intros [? ?]|by intros ?%elem_of_nil].
  - apply NoDup_nil_2.
Qed.

(** X19: [newDecisionLevel] keeps the invariant of the trail, and so does
    [assertLiteral] on a literal whose variable is unassigned. *)
Theorem trailInv_preserved (l : Lit) (from : Clause) (s : state) :
  trailInv Var s ->
  trailInv Var (newDecisionLevel s) /\
  (assigns s !! Var l = None -> trailInv Var (assertLiteral Var Sign BoolToTri l from s)).
Proof.
  intros HI. split; [by apply trailInv_newDecisionLevel|by apply trailInv_assertLiteral].
Qed.

(** X20: [assertLiteral] does not look at the assignment: when a literal of an
    assigned variable is asserted after a decision and the trail is trimmed
    back, the older literal of that variable is still on the trail but reads
    undefined. *)
Theorem assertLiteral_assigned_then_trim (l0 l : Lit) (from : Clause) (s : state) :
  l0 ∈ trail s -> Var l = Var l0 ->
  exists s', trimToDecisionLevel Var (decisionLevel s)
               (assertLiteral Var Sign BoolToTri l from (newDecisionLevel s)) = Ret s' /\
    trail s' = trail s /\ ValueLit Var Sign Undef l0 s' = Undef.
Proof.
  intros Hin Hv.
  unfold trimToDecisionLevel, decisionLevel, assertLiteral, newDecisionLevel.
  cbn [trail trailIdx assigns].
  rewrite bool_decide_eq_false_2 by (rewrite length_app; cbn; lia).
  rewrite bool_decide_eq_false_2 by lia.
  rewrite Nat2Z.id, list_lookup_middle by done.
  rewrite bool_decide_eq_false_2 by lia.
  rewrite bool_decide_eq_false_2 by (rewrite length_app; lia).
  rewrite Nat2Z.id, drop_app_length, take_app_length.
  eexists. split; [done|]. cbn [trail]. split; [done|].
  unfold ValueLit. cbn [assigns]. rewrite foldl_delete_lookup.
  rewrite bool_decide_eq_true_2; [done|].
  rewrite fmap_reverse, elem_of_reverse. cbn. rewrite Hv. by left.
Qed.

End TrailFacts.

Lemma ValueLit_assertLiteral_witness :
  SolverTrail.ValueLit exVar exSign exUndef 7 exTrail =
    (if bool_decide (exVar 7 = exVar 6) then exBoolToTri (bool_decide (exSign 7 = exSign 6))
     else SolverTrail.ValueLit exVar exSign exUndef 7
            exEmpty) /\
  SolverTrail.level (exVar 6) exTrail
    = SolverTrail.decisionLevel exEmpty /\
  SolverTrail.decisionLevel exTrail
    = SolverTrail.decisionLevel exEmpty.
Proof.
  apply (ValueLit_assertLiteral exVar exSign exUndef exBoolToTri 6 7 [6]).
  - intros []; discriminate.
  - intros []; reflexivity.
Defined.

Lemma exTrail2_inv : SolverTrail.trailInv exVar exTrail2.
Proof.
  unfold exTrail2, SolverTrail.decideAndAssert. cbn [foldl fst snd].
  apply trailInv_assertLiteral; [|reflexivity].
  apply trailInv_assertLiteral; [|reflexivity].
  apply trailInv_newDecisionLevel.
  apply trailInv_assertLiteral; [|reflexivity].
  apply trailInv_empty.
Qed.

Lemma trimToDecisionLevel_decideAndAssert_witness :
  exists s', SolverTrail.trimToDecisionLevel exVar (SolverTrail.decisionLevel exTrail) exTrail2
             = Ret s' /\
    SolverTrail.trail s' = SolverTrail.trail exTrail /\
    SolverTrail.trailIdx s' = SolverTrail.trailIdx exTrail /\
    SolverTrail.assigns s' = SolverTrail.assigns exTrail /\
    SolverTrail.qhead s' = Z.of_nat (length (SolverTrail.trail exTrail)).
Proof.
  apply (trimToDecisionLevel_decideAndAssert exVar exSign exBoolToTri
           [(8, [8]); (11, [11; 9])] exTrail).
  intros p Hp. apply elem_of_cons in Hp as [->|Hp]; [reflexivity|].
  apply list_elem_of_singleton in Hp as ->. reflexivity.
Defined.

Lemma trimToDecisionLevel_spec_witness :
  exists s' k, SolverTrail.trimToDecisionLevel exVar 0 exTrail2 = Ret s' /\
    SolverTrail.trailIdx exTrail2 !! Z.to_nat 0 = Some (Z.of_nat k) /\
    (k <= length (SolverTrail.trail exTrail2))%nat /\
    SolverTrail.trail s' = take k (SolverTrail.trail exTrail2) /\
    SolverTrail.trailIdx s' = take (Z.to_nat 0) (SolverTrail.trailIdx exTrail2) /\
    SolverTrail.decisionLevel s' = 0 /\ SolverTrail.qhead s' = Z.of_nat k /\
    (forall l, SolverTrail.ValueLit exVar exSign exUndef l s' =
       if bool_decide (exVar l ∈ exVar <$> take k (SolverTrail.trail exTrail2))
       then SolverTrail.ValueLit exVar exSign exUndef l exTrail2 else exUndef) /\
    SolverTrail.trailInv exVar s'.
Proof.
  apply (trimToDecisionLevel_spec exVar exSign exUndef 0 exTrail2).
  - apply exTrail2_inv.
  - vm_compute. split; [discriminate|reflexivity].
Defined.

Lemma trimToDecisionLevel_panics_witness :
  (SolverTrail.trimToDecisionLevel exVar (-1) exTrail2 = Panic <-> -1 < 0) /\
  (0 <= -1 -> exists s', SolverTrail.trimToDecisionLevel exVar (-1) exTrail2 = Ret s').
Proof.
  apply (trimToDecisionLevel_panics exVar (-1) exTrail2).
  apply (bool_decide_unpack _). vm_compute. exact I.
Defined.

Lemma trailInv_preserved_witness :
  SolverTrail.trailInv exVar (SolverTrail.newDecisionLevel exEmpty) /\
  (SolverTrail.assigns exEmpty !! exVar 6 = None ->
   SolverTrail.trailInv exVar (SolverTrail.assertLiteral exVar exSign exBoolToTri 6 [6] exEmpty)).
Proof.
  apply (trailInv_preserved exVar exSign exBoolToTri 6 [6] exEmpty).
  apply trailInv_empty.
Defined.

Lemma assertLiteral_assigned_then_trim_witness :
  exists s', SolverTrail.trimToDecisionLevel exVar (SolverTrail.decisionLevel exTrail)
               (SolverTrail.assertLiteral exVar exSign exBoolToTri 7 [7]
                  (SolverTrail.newDecisionLevel exTrail)) = Ret s' /\
    SolverTrail.trail s' = SolverTrail.trail exTrail /\
    SolverTrail.ValueLit exVar exSign exUndef 6 s' = exUndef.
Proof.
  apply (assertLiteral_assigned_then_trim exVar exSign exUndef exBoolToTri 6 7 [7] exTrail).
  - vm_compute. by left.
  - reflexivity.
Defined.

(** ** The conflict branch of the loop, in full *)

Lemma learnClause_frame s :
  m (learnClause s) = m s /\ reasonMap (learnClause s) = reasonMap s /\
  vars (learnClause s) = vars s /\ decideLiterals (learnClause s) = decideLiterals s /\
  cH (learnClause s) = cH s /\ cP (learnClause s) = cP s /\ cN (learnClause s) = cN s /\
  cL (learnClause s) = cL s /\ c (learnClause s) = c s /\ clock (learnClause s) = clock s.
Proof. unfold learnClause. by case_bool_decide. Qed.

Lemma backjumpTarget_learnClause rangeMap s :
  backjumpTarget rangeMap (learnClause s) = backjumpTarget rangeMap s.
Proof.
  unfold backjumpTarget. destruct (learnClause_frame s) as (-> & _ & _ & _ & _ & -> & _ & _ & _ & ->).
  done.
Qed.

Lemma conflict_step_facts rangeMap fuel s1 s3 s5 :
  enumerates rangeMap -> Inv s1 ->
  IsZero (IsFormulaFalse (m s1) (f s1)) = false ->
  DecisionsLen (m s1) ≠ 0%nat ->
  applyExplainUIP rangeMap fuel (applyConflict (IsFormulaFalse (m s1) (f s1)) s1) = Ret s3 ->
  applyBackjump rangeMap (learnClause s3) = Ret s5 ->
  let j := backjumpTarget rangeMap (learnClause s3) in
  AInv s3 /\ cN s3 = 1 /\ m s3 = m s1 /\
  (exists keys, c s3 = keys ++ [Negate (cL s3)] /\ keys ≡ₚ elements (cP s3) /\
     (forall l, l ∈ keys <-> l ∈ cP s3)) /\
  (j < decisionsLen (m s1))%nat /\
  value (TrimToLevel j (m s1)) (Negate (cL s3)) = Undef /\
  IsUnit (TrimToLevel j (m s1)) (c s3) (Negate (cL s3)) = true /\
  m s5 = {| elems := elems (TrimToLevel j (m s1)) ++ [mkElem (Negate (cL s3)) j];
            decisionsLen := j |} /\
  reasonMap s5 = <[Negate (cL s3) := c s3]> (reasonMap s1) /\
  f s5 = (if bool_decide (1 < length (c s3))%nat then f s1 ++ [c s3] else f s1) /\
  vars s5 = vars s1 /\ Inv s5.
Proof.
  intros Henum HI Hz Hdl H3 H5 j. pose proof (inv_wf _ HI) as Hwf.
  destruct (run_conflict_start s1 HI Hz Hdl) as [HA2 HN2].
  set (s2 := applyConflict (IsFormulaFalse (m s1) (f s1)) s1) in *.
  destruct (applyConflict_frame (IsFormulaFalse (m s1) (f s1)) s1) as (Hm2 & HR2 & Hf2 & Hv2 & Hd2).
  fold s2 in Hm2, HR2, Hf2, Hv2, Hd2.
  destruct (applyExplainUIP_result rangeMap fuel s2 s3 Henum HA2 HN2 H3)
    as (HA3 & HN3 & Hm3 & HR3 & Hf3 & keys & Hc3 & Hperm & Hkeys3).
  assert (Hvd3 : vars s3 = vars s1 /\ decideLiterals s3 = decideLiterals s1).
  { apply applyExplainUIP_shape in H3 as (s' & Hrun & ->).
    apply explainLoop_shape in Hrun as (H' & P' & N' & L' & ->). fields.
    by rewrite Hv2, Hd2. }
  destruct Hvd3 as [Hv3 Hd3].
  destruct (learnClause_frame s3) as (Hm4 & HR4 & Hv4 & Hd4 & HH4 & HP4 & HN4 & HL4 & Hc4 & Hk4).
  set (s4 := learnClause s3) in *.
  assert (HA4 : AInv s4) by (by apply (AInv_ext s3)).
  assert (Hwf4 : trail_wf (m s4)) by (by rewrite Hm4, Hm3, Hm2).
  assert (HN4' : cN s4 = 1) by congruence.
  assert (Hc4' : c s4 = keys ++ [Negate (cL s4)]) by congruence.
  assert (Hkeys4 : forall l, l ∈ keys <-> l ∈ cP s4) by (intros l; by rewrite HP4).
  assert (Hf4 : f s4 = if bool_decide (1 < length (c s4))%nat then f s1 ++ [c s4] else f s1).
  { subst s4. rewrite learnClause_f, Hc4, Hf3, Hf2. done. }
  rewrite (applyBackjump_Ret rangeMap Henum s4 Hwf4 HA4 HN4' keys Hc4' Hkeys4) in H5.
  injection H5 as <-.
  pose proof (backjump_Inv rangeMap Henum s1 s4 HI ltac:(congruence) ltac:(congruence)
                ltac:(congruence) ltac:(rewrite Hd4, Hd3; apply HI) Hf4 HA4 HN4' keys Hc4' Hkeys4)
    as HI5.
  split; [done|]. split; [done|]. split; [congruence|].
  split; [by exists keys|].
  split; [rewrite <- Hm2, <- Hm3, <- Hm4; apply (target_lt rangeMap Henum s4 Hwf4 HA4 HN4')|].
  split.
  { rewrite <- Hm2, <- Hm3, <- Hm4, <- HL4.
    apply (trimmed_unassigned rangeMap Henum s4 Hwf4 HA4 HN4'). }
  split.
  { rewrite <- Hm2, <- Hm3, <- Hm4, <- HL4, <- Hc4.
    apply (learned_unit rangeMap Henum s4 Hwf4 HA4 HN4' keys Hc4' Hkeys4). }
  split; [fields; by rewrite Hm4, Hm3, Hm2, HL4|].
  split.
  { fields. rewrite HL4, Hc4.
    destruct (bool_decide (0 < size (cP s4))%nat); fields; by rewrite HR4, HR3, HR2. }
  split.
  { fields. rewrite <- Hc4, <- Hf4. by destruct (bool_decide (0 < size (cP s4))%nat). }
  split; [|exact HI5].
  fields. destruct (bool_decide (0 < size (cP s4))%nat); fields; congruence.
Qed.

(** ** No clause is falsified when an iteration starts *)

Lemma value_ext M M' l : trailLits M = trailLits M' -> value M l = value M' l.
Proof. intros H. unfold value. by rewrite H. Qed.

Lemma IsUnit_ext M M' cl l : trailLits M = trailLits M' -> IsUnit M cl l = IsUnit M' cl l.
Proof.
  intros H. unfold IsUnit. rewrite (value_ext M M' l H). f_equal.
  induction cl as [|x cl IH]; [done|]. cbn [forallb].
  by rewrite IH, (value_ext M M' x H).
Qed.

Lemma noUnitBelow_snoc_current fm M e :
  trail_wf M -> noUnitBelow fm M -> Lvl e = decisionsLen M ->
  noUnitBelow fm {| elems := elems M ++ [e]; decisionsLen := decisionsLen M |}.
Proof.
  intros Hwf Hnu Hlv j cl l Hj Hcl Hl. cbn [decisionsLen] in Hj.
  rewrite Trim_snoc_above by (done || lia). by apply Hnu.
Qed.

Lemma unitPropagate_noUnitBelow fuel s s' :
  Inv s -> noUnitBelow (f s) (m s) -> unitPropagate fuel s = Ret s' ->
  noUnitBelow (f s') (m s').
Proof.
  revert s. induction fuel as [|fuel IH]; intros s HI Hnu; [done|].
  rewrite unitPropagate_unfold.
  destruct (findUnit (m s) (f s)) as [[cl l]|] eqn:Hfind; [|by intros [= <-]].
  apply findUnit_Some in Hfind as (Hcl & Hl & Hunit).
  rewrite (propagateStep_Ret cl l s Hunit). cbn [mbind Res_bind bindRes].
  pose proof (propagateStep_Inv cl l s HI Hcl Hl Hunit) as HI1.
  set (s1 := withTrail _ _ s) in *.
  assert (Hnu1 : noUnitBelow (f s1) (m s1)).
  { subst s1. fields. apply noUnitBelow_snoc_current; [apply HI|done|done]. }
  destruct (negb _); [by intros [= <-]|]. by apply IH.
Qed.

(** A decision taken at a fixpoint of propagation falsifies no clause. *)
Lemma decide_not_false fm M lit :
  Forall (fun cl => cl ≠ []) fm -> trail_wf M -> value M lit = Undef ->
  findUnit M fm = None -> IsZero (IsFormulaFalse M fm) = true ->
  IsZero (IsFormulaFalse {| elems := elems M ++ [mkElem lit (S (decisionsLen M))];
                            decisionsLen := S (decisionsLen M) |} fm) = true.
Proof.
  intros Hne Hwf Hundef Hnone Hz.
  set (M' := {| elems := _; decisionsLen := _ |}).
  destruct (IsFormulaFalse_spec M' fm Hne) as [[Hz' _]|(_ & Hcl & Hfalse)]; [done|].
  exfalso. set (cl := IsFormulaFalse M' fm) in *.
  destruct (IsFormulaFalse_spec M fm Hne) as [[_ Hall]|[Hzf _]]; [|congruence].
  rewrite IsClauseFalse_true in Hfalse.
  assert (Hlits : trailLits M' = trailLits M ++ [lit]).
  { unfold trailLits, M'. cbn [elems]. by rewrite fmap_app. }
  assert (Hold : forall x, x ∈ cl -> x ≠ Negate lit -> value M x = TriFalse).
  { intros x Hx Hne'. specialize (Hfalse x Hx).
    apply value_false in Hfalse as [Hnot Hneg]. rewrite Hlits in Hnot, Hneg.
    apply value_false. split.
    - intros Hin. apply Hnot, elem_of_app. by left.
    - apply elem_of_app in Hneg as [?|Heq%list_elem_of_singleton]; [done|].
      exfalso. apply Hne'. rewrite <- Heq. by rewrite Negate_involutive. }
  destruct (decide (Negate lit ∈ cl)) as [Hin|Hnin].
  - rewrite findUnit_None in Hnone. specialize (Hnone cl (Negate lit) Hcl Hin).
    assert (Hu : IsUnit M cl (Negate lit) = true); [|congruence].
    apply IsUnit_true. split; [|done].
    apply value_undef. rewrite litVar_Negate. by apply value_undef.
  - specialize (Hall cl Hcl). apply IsClauseFalse_false in Hall as (x & Hx & Hxf).
    apply Hxf, Hold; [done|]. intros ->. done.
Qed.

Lemma decide_noUnitBelow fm M lit :
  trail_wf M -> noUnitBelow fm M -> findUnit M fm = None ->
  noUnitBelow fm {| elems := elems M ++ [mkElem lit (S (decisionsLen M))];
                    decisionsLen := S (decisionsLen M) |}.
Proof.
  intros Hwf Hnu Hnone j cl l Hj Hcl Hl. cbn [decisionsLen] in Hj.
  destruct (decide (j = decisionsLen M)) as [->|Hne].
  - rewrite (IsUnit_ext _ M); [|by apply Trim_snoc_at].
    rewrite findUnit_None in Hnone. by apply Hnone.
  - rewrite Trim_snoc_above by (done || cbn; lia). apply Hnu; [lia|done|done].
Qed.

Lemma trimmed_false M j x y :
  trail_wf M ->
  value {| elems := elems (TrimToLevel j M) ++ [mkElem y j]; decisionsLen := j |} x = TriFalse ->
  x ≠ Negate y -> value (TrimToLevel j M) x = TriFalse.
Proof.
  intros Hwf Hv Hne. apply value_false in Hv as [Hnot Hneg].
  unfold trailLits in Hnot, Hneg. cbn [elems] in Hnot, Hneg. rewrite fmap_app in Hnot, Hneg.
  apply value_false. split.
  - intros Hin. apply Hnot, elem_of_app. by left.
  - apply elem_of_app in Hneg as [?|Heq%list_elem_of_singleton]; [done|].
    exfalso. apply Hne. cbn in Heq. rewrite <- Heq. by rewrite Negate_involutive.
Qed.

(** After a backjump the levels below the new current one are still
    complete for propagation, the learned clause included, and the trail
    falsifies no clause. *)
Lemma backjump_top rangeMap fuel s1 s3 s5 :
  enumerates rangeMap -> Inv s1 -> noUnitBelow (f s1) (m s1) ->
  IsZero (IsFormulaFalse (m s1) (f s1)) = false ->
  DecisionsLen (m s1) ≠ 0%nat ->
  applyExplainUIP rangeMap fuel (applyConflict (IsFormulaFalse (m s1) (f s1)) s1) = Ret s3 ->
  applyBackjump rangeMap (learnClause s3) = Ret s5 ->
  noUnitBelow (f s5) (m s5) /\ IsZero (IsFormulaFalse (m s5) (f s5)) = true.
Proof.
  intros Henum HI Hnu Hz Hdl H3 H5. pose proof (inv_wf _ HI) as Hwf.
  destruct (conflict_step_facts rangeMap fuel s1 s3 s5 Henum HI Hz Hdl H3 H5)
    as (HA3 & HN3 & Hm3 & (keys & Hc3 & Hperm & Hkeys) & Hj & Hundef & Hunit & Hm5 & HR5 &
        Hf5 & Hv5 & HI5).
  rewrite backjumpTarget_learnClause in *.
  set (j := backjumpTarget rangeMap s3) in *.
  assert (Hwf3 : trail_wf (m s3)) by (by rewrite Hm3).
  destruct (uip_facts s3 Hwf3 HA3 HN3) as (HLin & HLset & _ & HLH & HLP & Hlow).
  rewrite Hm3 in HLin, HLset, Hlow.
  pose proof (Trim_wf (m s1) j Hwf) as Hwfj.
  assert (Hdlj : decisionsLen (TrimToLevel j (m s1)) = j)
    by (rewrite Trim_decisionsLen; lia).
  assert (HLc : Negate (cL s3) ∈ c s3).
  { rewrite Hc3. apply elem_of_app. right. by left. }
  split.
  - intros j' cl l Hj' Hcl Hl. rewrite Hm5 in Hj' |- *. cbn [decisionsLen] in Hj'.
    rewrite (Trim_snoc_above (TrimToLevel j (m s1))) by (done || cbn; lia).
    rewrite Trim_Trim by lia.
    assert (Hcases : cl ∈ f s1 \/ (cl = c s3 /\ (1 < length (c s3))%nat)).
    { rewrite Hf5 in Hcl. case_bool_decide; [|by left].
      apply elem_of_app in Hcl as [?| ->%list_elem_of_singleton]; auto. }
    destruct Hcases as [Hold|[-> Hlen]]; [apply Hnu; [lia|done|done]|].
    destruct (IsUnit (TrimToLevel j' (m s1)) (c s3) l) eqn:Hu; [|done]. exfalso.
    apply IsUnit_true in Hu as [_ Hothers].
    assert (HPne : cP s3 ≠ ∅).
    { intros HP0. rewrite Hc3, length_app in Hlen. cbn in Hlen.
      assert (keys = []); [|subst; cbn in Hlen; lia].
      apply Permutation_nil_r. by rewrite Hperm, HP0, elements_empty. }
    destruct (backjumpTarget_spec rangeMap s3 Henum) as (_ & _ & Hmax).
    destruct (Hmax HPne) as (p & Hp & Hpset). rewrite Hm3 in Hpset. fold j in Hpset.
    assert (Hpc : p ∈ c s3). { rewrite Hc3. apply elem_of_app. left. by apply Hkeys. }
    assert (Hnf : forall x, (j' < set (m s1) (Negate x))%nat ->
                    value (TrimToLevel j' (m s1)) x ≠ TriFalse).
    { intros x Hx Hv. apply value_false_wf in Hv; [|by apply Trim_wf].
      apply Trim_trailLits in Hv as [_ Hle]; [|done]. lia. }
    destruct (decide (p = l)) as [->|Hpl].
    + apply (Hnf (Negate (cL s3))).
      * rewrite Negate_involutive, HLset. lia.
      * apply Hothers; [done|]. intros Heq. apply HLP. by rewrite Heq.
    + apply (Hnf p); [lia|]. by apply Hothers.
  - destruct (IsFormulaFalse_spec (m s5) (f s5)) as [[Hz' _]|(_ & Hcl & Hfalse)];
      [eapply formulaOK_nonempty, HI5|done|].
    exfalso. set (D := IsFormulaFalse (m s5) (f s5)) in *.
    rewrite IsClauseFalse_true, Hm5 in Hfalse.
    assert (Hcases : D ∈ f s1 \/ D = c s3).
    { rewrite Hf5 in Hcl. case_bool_decide; [|by left].
      apply elem_of_app in Hcl as [?| ->%list_elem_of_singleton]; auto. }
    destruct Hcases as [Hold| ->].
    + destruct (decide (cL s3 ∈ D)) as [HLD|HLD].
      * assert (Hu : IsUnit (TrimToLevel j (m s1)) D (cL s3) = true).
        { apply IsUnit_true. split.
          - apply value_undef. apply value_undef in Hundef. by rewrite litVar_Negate in Hundef.
          - intros x Hx Hne. apply (trimmed_false (m s1) j x (Negate (cL s3))); [done|by apply Hfalse|].
            by rewrite Negate_involutive. }
        rewrite (Hnu j D (cL s3)) in Hu; done.
      * pose proof (inv_below _ HI j D Hj Hold) as Hb.
        apply IsClauseFalse_false in Hb as (x & Hx & Hxf). apply Hxf.
        apply (trimmed_false (m s1) j x (Negate (cL s3))); [done|by apply Hfalse|].
        rewrite Negate_involutive. intros ->. done.
    + specialize (Hfalse _ HLc). apply value_false in Hfalse as [Hnot _].
      apply Hnot. unfold trailLits. cbn [elems]. rewrite fmap_app. apply elem_of_app.
      right. cbn. by left.
Qed.

Lemma unitPropagate_Inv fuel s s' :
  Inv s -> unitPropagate fuel s = Ret s' -> Inv s'.
Proof.
  revert s. induction fuel as [|fuel IH]; intros s HI; [done|].
  rewrite unitPropagate_unfold.
  destruct (findUnit (m s) (f s)) as [[cl l]|] eqn:Hfind; [|by intros [= <-]].
  apply findUnit_Some in Hfind as (Hcl & Hl & Hunit).
  rewrite (propagateStep_Ret cl l s Hunit). cbn [mbind Res_bind bindRes].
  pose proof (propagateStep_Inv cl l s HI Hcl Hl Hunit) as HI1.
  destruct (negb _); [by intros [= <-]|]. by apply IH.
Qed.

Section Top.
Variable rangeMap : nat -> gset Z -> list Z.
Hypothesis Henum : enumerates rangeMap.

Lemma solveIter_top fuel s s' :
  Inv s -> noUnitBelow (f s) (m s) ->
  solveIter rangeMap fuel s = Ret (inr s') ->
  noUnitBelow (f s') (m s') /\ IsZero (IsFormulaFalse (m s') (f s')) = true.
Proof.
  intros HI Hnu Hr.
  apply solveIter_cases in Hr as (s1 & H1 & Hcases). cbv zeta in Hcases.
  pose proof (unitPropagate_noUnitBelow fuel s s1 HI Hnu H1) as Hnu1.
  pose proof (unitPropagate_Inv fuel s s1 HI H1) as HI1.
  destruct (unitPropagate_rounds_aux fuel s s1 H1) as (_ & _ & new & _ & _ & Hend).
  destruct Hcases as [(Hz1 & [[_ [=]]|(Hdl & s3 & s5 & H3 & H5 & [= ->])])
                     |(Hz1 & [[_ [=]]|(Hlen & lit & s2 & s3 & Hsel & H3 & [= ->])])].
  - by apply (backjump_top rangeMap fuel s1 s3 s5).
  - destruct Hend as [Hnone|(_ & Hz')]; [|congruence].
    apply selectLiteral_shape in Hsel.
    assert (Hm2 : m s2 = m s1 /\ f s2 = f s1) by (rewrite Hsel; by destruct (decideLiterals s1)).
    destruct Hm2 as [Hm2 Hf2].
    apply assertLiteral_shape in H3 as (M & HM & ->).
    apply Assert_Ret in HM as [Hundef ->]. rewrite Hm2 in *. fields. rewrite Hf2.
    split.
    + apply decide_noUnitBelow; [apply HI1|done|done].
    + apply decide_not_false; try done; [eapply formulaOK_nonempty, HI1|apply HI1].
Qed.

Lemma reachable_top fuel fm s :
  wfFormula fm -> reachable rangeMap fuel (AddFormula fm New) s ->
  Inv s /\ noUnitBelow (f s) (m s) /\ IsZero (IsFormulaFalse (m s) (f s)) = true.
Proof.
  intros Hwf. induction 1 as [|s s' Hreach (HI & Hnu & Hz) Hstep].
  - split; [by apply Inv_init|]. split.
    + intros j cl l Hj. cbn in Hj. lia.
    + destruct (IsFormulaFalse_spec (m (AddFormula fm New)) (f (AddFormula fm New)))
        as [[Hz _]|(_ & Hcl & Hfalse)]; [eapply formulaOK_nonempty, Inv_init; done|done|].
      exfalso. rewrite IsClauseFalse_true in Hfalse.
      pose proof (formulaOK_nonempty _ _ (inv_formula _ (Inv_init fm Hwf))) as Hne.
      pose proof (proj1 (Forall_forall _ _) Hne _ Hcl) as Hne'. cbv beta in Hne'.
      destruct (IsFormulaFalse _ _) as [|x cl'] eqn:Hc; [done|].
      specialize (Hfalse x ltac:(by left)).
      apply value_false in Hfalse as [_ Hin]. by apply elem_of_nil in Hin.
  - split.
    + pose proof (solveIter_outcome rangeMap Henum fuel s _ HI Hstep) as Hout. apply Hout.
    + by apply (solveIter_top fuel s s').
Qed.

End Top.

(** ** Unit propagation in a run *)

(** Entered on a trail that falsifies no clause, propagation ends at a
    fixpoint where no clause is unit or falsified, or on a falsified
    clause. *)
Lemma unitPropagate_end fuel s s' :
  unitPropagate fuel s = Ret s' ->
  IsZero (IsFormulaFalse (m s) (f s)) = true ->
  (findUnit (m s') (f s') = None /\ IsZero (IsFormulaFalse (m s') (f s')) = true) \/
  IsZero (IsFormulaFalse (m s') (f s')) = false.
Proof.
  revert s. induction fuel as [|fuel IH]; intros s; [done|].
  rewrite unitPropagate_unfold.
  destruct (findUnit (m s) (f s)) as [[cl l]|] eqn:Hfind.
  - intros H Hz. inv_bind H as s1 H1.
    destruct (IsZero (IsFormulaFalse (m s1) (f s1))) eqn:Hz1; cbn [negb] in H.
    + by apply (IH s1).
    + injection H as <-. by right.
  - intros [= <-] Hz. by left.
Qed.

(** C6: in a run of [Solve], whenever the loop calls [unitPropagate] (fuel
    above the number of unassigned variables), it returns, having asserted
    the literals [new] one after the other: each is the first literal, of
    the first clause in formula order, that [IsUnit] accepts on the trail
    so far; it is asserted at the current level, with that clause recorded
    as its reason, and on a trail that falsifies no clause.  Propagation
    stops at a fixpoint, where no clause is unit and none is falsified, or
    as soon as an assertion falsifies a clause: nothing is asserted after
    that, and [IsFormulaFalse] hands that clause, falsified and of the
    formula, to the loop as the conflict. *)
Theorem unitPropagate_rounds (rangeMap : nat -> gset Z -> list Z) (fm : list (list Z))
    (fuel0 fuel : nat) (s : Solver) :
  enumerates rangeMap -> wfFormula fm ->
  reachable rangeMap fuel0 (AddFormula fm New) s ->
  (size (vars s) - Len (m s) < fuel)%nat ->
  exists s', unitPropagate fuel s = Ret s' /\ f s' = f s /\
    exists new, m s' = trailAfter (m s) new /\
      (forall k e, new !! k = Some e ->
         Lvl e = CurrentLevel (m s) /\
         IsZero (IsFormulaFalse (trailAfter (m s) (take k new)) (f s)) = true /\
         exists cl pre post lpre lpost,
           f s = pre ++ cl :: post /\ cl = lpre ++ Lit e :: lpost /\
           IsUnit (trailAfter (m s) (take k new)) cl (Lit e) = true /\
           (forall c' l', c' ∈ pre -> l' ∈ c' ->
              IsUnit (trailAfter (m s) (take k new)) c' l' = false) /\
           (forall l', l' ∈ lpre -> IsUnit (trailAfter (m s) (take k new)) cl l' = false) /\
           reasonMap s' !! Lit e = Some cl) /\
      ((findUnit (m s') (f s') = None /\
        IsZero (IsFormulaFalse (m s') (f s')) = true) \/
       (new ≠ [] /\ IsZero (IsFormulaFalse (m s') (f s')) = false /\
        IsFormulaFalse (m s') (f s') ∈ f s' /\
        IsClauseFalse (m s') (IsFormulaFalse (m s') (f s')) = true)).
Proof.
  intros Henum Hwf Hreach Hfuel.
  destruct (reachable_top rangeMap Henum fuel0 fm s Hwf Hreach) as (HI & _ & Hz).
  destruct (unitPropagate_total fuel s HI Hfuel) as (s' & Hrun & HI' & _).
  exists s'. split; [done|].
  destruct (unitPropagate_rounds_aux fuel s s' Hrun) as (Hf & _ & new & Hm & Hrounds & Hstop).
  split; [done|]. exists new. split; [done|]. split.
  - intros k e Hk. destruct (Hrounds k e Hk) as (Hlv & cl & Hfu & HR & Hzk).
    split; [done|]. split.
    { destruct k as [|k]; [|apply Hzk; lia]. cbn [take]. by rewrite trailAfter_nil. }
    destruct (findUnit_first _ _ _ _ Hfu)
      as (pre & post & Hsplit & Hpre & lpre & lpost & Hcl & Hu & Hlpre).
    exists cl, pre, post, lpre, lpost. done.
  - destruct (unitPropagate_end fuel s s' Hrun Hz) as [Hfix|Hconf]; [by left|right].
    split.
    { intros ->. rewrite trailAfter_nil in Hm. rewrite Hm, Hf in Hconf. congruence. }
    split; [done|].
    destruct (IsFormulaFalse_spec (m s') (f s')) as [[Hz' _]|(_ & Hcl & Hfalse)];
      [eapply formulaOK_nonempty, HI'|congruence|done].
Qed.

Lemma unitPropagate_rounds_witness :
  exists s', unitPropagate 5 exDecided = Ret s' /\
    f s' = f exDecided /\
    exists new, m s' = trailAfter (m exDecided) new /\
      (forall k e, new !! k = Some e ->
         Lvl e = CurrentLevel (m exDecided) /\
         IsZero (IsFormulaFalse (trailAfter (m exDecided) (take k new))
                   (f exDecided)) = true /\
         exists cl pre post lpre lpost,
           f exDecided = pre ++ cl :: post /\ cl = lpre ++ Lit e :: lpost /\
           IsUnit (trailAfter (m exDecided) (take k new)) cl (Lit e) = true /\
           (forall c' l', c' ∈ pre -> l' ∈ c' ->
              IsUnit (trailAfter (m exDecided) (take k new)) c' l' = false) /\
           (forall l', l' ∈ lpre ->
              IsUnit (trailAfter (m exDecided) (take k new)) cl l' = false) /\
           reasonMap s' !! Lit e = Some cl) /\
      ((findUnit (m s') (f s') = None /\
        IsZero (IsFormulaFalse (m s') (f s')) = true) \/
       (new ≠ [] /\ IsZero (IsFormulaFalse (m s') (f s')) = false /\
        IsFormulaFalse (m s') (f s') ∈ f s' /\
        IsClauseFalse (m s') (IsFormulaFalse (m s') (f s')) = true)).
Proof.
  apply (unitPropagate_rounds ascending exFormula 5 5 exDecided).
  - intros k X. unfold ascending. apply merge_sort_Permutation.
  - apply (bool_decide_unpack _). vm_compute. exact I.
  - apply (reach_step _ _ _ (AddFormula exFormula New)); [apply reach_init|].
    vm_compute. reflexivity.
  - vm_compute. lia.
Defined.

(** ** The conflict branch of the loop *)

Lemma reachable_result rangeMap fuel fm s :
  reachable rangeMap fuel (AddFormula fm New) s -> result s = satResultUndef.
Proof.
  induction 1 as [|s s' Hreach IH Hstep]; [done|].
  apply solveIter_result in Hstep. cbn in Hstep. congruence.
Qed.

Lemma solveIter_conflict rangeMap fuel s s1 :
  unitPropagate fuel s = Ret s1 ->
  IsZero (IsFormulaFalse (m s1) (f s1)) = false ->
  solveIter rangeMap fuel s =
    let s2 := applyConflict (IsFormulaFalse (m s1) (f s1)) s1 in
    if bool_decide (DecisionsLen (m s2) = 0%nat) then Ret (inl (false, s2))
    else
      s3 ← applyExplainUIP rangeMap fuel s2;
      s5 ← applyBackjump rangeMap (learnClause s3);
      Ret (inr s5).
Proof.
  intros H1 Hz. unfold solveIter. rewrite H1. cbn [mbind Res_bind bindRes].
  by rewrite Hz.
Qed.

(** The clause learned at the first unique implication point is falsified
    by the trail of the conflict. *)
Lemma learned_false s keys :
  trail_wf (m s) -> AInv s -> cN s = 1 ->
  (forall l, l ∈ keys <-> l ∈ cP s) ->
  IsClauseFalse (m s) (keys ++ [Negate (cL s)]) = true.
Proof.
  intros Hwf HA HN Hkeys.
  destruct (uip_facts s Hwf HA HN) as (HLin & _ & _ & _ & _ & Hlow).
  apply IsClauseFalse_true. intros x [Hx| ->%list_elem_of_singleton]%elem_of_app.
  - apply value_false_wf; [done|]. apply Hlow. by apply Hkeys.
  - apply value_false_wf; [done|]. by rewrite Negate_involutive.
Qed.

(** C7: in a run of [Solve], when propagation ends on a falsified clause:
    with no decision level open, [Solve] returns false and the trail and the
    formula stay as propagation left them (nothing is undone); with a level
    open, conflict analysis returns with a learned clause [c], made of the
    literals of [P] followed by the negation of the last asserted literal
    [L], which stands on the trail at the current level; [c] is falsified by
    the trail and follows from the formula the solver was given; [c] is
    appended to the formula exactly when it has more than one literal; the
    backjump cuts the trail to a level [j] strictly below the current one
    and asserts the negation of [L] there, with [c] as its reason; and
    [Solve] goes on with the loop, that is with propagation, from that
    state. *)
Theorem Solve_conflict_step (rangeMap : nat -> gset Z -> list Z) (fm : list (list Z))
    (fuel : nat) (s s1 : Solver) :
  enumerates rangeMap -> wfFormula fm ->
  reachable rangeMap (S fuel) (AddFormula fm New) s ->
  (size (vars s) < S fuel)%nat ->
  unitPropagate (S fuel) s = Ret s1 ->
  IsZero (IsFormulaFalse (m s1) (f s1)) = false ->
  let s2 := applyConflict (IsFormulaFalse (m s1) (f s1)) s1 in
  m s2 = m s1 /\ f s2 = f s1 /\
  (DecisionsLen (m s1) = 0%nat -> Solve rangeMap (S fuel) s = Ret (false, s2)) /\
  (DecisionsLen (m s1) ≠ 0%nat ->
     exists s3 s5 keys,
       applyExplainUIP rangeMap (S fuel) s2 = Ret s3 /\
       cN s3 = 1 /\ c s3 = keys ++ [Negate (cL s3)] /\ keys ≡ₚ elements (cP s3) /\
       cL s3 ∈ trailLits (m s1) /\ Level (m s1) (cL s3) = CurrentLevel (m s1) /\
       IsClauseFalse (m s1) (c s3) = true /\ entails fm (c s3) /\
       applyBackjump rangeMap (learnClause s3) = Ret s5 /\
       f s5 = (if bool_decide (1 < length (c s3))%nat then f s1 ++ [c s3] else f s1) /\
       (backjumpTarget rangeMap (learnClause s3) < DecisionsLen (m s1))%nat /\
       m s5 = {| elems := elems (TrimToLevel (backjumpTarget rangeMap (learnClause s3)) (m s1))
                            ++ [mkElem (Negate (cL s3)) (backjumpTarget rangeMap (learnClause s3))];
                 decisionsLen := backjumpTarget rangeMap (learnClause s3) |} /\
       reasonMap s5 !! Negate (cL s3) = Some (c s3) /\
       Solve rangeMap (S fuel) s = solveLoop rangeMap (S fuel) fuel s5).
Proof.
  intros Henum Hwf Hreach Hfuel H1 Hz s2.
  destruct (reachable_Ent rangeMap (S fuel) fm s Henum Hwf Hreach) as [HI HE].
  destruct (unitPropagate_Ent fm (S fuel) s s1 HI HE H1) as [HI1 HE1].
  pose proof (reachable_result rangeMap (S fuel) fm s Hreach) as Hres.
  destruct (applyConflict_frame (IsFormulaFalse (m s1) (f s1)) s1) as (Hm2 & _ & Hf2 & _).
  fold s2 in Hm2, Hf2.
  assert (HSolve : Solve rangeMap (S fuel) s =
            (r ← solveIter rangeMap (S fuel) s;
             match r with
             | inl out => Ret out
             | inr s' => solveLoop rangeMap (S fuel) fuel s'
             end)).
  { unfold Solve. rewrite Hres. by rewrite bool_decide_eq_false_2 by (intros Hne; by apply Hne). }
  rewrite (solveIter_conflict rangeMap (S fuel) s s1 H1 Hz) in HSolve.
  cbv zeta in HSolve. fold s2 in HSolve. rewrite Hm2 in HSolve.
  split; [done|]. split; [done|]. split.
  - intros Hdl. by rewrite HSolve, bool_decide_eq_true_2.
  - intros Hdl. rewrite bool_decide_eq_false_2 in HSolve by done.
    assert (Hv1 : vars s1 = vars s).
    { apply unitPropagate_shape in H1 as (M & R & ->). by fields. }
    destruct (conflict_branch rangeMap (S fuel) s1 Henum HI1 Hz Hdl)
      as (s3 & s5 & _ & _ & H3 & H5 & _); [by rewrite Hv1|].
    fold s2 in H3.
    destruct (conflict_step_facts rangeMap (S fuel) s1 s3 s5 Henum HI1 Hz Hdl H3 H5)
      as (HA3 & HN3 & Hm3 & (keys & Hc3 & Hperm & Hkeys) & Hj & _ & _ & Hm5 & HR5 & Hf5 & _).
    destruct (conflict_branch_Ent rangeMap fm (S fuel) s1 s3 s5 Henum HI1 HE1 Hz Hdl H3 H5)
      as [Hent _].
    assert (Hwf3 : trail_wf (m s3)) by (rewrite Hm3; apply HI1).
    destruct (uip_facts s3 Hwf3 HA3 HN3) as (HLin & HLset & _).
    exists s3, s5, keys.
    split; [done|]. split; [done|]. split; [done|]. split; [done|].
    split; [by rewrite <- Hm3|]. split; [by rewrite <- Hm3|].
    split; [rewrite <- Hm3, Hc3; by apply learned_false|].
    split; [done|]. split; [done|]. split; [done|]. split; [done|]. split; [done|].
    split; [rewrite HR5; apply lookup_insert_eq|].
    rewrite HSolve. fold s2. rewrite H3. cbn [mbind Res_bind bindRes]. by rewrite H5.
Qed.

Lemma Solve_conflict_step_witness :
  let s2 := applyConflict (IsFormulaFalse (m exLearnPropagated) (f exLearnPropagated)) exLearnPropagated in
  m s2 = m exLearnPropagated /\ f s2 = f exLearnPropagated /\
  (DecisionsLen (m exLearnPropagated) = 0%nat -> Solve ascending 6 exLearnStep2 = Ret (false, s2)) /\
  (DecisionsLen (m exLearnPropagated) ≠ 0%nat ->
     exists s3 s5 keys,
       applyExplainUIP ascending 6 s2 = Ret s3 /\
       cN s3 = 1 /\ c s3 = keys ++ [Negate (cL s3)] /\ keys ≡ₚ elements (cP s3) /\
       cL s3 ∈ trailLits (m exLearnPropagated) /\
       Level (m exLearnPropagated) (cL s3) = CurrentLevel (m exLearnPropagated) /\
       IsClauseFalse (m exLearnPropagated) (c s3) = true /\ entails exLearn (c s3) /\
       applyBackjump ascending (learnClause s3) = Ret s5 /\
       f s5 = (if bool_decide (1 < length (c s3))%nat then f exLearnPropagated ++ [c s3]
               else f exLearnPropagated) /\
       (backjumpTarget ascending (learnClause s3) < DecisionsLen (m exLearnPropagated))%nat /\
       m s5 = {| elems := elems (TrimToLevel (backjumpTarget ascending (learnClause s3))
                                   (m exLearnPropagated))
                            ++ [mkElem (Negate (cL s3))
                                  (backjumpTarget ascending (learnClause s3))];
                 decisionsLen := backjumpTarget ascending (learnClause s3) |} /\
       reasonMap s5 !! Negate (cL s3) = Some (c s3) /\
       Solve ascending 6 exLearnStep2 = solveLoop ascending 6 5 s5).
Proof.
  apply (Solve_conflict_step ascending exLearn 5 exLearnStep2 exLearnPropagated).
  - intros n X. unfold ascending. apply merge_sort_Permutation.
  - apply (bool_decide_unpack _). vm_compute. exact I.
  - apply (reach_step _ _ _ exLearnStep1); [|vm_compute; reflexivity].
    apply (reach_step _ _ _ (AddFormula exLearn New)); [apply reach_init|].
    vm_compute. reflexivity.
  - vm_compute. lia.
  - vm_compute. reflexivity.
  - vm_compute. reflexivity.
Defined.

(** ** What is appended to the formula *)

Lemma learnedAt_Some rangeMap fuel s cl :
  learnedAt rangeMap fuel s = Some cl ->
  exists s1 s3, unitPropagate fuel s = Ret s1 /\
    IsZero (IsFormulaFalse (m s1) (f s1)) = false /\ DecisionsLen (m s1) ≠ 0%nat /\
    applyExplainUIP rangeMap fuel (applyConflict (IsFormulaFalse (m s1) (f s1)) s1) = Ret s3 /\
    cl = c s3.
Proof.
  unfold learnedAt. destruct (unitPropagate fuel s) as [s1| |]; [|done|done].
  cbv zeta. destruct (IsZero (IsFormulaFalse (m s1) (f s1))) eqn:Hz; [done|].
  case_bool_decide as Hdl; [done|]. cbn [negb andb].
  destruct (applyExplainUIP rangeMap fuel _) as [s3| |] eqn:H3; [|done|done].
  intros [= <-]. by exists s1, s3.
Qed.

Lemma unitPropagate_f fuel s s' : unitPropagate fuel s = Ret s' -> f s' = f s.
Proof. intros H. by destruct (unitPropagate_rounds_aux fuel s s' H) as [? _]. Qed.

Lemma applyExplainUIP_f rangeMap fuel s s' :
  applyExplainUIP rangeMap fuel s = Ret s' -> f s' = f s.
Proof.
  intros H. apply applyExplainUIP_shape in H as (s1 & Hloop & ->).
  apply explainLoop_shape in Hloop as (H' & P' & N' & L' & ->). by fields.
Qed.

Lemma applyBackjump_f rangeMap s s' : applyBackjump rangeMap s = Ret s' -> f s' = f s.
Proof.
  intros H. apply applyBackjump_shape in H as (lv & M & _ & _ & ->). fields.
  by destruct (bool_decide (0 < size (cP s))%nat).
Qed.

Lemma solveIter_appended rangeMap fuel s r :
  solveIter rangeMap fuel s = Ret r ->
  f (iterState r) = f s ++ appendedAt rangeMap fuel s.
Proof.
  intros Hr. apply solveIter_cases in Hr as (s1 & H1 & Hcases). cbv zeta in Hcases.
  pose proof (unitPropagate_f fuel s s1 H1) as Hf1.
  unfold appendedAt, learnedAt. rewrite H1. cbv zeta.
  destruct Hcases as [(Hz & [[Hdl ->]|(Hdl & s3 & s5 & H3 & H5 & ->)])
                     |(Hz & [[Hlen ->]|(Hlen & lit & s2 & s3 & Hsel & H3 & ->)])];
    rewrite Hz; cbn [negb andb iterState].
  - rewrite bool_decide_eq_true_2 by done. cbn [negb]. rewrite app_nil_r.
    destruct (applyConflict_frame (IsFormulaFalse (m s1) (f s1)) s1) as (_ & _ & -> & _).
    done.
  - rewrite bool_decide_eq_false_2 by done. cbn [negb]. rewrite H3.
    rewrite (applyBackjump_f _ _ _ H5), learnClause_f, (applyExplainUIP_f _ _ _ _ H3).
    destruct (applyConflict_frame (IsFormulaFalse (m s1) (f s1)) s1) as (_ & _ & -> & _).
    rewrite Hf1. case_bool_decide; [done|by rewrite app_nil_r].
  - by rewrite app_nil_r.
  - rewrite app_nil_r. apply selectLiteral_shape in Hsel.
    apply assertLiteral_shape in H3 as (M & _ & ->). fields.
    rewrite Hsel, <- Hf1. by destruct (decideLiterals s1).
Qed.

Lemma solveLoop_appended rangeMap fuel n s b s' :
  solveLoop rangeMap fuel n s = Ret (b, s') ->
  f s' = f s ++ appendedInRun rangeMap fuel n s.
Proof.
  revert s. induction n as [|n IH]; intros s; [done|]. cbn [solveLoop appendedInRun].
  intros H. apply bindRes_Ret in H as (r & Hr & H). rewrite Hr.
  pose proof (solveIter_appended rangeMap fuel s r Hr) as Hf.
  destruct r as [[b0 s0]|s0]; cbn [iterState] in Hf.
  - injection H as -> ->. rewrite app_nil_r.
    rewrite Hf. unfold appendedAt.
    destruct (learnedAt rangeMap fuel s) as [cl|] eqn:Hl; [|by rewrite app_nil_r].
    exfalso. apply learnedAt_Some in Hl as (s1 & s3 & H1 & Hz & Hdl & H3 & _).
    rewrite (solveIter_conflict rangeMap fuel s s1 H1 Hz) in Hr. cbv zeta in Hr.
    destruct (applyConflict_frame (IsFormulaFalse (m s1) (f s1)) s1) as (Hm2 & _).
    rewrite Hm2, bool_decide_eq_false_2, H3 in Hr by done.
    cbn [mbind Res_bind bindRes] in Hr.
    destruct (applyBackjump rangeMap (learnClause s3)); done.
  - apply IH in H. rewrite H, Hf. by rewrite app_assoc.
Qed.

Lemma appendedInRun_long rangeMap fuel n s :
  Forall (fun cl => (1 < length cl)%nat) (appendedInRun rangeMap fuel n s).
Proof.
  revert s. induction n as [|n IH]; intros s; cbn [appendedInRun]; [apply Forall_nil_2|].
  destruct (solveIter rangeMap fuel s) as [[[b0 s0]|s0]| |]; try apply Forall_nil_2.
  apply Forall_app. split; [|apply IH].
  unfold appendedAt. destruct (learnedAt rangeMap fuel s) as [cl|]; [|apply Forall_nil_2].
  case_bool_decide; [|apply Forall_nil_2]. by apply Forall_singleton.
Qed.

(** C8: in a run of [Solve] the formula is the one the run started from,
    followed by what the iterations appended, in order, and every appended
    clause has more than one literal.  An iteration appends at most one
    clause, and only if it went through conflict analysis: the clause is
    then [s.c], the clause that [applyExplainUIP] learned in that iteration,
    and it is appended exactly when [P] is not empty.  When [P] is empty the
    learned clause is the single literal "not [L]": the formula is left as
    it was, the backjump goes to level 0, where "not [L]" is asserted, and
    the clause is kept only as the reason recorded for that literal. *)
Theorem formula_only_grows (rangeMap : nat -> gset Z -> list Z) (fuel : nat)
    (s : Solver) (b : bool) (s' : Solver) :
  enumerates rangeMap -> result s = satResultUndef ->
  Solve rangeMap fuel s = Ret (b, s') ->
  f s' = f s ++ appendedInRun rangeMap fuel fuel s /\
  Forall (fun cl => (1 < length cl)%nat) (appendedInRun rangeMap fuel fuel s) /\
  (forall t r, solveIter rangeMap fuel t = Ret r ->
     f (iterState r) = f t ++ appendedAt rangeMap fuel t /\
     (learnedAt rangeMap fuel t = None -> f (iterState r) = f t) /\
     forall cl, learnedAt rangeMap fuel t = Some cl ->
       exists t1 t3,
         unitPropagate fuel t = Ret t1 /\
         applyExplainUIP rangeMap fuel
           (applyConflict (IsFormulaFalse (m t1) (f t1)) t1) = Ret t3 /\
         cl = c t3 /\
         applyBackjump rangeMap (learnClause t3) = Ret (iterState r) /\
         (length cl = 1%nat <-> cP t3 = ∅) /\
         ((1 < length cl)%nat <-> cP t3 ≠ ∅) /\
         ((1 < length cl)%nat -> f (iterState r) = f t ++ [cl]) /\
         (cP t3 = ∅ ->
            cl = [Negate (cL t3)] /\ f (iterState r) = f t /\
            CurrentLevel (m (iterState r)) = 0%nat /\
            (exists old, elems (m (iterState r)) = old ++ [mkElem (Negate (cL t3)) 0]) /\
            reasonMap (iterState r) !! Negate (cL t3) = Some [Negate (cL t3)])).
Proof.
  intros Henum Hres Hsolve. unfold Solve in Hsolve.
  rewrite Hres, bool_decide_eq_false_2 in Hsolve by (intros Hne; by apply Hne).
  split; [by apply (solveLoop_appended _ _ _ _ b s')|]. split; [apply appendedInRun_long|].
  intros t r Hr. pose proof (solveIter_appended rangeMap fuel t r Hr) as Hf.
  split; [done|]. split.
  { intros Hnone. rewrite Hf. unfold appendedAt. by rewrite Hnone, app_nil_r. }
  intros cl Hl. unfold appendedAt in Hf. rewrite Hl in Hf.
  apply learnedAt_Some in Hl as (t1 & t3 & H1 & Hz & Hdl & H3 & ->).
  exists t1, t3. split; [done|]. split; [done|]. split; [done|].
  assert (H5 : applyBackjump rangeMap (learnClause t3) = Ret (iterState r)).
  { rewrite (solveIter_conflict rangeMap fuel t t1 H1 Hz) in Hr. cbv zeta in Hr.
    destruct (applyConflict_frame (IsFormulaFalse (m t1) (f t1)) t1) as (Hm2 & _).
    rewrite Hm2, bool_decide_eq_false_2, H3 in Hr by done.
    cbn [mbind Res_bind bindRes] in Hr.
    destruct (applyBackjump rangeMap (learnClause t3)) as [t5| |]; [|done|done].
    cbn [mbind Res_bind bindRes] in Hr. by injection Hr as <-. }
  split; [done|].
  pose proof H3 as H3'.
  apply applyExplainUIP_shape in H3' as (t' & Hloop & Ht3).
  set (keys := rangeMap (clock t') (cP t')) in *.
  assert (HP3 : cP t3 = cP t') by (by rewrite Ht3).
  assert (HL3 : cL t3 = cL t') by (by rewrite Ht3).
  assert (Hc3 : c t3 = keys ++ [Negate (cL t3)]) by (by rewrite Ht3).
  assert (Hlen : length keys = size (cP t3)) by (rewrite HP3; by apply enumerates_length).
  assert (Hclen : length (c t3) = S (size (cP t3))).
  { rewrite Hc3, length_app, Hlen. cbn. lia. }
  assert (Hsz : size (cP t3) = 0%nat <-> cP t3 = ∅).
  { split; [intros ?; by apply leibniz_equiv, size_empty_iff|intros ->; apply size_empty]. }
  split; [rewrite Hclen, <- Hsz; lia|].
  split; [rewrite Hclen, <- Hsz; lia|].
  split; [intros Hlong; by rewrite bool_decide_eq_true_2 in Hf|].
  intros HP0.
  assert (Hk : keys = []).
  { rewrite HP0, size_empty in Hlen. by destruct keys. }
  rewrite Hk in Hc3. cbn [app] in Hc3.
  split; [done|].
  split.
  { rewrite Hf, bool_decide_eq_false_2, app_nil_r; [done|]. rewrite Hc3. cbn. lia. }
  apply applyBackjump_shape in H5 as (lv & M & Hlv & HM & ->).
  destruct (learnClause_frame t3) as (Hm4 & HR4 & _ & _ & _ & HP4 & _ & HL4 & Hc4 & _).
  rewrite HP4, HP0, size_empty in Hlv |- *.
  rewrite bool_decide_eq_false_2 in Hlv |- * by lia. subst lv.
  apply Assert_Ret in HM as [_ ->]. fields. rewrite HL4, Hc4, Hc3.
  assert (Hd0 : decisionsLen (TrimToLevel 0 (m (learnClause t3))) = 0%nat)
    by (rewrite Trim_decisionsLen; lia).
  rewrite Hd0. split; [done|]. split; [by eexists|]. apply lookup_insert_eq.
Qed.

Lemma formula_only_grows_witness :
  f (solved ascending 30 exLearn)
    = f (AddFormula exLearn New) ++ appendedInRun ascending 30 30 (AddFormula exLearn New) /\
  Forall (fun cl => (1 < length cl)%nat)
    (appendedInRun ascending 30 30 (AddFormula exLearn New)) /\
  (forall t r, solveIter ascending 30 t = Ret r ->
     f (iterState r) = f t ++ appendedAt ascending 30 t /\
     (learnedAt ascending 30 t = None -> f (iterState r) = f t) /\
     forall cl, learnedAt ascending 30 t = Some cl ->
       exists t1 t3,
         unitPropagate 30 t = Ret t1 /\
         applyExplainUIP ascending 30
           (applyConflict (IsFormulaFalse (m t1) (f t1)) t1) = Ret t3 /\
         cl = c t3 /\
         applyBackjump ascending (learnClause t3) = Ret (iterState r) /\
         (length cl = 1%nat <-> cP t3 = ∅) /\
         ((1 < length cl)%nat <-> cP t3 ≠ ∅) /\
         ((1 < length cl)%nat -> f (iterState r) = f t ++ [cl]) /\
         (cP t3 = ∅ ->
            cl = [Negate (cL t3)] /\ f (iterState r) = f t /\
            CurrentLevel (m (iterState r)) = 0%nat /\
            (exists old, elems (m (iterState r)) = old ++ [mkElem (Negate (cL t3)) 0]) /\
            reasonMap (iterState r) !! Negate (cL t3) = Some [Negate (cL t3)])).
Proof.
  apply (formula_only_grows ascending 30 (AddFormula exLearn New) true).
  - intros n X. unfold ascending. apply merge_sort_Permutation.
  - reflexivity.
  - vm_compute. reflexivity.
Defined.
